(** * CoulombGalore: splitting functions and the generic pair-interaction engine

    A shallow embedding of [src/coulombgalore.h] (and of the older
    [src/src/coulomb.h] where it is compared against).

    Conventions of the embedding.
    - A C++ [double] is a real number of [R]: arithmetic is exact, rounding of
      IEEE-754 is not modelled.  The only non-finite value the code feeds in
      on purpose is [infinity] (default cutoff of [Plain], default Debye
      length, default [eps_sur]); such parameters have type [xreal].
      Where overflow or the rounding of a comparison decides what the
      program returns, the functions concerned are embedded a second time
      over binary64 numbers ([Module Binary64]), and statements over [R]
      about the q-Pochhammer functions keep their parameters where no
      factor leaves the range of normal doubles.
    - [unsigned int] is an integer of [Z] kept in [0, 2^32) with the
      wrap-around written out; a signed [int] passed to an [unsigned int]
      parameter is converted modulo [2^32] ([unsigned_of_int]).
    - Integer division by zero is undefined behaviour: [Undef].  A C++
      exception is [Raise].  Code that can do either lives in the monad
      [outcome].
    - [std::exp], [std::sqrt], [std::atan] are the functions of the standard
      library of reals; [std::erf] is defined below by its power series. *)

From Stdlib Require Import Reals Lra Lia ZArith List String Bool.
From Stdlib Require PrimFloat.
Import ListNotations.

Local Open Scope Z_scope.
Local Open Scope R_scope.

(** ** Outcomes of a computation *)

Inductive exn : Type :=
| runtime_error (what : string)
| out_of_range.

Inductive outcome (A : Type) : Type :=
| Ret (a : A)
| Raise (e : exn)
| Undef.

Arguments Ret {A} a.
Arguments Raise {A} e.
Arguments Undef {A}.

Definition bind {A B : Type} (m : outcome A) (f : A -> outcome B) : outcome B :=
  match m with
  | Ret a => f a
  | Raise e => Raise e
  | Undef => Undef
  end.

Definition fmap {A B : Type} (f : A -> B) (m : outcome A) : outcome B :=
  bind m (fun a => Ret (f a)).

Notation "x <- m ;; k" := (bind m (fun x => k))
  (at level 61, m at next level, right associativity).

Definition defined {A : Type} (m : outcome A) : Prop := exists a, m = Ret a.

(** ** Doubles that may be [infinity] *)

Inductive xreal : Type :=
| Fin (x : R)
| Inf.

(** [1.0 / x] for a parameter that may be infinite. *)
Definition xinv (x : xreal) : R :=
  match x with
  | Fin v => 1 / v
  | Inf => 0
  end.

(** [x * x]. *)
Definition xsqr (x : xreal) : xreal :=
  match x with
  | Fin v => Fin (v * v)
  | Inf => Inf
  end.

(** [a / x] for finite [a]. *)
Definition xdiv (a : R) (x : xreal) : R :=
  match x with
  | Fin v => a / v
  | Inf => 0
  end.

(** [a < x] for finite [a]. *)
Definition xlt (a : R) (x : xreal) : bool :=
  match x with
  | Fin v => if Rlt_dec a v then true else false
  | Inf => true
  end.

(** [a >= x] as a proposition, for statements. *)
Definition xge (a : R) (x : xreal) : Prop :=
  match x with
  | Fin v => a >= v
  | Inf => False
  end.

Definition Rltb (a b : R) : bool := if Rlt_dec a b then true else false.

(** ** 3-vectors (the part of [Eigen::Vector3d] the engine uses) *)

Record vec3 : Type := mkvec3 { vx : R; vy : R; vz : R }.

Definition vzero : vec3 := mkvec3 0 0 0.
Definition dot (a b : vec3) : R := vx a * vx b + vy a * vy b + vz a * vz b.
Definition squaredNorm (a : vec3) : R := dot a a.
Definition norm (a : vec3) : R := sqrt (squaredNorm a).
Definition vscale (s : R) (a : vec3) : vec3 := mkvec3 (s * vx a) (s * vy a) (s * vz a).
Definition vmul (a : vec3) (s : R) : vec3 := mkvec3 (vx a * s) (vy a * s) (vz a * s).
Definition vdiv (a : vec3) (s : R) : vec3 := mkvec3 (vx a / s) (vy a / s) (vz a / s).
Definition vadd (a b : vec3) : vec3 := mkvec3 (vx a + vx b) (vy a + vy b) (vz a + vz b).
Definition vsub (a b : vec3) : vec3 := mkvec3 (vx a - vx b) (vy a - vy b) (vz a - vz b).
Definition vneg (a : vec3) : vec3 := mkvec3 (- vx a) (- vy a) (- vz a).
Definition cross (a b : vec3) : vec3 :=
  mkvec3 (vy a * vz b - vz a * vy b) (vz a * vx b - vx a * vz b) (vx a * vy b - vy a * vx b).

(** ** Integer helpers *)

Definition two32 : Z := 4294967296%Z.

(** Conversion of a signed [int] to [unsigned int]. *)
Definition unsigned_of_int (z : Z) : Z := (z mod two32)%Z.

(** [powi(x, n)] with [n] an [unsigned int], by the portable branch
    [n > 0 ? x * powi(x, n - 1) : 1].  (With GCC or Clang the body is
    [__builtin_powi(x, n)]; the two agree for [0 <= n < 2^31].) *)
Definition powi (x : R) (n : Z) : R := x ^ Z.to_nat n.

(** [factorial(n)] on [unsigned int]: [n <= 1 ? 1 : n * factorial(n - 1)],
    products taken modulo [2^32]. *)
Fixpoint factorial_rec (fuel : nat) (n : Z) : Z :=
  match fuel with
  | O => 1%Z
  | S fuel' =>
      if (n <=? 1)%Z then 1%Z
      else ((n * factorial_rec fuel' (n - 1)) mod two32)%Z
  end.

Definition factorial (n : Z) : Z := factorial_rec (Z.to_nat n) n.

(** Unsigned integer division; a zero divisor is undefined behaviour. *)
Definition udiv (a b : Z) : outcome Z :=
  if (b =? 0)%Z then Undef else Ret (a / b)%Z.

(** [binomial(n, k) = factorial(n) / factorial(k) / factorial(n - k)]. *)
Definition binomial (n k : Z) : outcome Z :=
  let fn := factorial n in
  let fk := factorial k in
  let fnk := factorial (unsigned_of_int (n - k)) in
  x <- udiv fn fk ;; udiv x fnk.

(** [for (int i = lo; i < hi; i++) acc = body(i, acc);] *)
Definition range (lo hi : Z) : list Z :=
  map (fun i => (lo + Z.of_nat i)%Z) (seq 0 (Z.to_nat (hi - lo))).

Definition for_loop {A : Type} (lo hi : Z) (body : Z -> A -> A) (init : A) : A :=
  fold_left (fun acc i => body i acc) (range lo hi) init.

Definition for_loopM {A : Type} (lo hi : Z) (body : Z -> A -> outcome A) (init : A)
  : outcome A :=
  fold_left (fun acc i => a <- acc ;; body i a) (range lo hi) (Ret init).

(** ** The error function of [<cmath>]

    [erf x = 2/sqrt(pi) * sum_n (-1)^n x^(2n+1) / (n! (2n+1))]; the series in
    [y = x^2] converges for every [y] by the ratio test. *)

Module Cmath.

Definition erf_coef (n : nat) : R := (-1) ^ n / (INR (fact n) * INR (2 * n + 1)).

Lemma erf_coef_nonzero : forall n, erf_coef n <> 0.
Proof.
  intro n. unfold erf_coef.
  assert (Hf : INR (fact n) <> 0) by apply INR_fact_neq_0.
  assert (Hm : INR (2 * n + 1) <> 0) by (apply not_0_INR; lia).
  assert (Hp : (-1) ^ n <> 0) by (apply pow_nonzero; lra).
  unfold Rdiv. apply Rmult_integral_contrapositive_currified; auto.
  apply Rinv_neq_0_compat. apply Rmult_integral_contrapositive_currified; auto.
Qed.

Lemma erf_coef_ratio_bound : forall n, Rabs (erf_coef (S n) / erf_coef n) <= / INR (S n).
Proof.
  intro n. unfold erf_coef.
  assert (Hf : 0 < INR (fact n)) by apply INR_fact_lt_0.
  assert (HS : 0 < INR (S n)) by (apply lt_0_INR; lia).
  assert (Hm : 0 < INR (2 * n + 1)) by (apply lt_0_INR; lia).
  assert (Hm' : 0 < INR (2 * S n + 1)) by (apply lt_0_INR; lia).
  assert (Hle : INR (2 * n + 1) <= INR (2 * S n + 1)) by (apply le_INR; lia).
  assert (Hp : (-1) ^ n <> 0) by (apply pow_nonzero; lra).
  replace ((-1) ^ S n / (INR (fact (S n)) * INR (2 * S n + 1)) /
           ((-1) ^ n / (INR (fact n) * INR (2 * n + 1))))
    with (- (INR (2 * n + 1) / (INR (S n) * INR (2 * S n + 1)))).
  2:{ rewrite fact_simpl, mult_INR. simpl pow. field. repeat split; lra. }
  rewrite Rabs_Ropp, Rabs_pos_eq.
  - apply Rmult_le_reg_r with (INR (S n) * INR (2 * S n + 1)); [nra|].
    replace (INR (2 * n + 1) / (INR (S n) * INR (2 * S n + 1)) *
             (INR (S n) * INR (2 * S n + 1)))
      with (INR (2 * n + 1)) by (field; split; lra).
    replace (/ INR (S n) * (INR (S n) * INR (2 * S n + 1)))
      with (INR (2 * S n + 1)) by (field; lra).
    exact Hle.
  - apply Rlt_le, Rdiv_lt_0_compat; nra.
Qed.

Lemma erf_coef_Alembert : Un_cv (fun n => Rabs (erf_coef (S n) / erf_coef n)) 0.
Proof.
  intros eps Heps.
  destruct (archimed_cor1 eps Heps) as [N [HN HNpos]].
  exists N. intros n Hn. unfold R_dist. rewrite Rminus_0_r, Rabs_Rabsolu.
  apply Rle_lt_trans with (/ INR (S n)); [apply erf_coef_ratio_bound|].
  apply Rle_lt_trans with (/ INR N); [|exact HN].
  apply Rinv_le_contravar; [apply lt_0_INR; lia | apply le_INR; lia].
Qed.

Definition erf_series (y : R) : R :=
  proj1_sig (Alembert_C3 erf_coef y erf_coef_nonzero erf_coef_Alembert).

(** [2.0 * std::sqrt(std::atan(1.0))], the [sqrt_pi] / [pi_sqrt] member. *)
Definition sqrt_pi : R := 2 * sqrt (atan 1).

Definition erf (x : R) : R := 2 / sqrt_pi * (x * erf_series (x * x)).
Definition erfc (x : R) : R := 1 - erf x.

End Cmath.

(** ** Scheme tags and the base class *)

Inductive Scheme : Type :=
| plain | ewald | wolf | poissonsimple | poisson | qpotential | fanourgakis.

(** [std::array<double, 2>]. *)
Record array2 : Type := mkarray2 { elt0 : R; elt1 : R }.

Definition array_size (_ : array2) : Z := 2%Z.

Definition array_at (a : array2) (i : Z) : outcome R :=
  if (i =? 0)%Z then Ret (elt0 a)
  else if (i =? 1)%Z then Ret (elt1 a)
  else Raise out_of_range.

Record SchemeBase : Type := mkSchemeBase {
  doi : string;
  name : string;
  scheme : Scheme;
  cutoff : xreal;
  debye_length : xreal;
  T0 : R;
  self_energy_prefactor : array2
}.

(** [SchemeBase(scheme, cutoff, debye_length)]: [doi] and [name] start empty;
    [T0] and [self_energy_prefactor] are left unset by this constructor and
    are assigned by every derived one (they are given 0 here). *)
Definition SchemeBase_ctor (s : Scheme) (c d : xreal) : SchemeBase :=
  mkSchemeBase EmptyString EmptyString s c d 0 (mkarray2 0 0).

Definition calc_dielectric (b : SchemeBase) (M2V : R) : R :=
  (M2V * T0 b + 2 * M2V + 1) / (M2V * T0 b - M2V + 1).

Record EnergyImplementation : Type := mkEnergyImplementation {
  sbase : SchemeBase;
  invcutoff : R;
  cutoff2 : xreal;
  kappa : R
}.

Definition EnergyImplementation_ctor (type : Scheme) (c d : xreal) : EnergyImplementation :=
  mkEnergyImplementation (SchemeBase_ctor type c d) (xinv c) (xsqr c) (xinv d).

(** Assignments to the public members done by derived constructors. *)
Definition on_base (f : SchemeBase -> SchemeBase) (e : EnergyImplementation)
  : EnergyImplementation :=
  mkEnergyImplementation (f (sbase e)) (invcutoff e) (cutoff2 e) (kappa e).

Definition set_name (s : string) : EnergyImplementation -> EnergyImplementation :=
  on_base (fun b => mkSchemeBase (doi b) s (scheme b) (cutoff b) (debye_length b)
                                 (T0 b) (self_energy_prefactor b)).
Definition set_doi (s : string) : EnergyImplementation -> EnergyImplementation :=
  on_base (fun b => mkSchemeBase s (name b) (scheme b) (cutoff b) (debye_length b)
                                 (T0 b) (self_energy_prefactor b)).
Definition set_T0 (t : R) : EnergyImplementation -> EnergyImplementation :=
  on_base (fun b => mkSchemeBase (doi b) (name b) (scheme b) (cutoff b) (debye_length b)
                                 t (self_energy_prefactor b)).
Definition set_self_energy_prefactor (p : array2)
  : EnergyImplementation -> EnergyImplementation :=
  on_base (fun b => mkSchemeBase (doi b) (name b) (scheme b) (cutoff b) (debye_length b)
                                 (T0 b) p).

(** ** The generic engine [EnergyImplementation<T>]

    [T] supplies the splitting function and three derivatives (static
    dispatch through [static_cast<const T *>(this)]). *)

Class SplittingScheme (T : Type) : Type := {
  impl : T -> EnergyImplementation;
  srf : T -> R -> outcome R;
  dsrf : T -> R -> outcome R;
  ddsrf : T -> R -> outcome R;
  dddsrf : T -> R -> outcome R
}.

Section Engine.

Context {T : Type} `{SplittingScheme T}.
Variable this : T.

Let e : EnergyImplementation := impl this.

Definition ion_potential (z r : R) : outcome R :=
  if xlt r (cutoff (sbase e)) then
    let q := r * invcutoff e in
    s <- srf this q ;;
    Ret (z / r * s * exp (- kappa e * r))
  else Ret 0.

Definition dipole_potential (mu r : vec3) : outcome R :=
  let r2 := squaredNorm r in
  if xlt r2 (cutoff2 e) then
    let r1 := sqrt r2 in
    let q := r1 * invcutoff e in
    s <- srf this q ;;
    d <- dsrf this q ;;
    Ret (dot mu r / r2 / r1 * (s * (1 + kappa e * r1) - q * d) * exp (- kappa e * r1))
  else Ret 0.

Definition ion_field (z : R) (r : vec3) : outcome vec3 :=
  let r2 := squaredNorm r in
  if xlt r2 (cutoff2 e) then
    let r1 := sqrt r2 in
    let q := r1 * invcutoff e in
    s <- srf this q ;;
    d <- dsrf this q ;;
    Ret (vmul (vmul (vdiv (vdiv (vscale z r) r2) r1)
                    (s * (1 + kappa e * r1) - q * d))
              (exp (- kappa e * r1)))
  else Ret vzero.

Definition dipole_field (mu r : vec3) : outcome vec3 :=
  let r2 := squaredNorm r in
  if xlt r2 (cutoff2 e) then
    let r1 := sqrt r2 in
    let r3 := r1 * r2 in
    let q := r1 * invcutoff e in
    s <- srf this q ;;
    d <- dsrf this q ;;
    dd <- ddsrf this q ;;
    let fieldD := vdiv (vsub (vdiv (vscale (3 * dot mu r) r) r2) mu) r3 in
    let fieldD := vmul fieldD
      (s * (1 + kappa e * r1 + kappa e * kappa e * r2 / 3)
       - q * d * (1 + 2 / 3 * kappa e * r1) + q * q / 3 * dd) in
    let fieldI := vdiv mu r3 in
    let fieldI := vmul fieldI
      ((s * kappa e * kappa e * r2 - 2 * kappa e * r1 * q * d + dd * q * q) / 3) in
    Ret (vmul (vadd fieldD fieldI) (exp (- kappa e * r1)))
  else Ret vzero.

Definition ion_ion_energy (zA zB r : R) : outcome R :=
  fmap (fun phi => zB * phi) (ion_potential zA r).

Definition ion_dipole_energy (z : R) (mu r : vec3) : outcome R :=
  fmap (fun phi => z * phi) (dipole_potential mu (vneg r)).

Definition dipole_dipole_energy (muA muB r : vec3) : outcome R :=
  fmap (fun E => - dot muA E) (dipole_field muB r).

Definition ion_ion_force (zA zB : R) (r : vec3) : outcome vec3 :=
  fmap (vscale zB) (ion_field zA r).

Definition ion_dipole_force (z : R) (mu r : vec3) : outcome vec3 :=
  fmap (vscale z) (dipole_field mu r).

Definition dipole_dipole_force (muA muB r : vec3) : outcome vec3 :=
  let r2 := squaredNorm r in
  if xlt r2 (cutoff2 e) then
    let r1 := sqrt r2 in
    let rh := vdiv r r1 in
    let q := r1 * invcutoff e in
    let q2 := q * q in
    let r4 := r2 * r2 in
    let muAdotRh := dot muA rh in
    let muBdotRh := dot muB rh in
    let forceD :=
      vdiv (vscale 3
              (vsub (vsub (vscale (5 * muAdotRh * muBdotRh - dot muA muB) rh)
                          (vscale muBdotRh muA))
                    (vscale muAdotRh muB)))
           r4 in
    s <- srf this q ;;
    d <- dsrf this q ;;
    dd <- ddsrf this q ;;
    ddd <- dddsrf this q ;;
    let forceD := vmul forceD
      (s * (1 + kappa e * r1 + kappa e * kappa e * r2 / 3)
       - q * d * (1 + 2 / 3 * kappa e * r1) + q2 / 3 * dd) in
    let forceI := vdiv (vscale (muAdotRh * muBdotRh) rh) r4 in
    let forceI := vmul forceI
      (s * (1 + kappa e * r1) * kappa e * kappa e * r2
       - q * d * (3 * kappa e * r1 + 2) * kappa e * r1
       + dd * (1 + 3 * kappa e * r1) * q2 - q2 * q * ddd) in
    Ret (vmul (vadd forceD forceI) (exp (- kappa e * r1)))
  else Ret vzero.

Definition dipole_torque (mu E : vec3) : vec3 := cross mu E.

(** [self_energy(const std::array<double, 2> &m2)]. *)
Definition self_energy (m2 : array2) : outcome R :=
  let prefactor := self_energy_prefactor (sbase e) in
  if negb (array_size prefactor =? array_size m2)%Z then
    Raise (runtime_error
             "Vectors of self energy prefactors and squared moment are not equal in size!")
  else
    for_loopM 0 (array_size prefactor)
      (fun i e_self =>
         p <- array_at prefactor i ;;
         m <- array_at m2 i ;;
         Ret (e_self + p * m * powi (invcutoff e) (unsigned_of_int (2 * i + 1))))
      0.

End Engine.

(** ** q-Pochhammer symbol and its derivatives *)

Definition qPochhammerSymbol (q : R) (l P : Z) : R :=
  let Ct :=
    for_loop 1 (P + 1)
      (fun n Ct =>
         let val := for_loop 1 (n + l + 1)
                      (fun k val => val + powi q (unsigned_of_int (k - 1))) 0 in
         Ct * val)
      1 in
  let Dt := powi (1 - q) (unsigned_of_int P) in
  Ct * Dt.

Definition qPochhammerSymbolDerivative (q : R) (l P : Z) : R :=
  let Ct :=
    for_loop 1 (P + 1)
      (fun n Ct =>
         let val := for_loop 1 (n + l + 1)
                      (fun k val => val + powi q (unsigned_of_int (k - 1))) 0 in
         Ct * val)
      1 in
  let dCt :=
    for_loop 1 (P + 1)
      (fun n dCt =>
         let '(nom, denom) :=
           for_loop 2 (n + l + 1)
             (fun k '(nom, denom) =>
                (nom + IZR (k - 1) * powi q (unsigned_of_int (k - 2)),
                 denom + powi q (unsigned_of_int (k - 1))))
             (0, 1) in
         dCt + nom / denom)
      0 in
  let dCt := dCt * Ct in
  let Dt := powi (1 - q) (unsigned_of_int P) in
  let dDt := if (0 <? P)%Z then IZR (- P) * powi (1 - q) (unsigned_of_int (P - 1)) else 0 in
  Ct * dDt + dCt * Dt.

Definition qPochhammerSymbolSecondDerivative (q : R) (l P : Z) : R :=
  let '(Ct, DS, dDS) :=
    for_loop 1 (P + 1)
      (fun n '(Ct, DS, dDS) =>
         let tmp := for_loop 1 (n + l + 1)
                      (fun k tmp => tmp + powi q (unsigned_of_int (k - 1))) 0 in
         let Ct := Ct * tmp in
         let '(nom, denom) :=
           for_loop 2 (n + l + 1)
             (fun k '(nom, denom) =>
                (nom + IZR (k - 1) * powi q (unsigned_of_int (k - 2)),
                 denom + powi q (unsigned_of_int (k - 1))))
             (0, 1) in
         let DS := DS + nom / denom in
         let '(diffNom, diffDenom) :=
           for_loop 3 (n + l + 1)
             (fun k '(diffNom, diffDenom) =>
                (diffNom + IZR ((k - 1) * (k - 2)) * powi q (unsigned_of_int (k - 3)),
                 diffDenom + IZR (k - 1) * powi q (unsigned_of_int (k - 2))))
             (0, 1) in
         let dDS := dDS + (diffNom * denom - nom * diffDenom) / denom / denom in
         (Ct, DS, dDS))
      (1, 0, 0) in
  let dCt := Ct * DS in
  let ddCt := dCt * DS + Ct * dDS in
  let Dt := powi (1 - q) (unsigned_of_int P) in
  let dDt := if (0 <? P)%Z then IZR (- P) * powi (1 - q) (unsigned_of_int (P - 1)) else 0 in
  let ddDt :=
    if (1 <? P)%Z then IZR (P * (P - 1)) * powi (1 - q) (unsigned_of_int (P - 2)) else 0 in
  Ct * ddDt + 2 * dCt * dDt + ddCt * Dt.

Definition qPochhammerSymbolThirdDerivative (q : R) (l P : Z) : R :=
  let '(Ct, DS, dDS, ddDS) :=
    for_loop 1 (P + 1)
      (fun n '(Ct, DS, dDS, ddDS) =>
         let tmp := for_loop 1 (n + l + 1)
                      (fun k tmp => tmp + powi q (unsigned_of_int (k - 1))) 0 in
         let Ct := Ct * tmp in
         let '(f, g) :=
           for_loop 2 (n + l + 1)
             (fun k '(f, g) =>
                (f + IZR (k - 1) * powi q (unsigned_of_int (k - 2)),
                 g + powi q (unsigned_of_int (k - 1))))
             (0, 1) in
         let DS := DS + f / g in
         let dg0 := if (1 <? n + l)%Z then 1 else 0 in
         let '(df, dg) :=
           for_loop 3 (n + l + 1)
             (fun k '(df, dg) =>
                (df + IZR ((k - 1) * (k - 2)) * powi q (unsigned_of_int (k - 3)),
                 dg + IZR (k - 1) * powi q (unsigned_of_int (k - 2))))
             (0, dg0) in
         let dDS := dDS + (df * g - f * dg) / g / g in
         let ddg0 := if (2 <? n + l)%Z then 2 else 0 in
         let '(ddf, ddg) :=
           for_loop 4 (n + l + 1)
             (fun k '(ddf, ddg) =>
                (ddf + IZR ((k - 1) * (k - 2) * (k - 3)) * powi q (unsigned_of_int (k - 4)),
                 ddg + IZR ((k - 1) * (k - 2)) * powi q (unsigned_of_int (k - 3))))
             (0, ddg0) in
         let ddDS :=
           ddDS + (ddf * g * g - 2 * df * dg * g + 2 * f * dg * dg - f * ddg * g) / g / g / g in
         (Ct, DS, dDS, ddDS))
      (1, 0, 0, 0) in
  let dCt := Ct * DS in
  let ddCt := dCt * DS + Ct * dDS in
  let dddCt := ddCt * DS + 2 * dCt * dDS + Ct * ddDS in
  let Dt := powi (1 - q) (unsigned_of_int P) in
  let dDt := if (0 <? P)%Z then IZR (- P) * powi (1 - q) (unsigned_of_int (P - 1)) else 0 in
  let ddDt :=
    if (1 <? P)%Z then IZR (P * (P - 1)) * powi (1 - q) (unsigned_of_int (P - 2)) else 0 in
  let dddDt :=
    if (2 <? P)%Z
    then IZR (- P * (P - 1) * (P - 2)) * powi (1 - q) (unsigned_of_int (P - 3))
    else 0 in
  dddCt * Dt + 3 * ddCt * dDt + 3 * dCt * ddDt + Ct * dddDt.

(** The older direct product of [src/src/coulomb.h]:
    [value = 1; temp = pow(q, k); P times: value *= 1 - temp; temp *= q]. *)
Module Old.

Definition qPochhammerSymbol (q : R) (k P : Z) : R :=
  fst (for_loop 0 P
         (fun _ '(value, temp) => (value * (1 - temp), temp * q))
         (1, powerRZ q k)).

End Old.

(** ** Plain *)

Module Plain.

Record t : Type := mk { base : EnergyImplementation }.

Definition short_range_function (_ : t) (_ : R) : R := 1.
Definition short_range_function_derivative (_ : t) (_ : R) : R := 0.
Definition short_range_function_second_derivative (_ : t) (_ : R) : R := 0.
Definition short_range_function_third_derivative (_ : t) (_ : R) : R := 0.

Definition ctor (debye_length : xreal) : t :=
  let e := EnergyImplementation_ctor plain Inf debye_length in
  let e := set_name "plain" e in
  let e := set_doi
    "Premier mémoire sur l’électricité et le magnétisme by Charles-Augustin de Coulomb" e in
  let e := set_self_energy_prefactor (mkarray2 0 0) e in
  let this := mk e in
  mk (set_T0 (short_range_function_derivative this 1 - short_range_function this 1
              + short_range_function this 0) e).

#[global] Instance scheme : SplittingScheme t := {|
  impl := base;
  srf := fun this q => Ret (short_range_function this q);
  dsrf := fun this q => Ret (short_range_function_derivative this q);
  ddsrf := fun this q => Ret (short_range_function_second_derivative this q);
  dddsrf := fun this q => Ret (short_range_function_third_derivative this q)
|}.

End Plain.

(** ** Ewald real-space *)

Module Ewald.

Import Cmath.

Record t : Type := mk {
  base : EnergyImplementation;
  alpha : R;
  alphaRed : R; alphaRed2 : R; alphaRed3 : R;
  eps_sur : xreal;
  kappa : R;
  beta : R; beta2 : R; beta3 : R
}.

Definition short_range_function (this : t) (q : R) : R :=
  0.5 * (erfc (alphaRed this * q + beta this) * exp (4 * alphaRed this * beta this * q)
         + erfc (alphaRed this * q - beta this)).

Definition short_range_function_derivative (this : t) (q : R) : R :=
  let expC := exp (- powi (alphaRed this * q - beta this) 2) in
  let erfcC := erfc (alphaRed this * q + beta this) in
  -2 * alphaRed this / sqrt_pi * expC
  + 2 * alphaRed this * beta this * erfcC * exp (4 * alphaRed this * beta this * q).

Definition short_range_function_second_derivative (this : t) (q : R) : R :=
  let expC := exp (- powi (alphaRed this * q - beta this) 2) in
  let erfcC := erfc (alphaRed this * q + beta this) in
  4 * alphaRed2 this / sqrt_pi * (alphaRed this * q - 2 * beta this) * expC
  + 8 * alphaRed2 this * beta2 this * erfcC * exp (4 * alphaRed this * beta this * q).

Definition short_range_function_third_derivative (this : t) (q : R) : R :=
  let expC := exp (- powi (alphaRed this * q - beta this) 2) in
  let erfcC := erfc (alphaRed this * q + beta this) in
  4 * alphaRed3 this / sqrt_pi
    * (1 - 2 * (alphaRed this * q - 2 * beta this) * (alphaRed this * q - beta this)
       - 4 * beta2 this) * expC
  + 32 * alphaRed3 this * beta3 this * erfcC * exp (4 * alphaRed this * beta this * q).

(** The base is built with the default Debye length: only [cutoff] is passed
    on to [EnergyImplementation].  Inside the body [eps_sur] names the
    constructor parameter, so the member keeps the value it was given. *)
Definition ctor (cutoff alpha : R) (eps_sur debye_length : xreal) : t :=
  let e := EnergyImplementation_ctor ewald (Fin cutoff) Inf in
  let e := set_name "Ewald real-space" e in
  let alphaRed := alpha * cutoff in
  let alphaRed2 := alphaRed * alphaRed in
  let alphaRed3 := alphaRed2 * alphaRed in
  let eps_par :=
    match eps_sur with
    | Fin v => if Rlt_dec v 1 then Inf else Fin v
    | Inf => Inf
    end in
  let T0 :=
    match eps_par with
    | Inf => 1
    | Fin v => 2 * (v - 1) / (2 * v + 1)
    end in
  let e := set_T0 T0 e in
  let kappa := xinv debye_length in
  let beta := kappa / (2 * alpha) in
  let beta2 := beta * beta in
  let beta3 := beta2 * beta in
  let e := set_self_energy_prefactor
    (mkarray2
       (- alphaRed / sqrt_pi * (exp (- beta2) + sqrt_pi * beta * erf beta))
       (- alphaRed3 * 2 / 3 / sqrt_pi
        * (2 * sqrt_pi * beta3 * erfc beta + (1 - 2 * beta2) * exp (- beta2))))
    e in
  mk e alpha alphaRed alphaRed2 alphaRed3 eps_sur kappa beta beta2 beta3.

#[global] Instance scheme : SplittingScheme t := {|
  impl := base;
  srf := fun this q => Ret (short_range_function this q);
  dsrf := fun this q => Ret (short_range_function_derivative this q);
  ddsrf := fun this q => Ret (short_range_function_second_derivative this q);
  dddsrf := fun this q => Ret (short_range_function_third_derivative this q)
|}.

End Ewald.

(** ** Wolf *)

Module Wolf.

Import Cmath.

Record t : Type := mk {
  base : EnergyImplementation;
  alpha : R;
  alphaRed : R; alphaRed2 : R
}.

Definition pi_sqrt : R := sqrt_pi.

Definition short_range_function (this : t) (q : R) : R :=
  erfc (alphaRed this * q) - q * erfc (alphaRed this).

Definition short_range_function_derivative (this : t) (q : R) : R :=
  -2 * exp (- alphaRed2 this * q * q) * alphaRed this / pi_sqrt - erfc (alphaRed this).

Definition short_range_function_second_derivative (this : t) (q : R) : R :=
  4 * exp (- alphaRed2 this * q * q) * alphaRed2 this * alphaRed this * q / pi_sqrt.

Definition short_range_function_third_derivative (this : t) (q : R) : R :=
  -8 * exp (- alphaRed2 this * q * q) * alphaRed2 this * alphaRed this
  * (alphaRed2 this * q * q - 0.5) / pi_sqrt.

Definition ctor (cutoff alpha : R) : t :=
  let e := EnergyImplementation_ctor wolf (Fin cutoff) Inf in
  let e := set_name "Wolf" e in
  let alphaRed := alpha * cutoff in
  let alphaRed2 := alphaRed * alphaRed in
  let e := set_self_energy_prefactor
    (mkarray2 (- alphaRed / pi_sqrt) (- powi alphaRed 3 * 2 / 3 / pi_sqrt)) e in
  let this := mk e alpha alphaRed alphaRed2 in
  mk (set_T0 (short_range_function_derivative this 1 - short_range_function this 1
              + short_range_function this 0) e)
     alpha alphaRed alphaRed2.

#[global] Instance scheme : SplittingScheme t := {|
  impl := base;
  srf := fun this q => Ret (short_range_function this q);
  dsrf := fun this q => Ret (short_range_function_derivative this q);
  ddsrf := fun this q => Ret (short_range_function_second_derivative this q);
  dddsrf := fun this q => Ret (short_range_function_third_derivative this q)
|}.

End Wolf.

(** ** qPotential *)

Module qPotential.

Record t : Type := mk {
  base : EnergyImplementation;
  order : Z
}.

Definition short_range_function (this : t) (q : R) : R :=
  qPochhammerSymbol q 0 (order this).
Definition short_range_function_derivative (this : t) (q : R) : R :=
  qPochhammerSymbolDerivative q 0 (order this).
Definition short_range_function_second_derivative (this : t) (q : R) : R :=
  qPochhammerSymbolSecondDerivative q 0 (order this).
Definition short_range_function_third_derivative (this : t) (q : R) : R :=
  qPochhammerSymbolThirdDerivative q 0 (order this).

Definition ctor (cutoff : R) (order : Z) : t :=
  let e := EnergyImplementation_ctor qpotential (Fin cutoff) Inf in
  let e := set_name "qpotential" e in
  let e := set_self_energy_prefactor (mkarray2 (-1) (-1)) e in
  let this := mk e order in
  mk (set_T0 (short_range_function_derivative this 1 - short_range_function this 1
              + short_range_function this 0) e)
     order.

#[global] Instance scheme : SplittingScheme t := {|
  impl := base;
  srf := fun this q => Ret (short_range_function this q);
  dsrf := fun this q => Ret (short_range_function_derivative this q);
  ddsrf := fun this q => Ret (short_range_function_second_derivative this q);
  dddsrf := fun this q => Ret (short_range_function_third_derivative this q)
|}.

End qPotential.

(** ** Poisson family *)

Definition poisson_invalid : exn :=
  runtime_error
    "`C` must be larger than zero and `D` must be larger or equal to negative one".

(** The constructors' guard [(C < 1) || (D < -1)]. *)
Definition poisson_guard_rejects (C D : Z) : bool := ((C <? 1) || (D <? -1))%Z.

Module PoissonSimple.

Record t : Type := mk {
  base : EnergyImplementation;
  C : Z;
  D : Z
}.

Definition short_range_function (this : t) (q : R) : outcome R :=
  tmp <- for_loopM 0 (C this)
           (fun c tmp =>
              b <- binomial (unsigned_of_int (D this - 1 + c)) (unsigned_of_int c) ;;
              Ret (tmp + IZR b * IZR (C this - c) / IZR (C this)
                         * powi q (unsigned_of_int c)))
           0 ;;
  Ret (powi (1 - q) (unsigned_of_int (D this + 1)) * tmp).

Definition short_range_function_derivative (this : t) (q : R) : outcome R :=
  tmp <- for_loopM 1 (C this)
           (fun c '(tmp1, tmp2) =>
              b1 <- binomial (unsigned_of_int (D this - 1 + c)) (unsigned_of_int c) ;;
              b2 <- binomial (unsigned_of_int (D this - 1 + c)) (unsigned_of_int c) ;;
              Ret (tmp1 + IZR b1 * IZR (C this - c) / IZR (C this)
                          * powi q (unsigned_of_int c),
                   tmp2 + IZR b2 * IZR (C this - c) / IZR (C this) * IZR c
                          * powi q (unsigned_of_int (c - 1))))
           (1, 0) ;;
  let '(tmp1, tmp2) := tmp in
  Ret (- IZR (D this + 1) * powi (1 - q) (unsigned_of_int (D this)) * tmp1
       + powi (1 - q) (unsigned_of_int (D this + 1)) * tmp2).

Definition short_range_function_second_derivative (this : t) (q : R) : outcome R :=
  b <- binomial (unsigned_of_int (C this + D this)) (unsigned_of_int (C this)) ;;
  Ret (IZR ((b * unsigned_of_int (D this)) mod two32)
       * powi (1 - q) (unsigned_of_int (D this - 1))
       * powi q (unsigned_of_int (C this - 1))).

Definition short_range_function_third_derivative (this : t) (q : R) : outcome R :=
  b <- binomial (unsigned_of_int (C this + D this)) (unsigned_of_int (C this)) ;;
  Ret (IZR ((b * unsigned_of_int (D this)) mod two32)
       * powi (1 - q) (unsigned_of_int (D this - 2))
       * powi q (unsigned_of_int (C this - 2))
       * ((2 - IZR (C this + D this)) * q + IZR (C this) - 1)).

Definition ctor (cutoff : R) (C D : Z) : outcome t :=
  let e := EnergyImplementation_ctor poisson (Fin cutoff) Inf in
  if poisson_guard_rejects C D then Raise poisson_invalid
  else
    let e := set_name "poisson" e in
    let e := set_doi "10.1088/1367-2630/ab1ec1" e in
    let a1 := - IZR (C + D) / IZR C in
    let e := set_self_energy_prefactor (mkarray2 a1 a1) e in
    let this := mk e C D in
    d1 <- short_range_function_derivative this 1 ;;
    s1 <- short_range_function this 1 ;;
    s0 <- short_range_function this 0 ;;
    Ret (mk (set_T0 (d1 - s1 + s0) e) C D).

#[global] Instance scheme : SplittingScheme t := {|
  impl := base;
  srf := short_range_function;
  dsrf := short_range_function_derivative;
  ddsrf := short_range_function_second_derivative;
  dddsrf := short_range_function_third_derivative
|}.

End PoissonSimple.

Module Poisson.

Record t : Type := mk {
  base : EnergyImplementation;
  C : Z;
  D : Z;
  kappaRed : R; kappaRed2 : R;
  yukawa_denom : R; binomCDC : R;
  yukawa : bool
}.

Definition short_range_function (this : t) (q : R) : outcome R :=
  let qp :=
    if yukawa this then (1 - exp (2 * kappaRed this * q)) * yukawa_denom this else q in
  tmp <- for_loopM 0 (C this)
           (fun c tmp =>
              b <- binomial (unsigned_of_int (D this - 1 + c)) (unsigned_of_int c) ;;
              Ret (tmp + IZR b * IZR (C this - c) / IZR (C this)
                         * powi qp (unsigned_of_int c)))
           0 ;;
  Ret (powi (1 - qp) (unsigned_of_int (D this + 1)) * tmp).

Definition short_range_function_derivative (this : t) (q : R) : outcome R :=
  let '(qp, dqpdq) :=
    if yukawa this then
      let exp2kq := exp (2 * kappaRed this * q) in
      ((1 - exp2kq) * yukawa_denom this, -2 * kappaRed this * exp2kq * yukawa_denom this)
    else (q, 1) in
  tmp <- for_loopM 1 (C this)
           (fun c '(tmp1, tmp2) =>
              b <- binomial (unsigned_of_int (D this - 1 + c)) (unsigned_of_int c) ;;
              let _fact := IZR b * IZR (C this - c) / IZR (C this) in
              Ret (tmp1 + _fact * powi qp (unsigned_of_int c),
                   tmp2 + _fact * IZR c * powi qp (unsigned_of_int (c - 1))))
           (1, 0) ;;
  let '(tmp1, tmp2) := tmp in
  let dSdqp := - IZR (D this + 1) * powi (1 - qp) (unsigned_of_int (D this)) * tmp1
               + powi (1 - qp) (unsigned_of_int (D this + 1)) * tmp2 in
  Ret (dSdqp * dqpdq).

(** The block the second and third derivative run when [yukawa] holds:
    [tmp1], [tmp2] by the loop (two calls of [binomial] per round), then
    [dSdqp]. *)
Definition yukawa_dSdqp (this : t) (qp : R) : outcome R :=
  tmp <- for_loopM 1 (C this)
           (fun c '(tmp1, tmp2) =>
              b1 <- binomial (unsigned_of_int (D this - 1 + c)) (unsigned_of_int c) ;;
              b2 <- binomial (unsigned_of_int (D this - 1 + c)) (unsigned_of_int c) ;;
              Ret (tmp1 + IZR b1 * IZR (C this - c) / IZR (C this)
                          * powi qp (unsigned_of_int c),
                   tmp2 + IZR b2 * IZR (C this - c) / IZR (C this) * IZR c
                          * powi qp (unsigned_of_int (c - 1))))
           (1, 0) ;;
  let '(tmp1, tmp2) := tmp in
  Ret (- IZR (D this + 1) * powi (1 - qp) (unsigned_of_int (D this)) * tmp1
       + powi (1 - qp) (unsigned_of_int (D this + 1)) * tmp2).

Definition short_range_function_second_derivative (this : t) (q : R) : outcome R :=
  st <- (if yukawa this then
           let qp := (1 - exp (2 * kappaRed this * q)) * yukawa_denom this in
           let dqpdq := -2 * kappaRed this * exp (2 * kappaRed this * q) * yukawa_denom this in
           let d2qpdq2 :=
             -4 * kappaRed2 this * exp (2 * kappaRed this * q) * yukawa_denom this in
           dSdqp <- yukawa_dSdqp this qp ;;
           Ret (qp, dqpdq, d2qpdq2, dSdqp)
         else Ret (q, 1, 0, 0)) ;;
  let '(qp, dqpdq, d2qpdq2, dSdqp) := st in
  let d2Sdqp2 := binomCDC this * powi (1 - qp) (unsigned_of_int (D this - 1))
                 * powi qp (unsigned_of_int (C this - 1)) in
  Ret (d2Sdqp2 * dqpdq * dqpdq + dSdqp * d2qpdq2).

Definition short_range_function_third_derivative (this : t) (q : R) : outcome R :=
  st <- (if yukawa this then
           let qp := (1 - exp (2 * kappaRed this * q)) * yukawa_denom this in
           let dqpdq := -2 * kappaRed this * exp (2 * kappaRed this * q) * yukawa_denom this in
           let d2qpdq2 :=
             -4 * kappaRed2 this * exp (2 * kappaRed this * q) * yukawa_denom this in
           let d3qpdq3 :=
             -8 * kappaRed2 this * kappaRed this * exp (2 * kappaRed this * q)
             * yukawa_denom this in
           let d2Sdqp2 := binomCDC this * powi (1 - qp) (unsigned_of_int (D this - 1))
                          * powi qp (unsigned_of_int (C this - 1)) in
           dSdqp <- yukawa_dSdqp this qp ;;
           Ret (qp, dqpdq, d2qpdq2, d3qpdq3, d2Sdqp2, dSdqp)
         else Ret (q, 1, 0, 0, 0, 0)) ;;
  let '(qp, dqpdq, d2qpdq2, d3qpdq3, d2Sdqp2, dSdqp) := st in
  let d3Sdqp3 :=
    binomCDC this * powi (1 - qp) (unsigned_of_int (D this - 2))
    * powi qp (unsigned_of_int (C this - 2))
    * ((2 - IZR (C this + D this)) * qp + IZR (C this) - 1) in
  Ret (d3Sdqp3 * dqpdq * dqpdq * dqpdq + 3 * d2Sdqp2 * dqpdq * d2qpdq2 + dSdqp * d3qpdq3).

(** [kappaRed2] and [yukawa_denom] are assigned only when [yukawa] becomes
    true and are read only then; they are 0 here otherwise. *)
Definition ctor (cutoff : R) (C D : Z) (debye_length : xreal) : outcome t :=
  let e := EnergyImplementation_ctor poisson (Fin cutoff) debye_length in
  if poisson_guard_rejects C D then Raise poisson_invalid
  else
    let e := set_name "poisson" e in
    let e := set_doi "10.1088/1367-2630/ab1ec1" e in
    let a1 := - IZR (C + D) / IZR C in
    let kappaRed := xdiv cutoff debye_length in
    let yukawa := Rltb (1 / 1000000) (Rabs kappaRed) in
    let kappaRed2 := if yukawa then kappaRed * kappaRed else 0 in
    let yukawa_denom := if yukawa then 1 / (1 - exp (2 * kappaRed)) else 0 in
    let a1 := if yukawa then a1 * (-2 * kappaRed * yukawa_denom) else a1 in
    b <- binomial (unsigned_of_int (C + D)) (unsigned_of_int C) ;;
    let binomCDC := IZR ((b * unsigned_of_int D) mod two32) in
    let e := set_self_energy_prefactor (mkarray2 a1 a1) e in
    let this := mk e C D kappaRed kappaRed2 yukawa_denom binomCDC yukawa in
    d1 <- short_range_function_derivative this 1 ;;
    s1 <- short_range_function this 1 ;;
    s0 <- short_range_function this 0 ;;
    Ret (mk (set_T0 (d1 - s1 + s0) e) C D kappaRed kappaRed2 yukawa_denom binomCDC yukawa).

#[global] Instance scheme : SplittingScheme t := {|
  impl := base;
  srf := short_range_function;
  dsrf := short_range_function_derivative;
  ddsrf := short_range_function_second_derivative;
  dddsrf := short_range_function_third_derivative
|}.

End Poisson.

(** ** Fanourgakis *)

Module Fanourgakis.

Record t : Type := mk { base : EnergyImplementation }.

Definition short_range_function (_ : t) (q : R) : R :=
  powi (1 - q) 4 * (1 + 2.25 * q + 3 * q * q + 2.5 * q * q * q).
Definition short_range_function_derivative (_ : t) (q : R) : R :=
  -1.75 + 26.25 * powi q 4 - 42 * powi q 5 + 17.5 * powi q 6.
Definition short_range_function_second_derivative (_ : t) (q : R) : R :=
  105 * powi q 3 * powi (q - 1) 2.
Definition short_range_function_third_derivative (_ : t) (q : R) : R :=
  525 * powi q 2 * (q - 0.6) * (q - 1).

Definition ctor (cutoff : R) : t :=
  let e := EnergyImplementation_ctor qpotential (Fin cutoff) Inf in
  let e := set_name "fanourgakis" e in
  let e := set_doi "10.1063/1.3216520" e in
  let e := set_self_energy_prefactor (mkarray2 (-1) (-1)) e in
  let this := mk e in
  mk (set_T0 (short_range_function_derivative this 1 - short_range_function this 1
              + short_range_function this 0) e).

#[global] Instance scheme : SplittingScheme t := {|
  impl := base;
  srf := fun this q => Ret (short_range_function this q);
  dsrf := fun this q => Ret (short_range_function_derivative this q);
  ddsrf := fun this q => Ret (short_range_function_second_derivative this q);
  dddsrf := fun this q => Ret (short_range_function_third_derivative this q)
|}.

End Fanourgakis.

(** ** Notions used in the statements *)

Definition cutoff_nonneg (c : xreal) : Prop :=
  match c with
  | Fin v => 0 <= v
  | Inf => True
  end.

(** What [EnergyImplementation]'s constructor establishes and no later
    assignment of a derived constructor disturbs. *)
Definition engine_built (e : EnergyImplementation) : Prop :=
  invcutoff e = xinv (cutoff (sbase e)) /\ cutoff2 e = xsqr (cutoff (sbase e)).

(** The scalar bracket [s(q) (1 + kappa r) - q s'(q)] at distance [r1]. *)
Definition screened_bracket {T : Type} `{SplittingScheme T} (this : T) (r1 : R)
  : outcome R :=
  let q := r1 * invcutoff (impl this) in
  s <- srf this q ;;
  d <- dsrf this q ;;
  Ret (s * (1 + kappa (impl this) * r1) - q * d).

(** The product the specification writes:
    [prod_{n=1}^{P} (1 - q^l * q^(n-1))]. *)
Definition qPochhammer_product_spec (q : R) (l P : Z) : R :=
  for_loop 1 (P + 1)
    (fun n acc => acc * (1 - q ^ Z.to_nat l * q ^ Z.to_nat (n - 1))) 1.

(** The reformulated form: [(1-q)^P * prod_{n=1}^{P} sum_{k=1}^{n+l} q^(k-1)]. *)
Fixpoint geometric_sum (q : R) (m : nat) : R :=
  match m with
  | O => 0
  | S m' => geometric_sum q m' + q ^ m'
  end.

Definition qPochhammer_reformulated_spec (q : R) (l P : Z) : R :=
  (1 - q) ^ Z.to_nat P
  * for_loop 1 (P + 1) (fun n acc => acc * geometric_sum q (Z.to_nat (n + l))) 1.

(** Decides that no factorial below [n] is a multiple of [2^32]. *)
Definition factorial_nonzero_upto (n : nat) : bool :=
  forallb (fun i => negb (factorial (Z.of_nat i) =? 0)%Z) (seq 0 n).

(** Polynomials by their coefficients (lowest degree first), evaluated by
    Horner's rule, and the value of the formal derivative. *)
Fixpoint peval (cs : list R) (x : R) : R :=
  match cs with
  | [] => 0
  | c :: cs' => c + x * peval cs' x
  end.

Fixpoint pderiv (cs : list R) (x : R) : R :=
  match cs with
  | [] => 0
  | _ :: cs' => peval cs' x + x * pderiv cs' x
  end.

(** The derivative of [geometric_sum]: [sum_{i < m} i * q^(i-1)]. *)
Fixpoint geometric_sum_derivative (q : R) (m : nat) : R :=
  match m with
  | O => 0
  | S m' => geometric_sum_derivative q m' + INR m' * q ^ pred m'
  end.

(** ** The older interface of [src/src/coulomb.h]

    [SchemeBase] with one scalar self-energy prefactor and a virtual
    [splitting_function]; [PairPotential<Tscheme>] on top of it. *)

(** Conversion of a [double] to [int]: truncation toward zero, undefined
    when the result is not representable. *)
Definition int_of_double (x : R) : outcome Z :=
  let t := if Rle_dec 0 x then Int_part x else (- Int_part (- x))%Z in
  if ((-2147483648 <=? t) && (t <=? 2147483647))%Z then Ret t else Undef.

Module OldCoulomb.

Inductive TruncationScheme : Type :=
| plain | ewald | wolf | poisson | qpotential.

Record SchemeBase : Type := mkSchemeBase {
  doi : string;
  name : string;
  scheme : TruncationScheme;
  cutoff : xreal;
  self_energy_prefactor : R
}.

Definition SchemeBase_ctor (s : TruncationScheme) (c : xreal) : SchemeBase :=
  mkSchemeBase EmptyString EmptyString s c 0.

(** A scheme derived from [SchemeBase] overrides [splitting_function]. *)
Class Tscheme (T : Type) : Type := {
  sbase : T -> SchemeBase;
  splitting_function : T -> R -> outcome R
}.

Record PairPotential (T : Type) : Type := mkPairPotential {
  obj : T;
  invcutoff : R
}.

Arguments mkPairPotential {T} obj invcutoff.
Arguments obj {T} p.
Arguments invcutoff {T} p.

Section Pair.

Context {T : Type} `{Tscheme T}.

(** [PairPotential(args...) : Tscheme(args...) { invcutoff = 1.0 / cutoff; }] *)
Definition PairPotential_ctor (t : T) : PairPotential T :=
  mkPairPotential t (xinv (cutoff (sbase t))).

Definition ion_ion (pot : PairPotential T) (zz r : R) : outcome R :=
  if xlt r (cutoff (sbase (obj pot))) then
    s <- splitting_function (obj pot) (r * invcutoff pot) ;;
    Ret (zz / r * s)
  else Ret 0.

Definition self_energy (pot : PairPotential T) (zz mumu : R) : R :=
  self_energy_prefactor (sbase (obj pot)) * invcutoff pot
  * (zz + mumu * invcutoff pot * invcutoff pot).

End Pair.

Module Plain.

Record t : Type := mk { base : SchemeBase }.

Definition ctor : t := mk (SchemeBase_ctor plain Inf).

#[global] Instance scheme : Tscheme t := {|
  sbase := base;
  splitting_function := fun _ _ => Ret 1
|}.

End Plain.

Module qPotential.

Record t : Type := mk { base : SchemeBase; order : R }.

Definition ctor (cutoff order : R) : t :=
  let b := SchemeBase_ctor qpotential (Fin cutoff) in
  mk (mkSchemeBase (doi b) "qpotential" (scheme b) (OldCoulomb.cutoff b) (-1)) order.

(** [qPochhammerSymbol(q, 1, order)]: the [double] member [order] is
    converted to the [int] parameter [P]. *)
#[global] Instance scheme : Tscheme t := {|
  sbase := base;
  splitting_function := fun this q =>
    P <- int_of_double (order this) ;; Ret (Old.qPochhammerSymbol q 1 P)
|}.

End qPotential.

End OldCoulomb.

(** The factorial and the binomial coefficient (by Pascal's rule) as exact
    integers, to compare [factorial] and [binomial] with. *)
Fixpoint exact_factorial (n : nat) : Z :=
  match n with
  | O => 1%Z
  | S m => (Z.of_nat (S m) * exact_factorial m)%Z
  end.

Fixpoint pascal (n k : nat) : Z :=
  match n, k with
  | _, O => 1%Z
  | O, S _ => 0%Z
  | S n', S k' => (pascal n' k' + pascal n' (S k'))%Z
  end.

(** Decides that [binomial] is Pascal's entry on all rows up to [n]. *)
Definition binomial_exact_upto (n : nat) : bool :=
  forallb (fun i =>
    forallb (fun k =>
      match binomial (Z.of_nat i) (Z.of_nat k) with
      | Ret v => (v =? pascal i k)%Z
      | _ => false
      end) (seq 0 (S i))) (seq 0 (S n)).

Definition factorial_exact_upto (n : nat) : bool :=
  forallb (fun i => (factorial (Z.of_nat i) =? exact_factorial i)%Z) (seq 0 (S n)).

(** ** Polynomials with integer coefficients

    Lists of coefficients, lowest degree first; used to compare the closed
    forms of the Poisson derivatives with the derivative of the polynomial
    the splitting function is. *)

Definition pevalZ (p : list Z) (x : R) : R := peval (map IZR p) x.

Fixpoint padd (p q : list Z) : list Z :=
  match p, q with
  | [], _ => q
  | _, [] => p
  | a :: p', b :: q' => (a + b)%Z :: padd p' q'
  end.

Definition pscale (k : Z) (p : list Z) : list Z := map (Z.mul k) p.

Fixpoint pmul (p q : list Z) : list Z :=
  match p with
  | [] => []
  | a :: p' => padd (pscale a q) (0%Z :: pmul p' q)
  end.

Fixpoint ppow (p : list Z) (n : nat) : list Z :=
  match n with
  | O => [1%Z]
  | S n' => pmul p (ppow p n')
  end.

Fixpoint pderiv_from (k : Z) (p : list Z) : list Z :=
  match p with
  | [] => []
  | a :: p' => (k * a)%Z :: pderiv_from (k + 1) p'
  end.

(** The formal derivative. *)
Definition pderivl (p : list Z) : list Z :=
  match p with
  | [] => []
  | _ :: p' => pderiv_from 1 p'
  end.

(** Equality up to trailing zeros. *)
Fixpoint peqb (p q : list Z) : bool :=
  match p, q with
  | [], _ => forallb (Z.eqb 0) q
  | _, [] => forallb (Z.eqb 0) p
  | a :: p', b :: q' => (a =? b)%Z && peqb p' q'
  end.

(** The Poisson polynomials for [C], [D] (as naturals), scaled by [C]
    where the code divides by it:
    [tmpl]: [sum_c binomial(D-1+c, c) (C-c) q^c];
    [dtmpl]: [sum_c binomial(D-1+c, c) (C-c) c q^(c-1)]. *)
Definition tmpl (C D : nat) : list Z :=
  map (fun c => (pascal (D - 1 + c) c * Z.of_nat (C - c))%Z) (seq 0 C).

Definition dtmpl (C D : nat) : list Z :=
  map (fun c => (pascal (D - 1 + c) c * Z.of_nat (C - c) * Z.of_nat c)%Z) (seq 1 (C - 1)).

Definition one_minus_X : list Z := [1; -1]%Z.
Definition poly_X : list Z := [0; 1]%Z.

(** [C * s], [C * s'], [s''], [s'''] as the code writes them. *)
Definition poisson_s_poly (C D : nat) : list Z :=
  pmul (ppow one_minus_X (D + 1)) (tmpl C D).

Definition poisson_ds_poly (C D : nat) : list Z :=
  padd (pscale (- Z.of_nat (D + 1)) (pmul (ppow one_minus_X D) (tmpl C D)))
       (pmul (ppow one_minus_X (D + 1)) (dtmpl C D)).

Definition poisson_dds_poly (C D : nat) : list Z :=
  pscale (pascal (C + D) C * Z.of_nat D)
         (pmul (ppow one_minus_X (D - 1)) (ppow poly_X (C - 1))).

Definition poisson_ddds_poly (C D : nat) : list Z :=
  pscale (pascal (C + D) C * Z.of_nat D)
         (pmul (pmul (ppow one_minus_X (D - 2)) (ppow poly_X (C - 2)))
               [(Z.of_nat C - 1)%Z; (2 - Z.of_nat (C + D))%Z]).

(** Decides, for all [C, D >= 1] with [C + D <= n], that the closed forms
    are the formal derivatives of one another. *)
Definition poisson_chain_check (n : nat) : bool :=
  forallb (fun C =>
    forallb (fun D =>
      if (C + D <=? n)%nat then
        peqb (pderivl (poisson_s_poly C D)) (poisson_ds_poly C D)
        && peqb (pderivl (poisson_ds_poly C D)) (pscale (Z.of_nat C) (poisson_dds_poly C D))
        && (if ((2 <=? C) && (2 <=? D))%nat
            then peqb (pderivl (poisson_dds_poly C D)) (poisson_ddds_poly C D)
            else true)
      else true) (seq 1 n)) (seq 1 n).

(** The number a computation returns (0 where it returns none), to speak of
    the derivative of a potential as a function of the distance. *)
Definition returned (m : outcome R) : R :=
  match m with
  | Ret v => v
  | _ => 0
  end.

(** Second and third derivative of [geometric_sum]. *)
Fixpoint geometric_sum_derivative2 (q : R) (m : nat) : R :=
  match m with
  | O => 0
  | S m' => geometric_sum_derivative2 q m' + INR m' * (INR (pred m') * q ^ pred (pred m'))
  end.

Fixpoint geometric_sum_derivative3 (q : R) (m : nat) : R :=
  match m with
  | O => 0
  | S m' =>
      geometric_sum_derivative3 q m'
      + INR m' * (INR (pred m') * (INR (pred (pred m')) * q ^ pred (pred (pred m'))))
  end.

(** The factors of the q-Pochhammer symbol and of its derivatives:
    [gprod = prod_n g_n], [gsum1 = sum_n g_n'/g_n] and the first and second
    derivative of [gsum1], where [g_n] is the geometric sum of [n + l]
    terms. *)
Definition gprod (q : R) (l P : Z) : R :=
  for_loop 1 (P + 1) (fun n acc => acc * geometric_sum q (Z.to_nat (n + l))) 1.

Definition gsum1 (q : R) (l P : Z) : R :=
  for_loop 1 (P + 1)
    (fun n acc =>
       let m := Z.to_nat (n + l) in
       acc + geometric_sum_derivative q m / geometric_sum q m) 0.

Definition gsum2 (q : R) (l P : Z) : R :=
  for_loop 1 (P + 1)
    (fun n acc =>
       let m := Z.to_nat (n + l) in
       let g := geometric_sum q m in
       let g1 := geometric_sum_derivative q m in
       let g2 := geometric_sum_derivative2 q m in
       acc + (g2 * g - g1 * g1) / g / g) 0.

Definition gsum3 (q : R) (l P : Z) : R :=
  for_loop 1 (P + 1)
    (fun n acc =>
       let m := Z.to_nat (n + l) in
       let g := geometric_sum q m in
       let g1 := geometric_sum_derivative q m in
       let g2 := geometric_sum_derivative2 q m in
       let g3 := geometric_sum_derivative3 q m in
       acc + (g3 * g * g - 2 * g2 * g1 * g + 2 * g1 * g1 * g1 - g1 * g2 * g) / g / g / g) 0.

(** A Debye length the code can divide by: infinite, or finite and not 0. *)
Definition nonzero_length (d : xreal) : Prop :=
  match d with
  | Fin v => v <> 0
  | Inf => True
  end.

(** A braced list of initialisers given for the [std::array<double, 2>]
    parameter of [self_energy] (aggregate initialisation): with fewer than
    two initialisers the remaining elements are value-initialised to [0.0];
    with more than two the call is ill-formed and there is no program to
    run ([None]). *)
Definition array2_of_braces (l : list R) : option array2 :=
  match l with
  | [] => Some (mkarray2 0 0)
  | [a] => Some (mkarray2 a 0)
  | [a; b] => Some (mkarray2 a b)
  | _ => None
  end.

(** ** The range of [double]

    Arithmetic on [R] follows the program only while no intermediate result
    leaves the range of normal binary64 numbers.  [DBL_MAX] is the largest
    finite double, [(2^53 - 1) * 2^971]; [DBL_MIN] the smallest positive
    normal one, [2^-1022].  The q-Pochhammer functions multiply
    [Ct = prod_n sum_k q^k], which grows like a factorial, by
    [Dt = (1 - q)^P], which can underflow. *)
Definition DBL_MAX : R := IZR ((2 ^ 53 - 1) * 2 ^ 971).
Definition DBL_MIN : R := / 2 ^ 1022.

(** [Dt] is 0 exactly (at [q = 1]) or a normal double. *)
Definition Dt_normal (q : R) (P : Z) : Prop :=
  q = 1 \/ DBL_MIN <= (1 - q) ^ Z.to_nat P.

(** ** The same code over IEEE-754 binary64

    Where rounding or overflow decides what the program returns (the
    comparison of squared lengths at the cutoff, a product beyond
    [DBL_MAX]), the functions concerned are embedded a second time with
    [double] as a binary64 number: every operation is rounded to nearest,
    ties to even, and a decimal literal denotes the nearest double, as in
    the compiled program.  [powi] is again the portable branch; it is
    evaluated below where the order of the multiplications does not change
    the power (exponents 0, 1 and 2, the bases 0, 0.5 and 1), or changes
    its last bits only while an overflow or underflow by many orders of
    magnitude decides the outcome.  [std::exp] is given only where the C
    standard fixes its value. *)

Set Warnings "-inexact-float".

Module Binary64.

Import PrimFloat.
Local Open Scope float_scope.

(** Conversion of an [int] to [double]; exact, an [int] has at most 31
    significant bits. *)
Fixpoint double_of_positive (p : positive) : float :=
  match p with
  | xH => 1
  | xO p' => 2 * double_of_positive p'
  | xI p' => 2 * double_of_positive p' + 1
  end.

Definition double_of_int (z : Z) : float :=
  match z with
  | Z0 => 0
  | Zpos p => double_of_positive p
  | Zneg p => - double_of_positive p
  end.

(** [n > 0 ? x * powi(x, n - 1) : 1]. *)
Fixpoint powi_rec (x : float) (n : nat) : float :=
  match n with
  | O => 1
  | S n' => x * powi_rec x n'
  end.

Definition powi (x : float) (n : Z) : float := powi_rec x (Z.to_nat n).

(** [std::exp]: [exp(+-0) = 1], [exp(-inf) = +0], [exp(+inf) = +inf] and a
    NaN for a NaN; elsewhere the value depends on the rounding of the
    mathematical library and is left open ([None]). *)
Definition exp (x : float) : option float :=
  if x =? 0 then Some 1
  else if x =? neg_infinity then Some 0
  else if x =? infinity then Some infinity
  else if is_nan x then Some nan
  else None.

Record vec3 : Type := mkvec3 { vx : float; vy : float; vz : float }.

Definition dot (a b : vec3) : float := vx a * vx b + vy a * vy b + vz a * vz b.
Definition squaredNorm (a : vec3) : float := dot a a.
Definition norm (a : vec3) : float := sqrt (squaredNorm a).

Record SchemeBase : Type := mkSchemeBase {
  doi : string;
  name : string;
  scheme : Scheme;
  cutoff : float;
  debye_length : float;
  T0 : float;
  self_energy_prefactor : float * float
}.

Record EnergyImplementation : Type := mkEnergyImplementation {
  sbase : SchemeBase;
  invcutoff : float;
  cutoff2 : float;
  kappa : float
}.

(** [invcutoff = 1.0 / cutoff; cutoff2 = cutoff * cutoff;
    kappa = 1.0 / debye_length;] the members the base constructor leaves
    unset are given 0 until the derived constructor assigns them. *)
Definition EnergyImplementation_ctor (type : Scheme) (c d : float) : EnergyImplementation :=
  mkEnergyImplementation (mkSchemeBase EmptyString EmptyString type c d 0 (0, 0))
    (1 / c) (c * c) (1 / d).

Section Engine.

Variable e : EnergyImplementation.
Variables srf dsrf : float -> float.

Definition ion_potential (z r : float) : option float :=
  if r <? cutoff (sbase e) then
    let q := r * invcutoff e in
    option_map (fun x => z / r * srf q * x) (exp (- kappa e * r))
  else Some 0.

Definition dipole_potential (mu r : vec3) : option float :=
  let r2 := squaredNorm r in
  if r2 <? cutoff2 e then
    let r1 := sqrt r2 in
    let q := r1 * invcutoff e in
    option_map
      (fun x => dot mu r / r2 / r1 * (srf q * (1 + kappa e * r1) - q * dsrf q) * x)
      (exp (- kappa e * r1))
  else Some 0.

End Engine.

Definition qPochhammerSymbol (q : float) (l P : Z) : float :=
  let Ct :=
    for_loop 1 (P + 1)
      (fun n Ct =>
         let val := for_loop 1 (n + l + 1)
                      (fun k val => val + powi q (unsigned_of_int (k - 1))) 0 in
         Ct * val)
      1 in
  let Dt := powi (1 - q) (unsigned_of_int P) in
  Ct * Dt.

Definition qPochhammerSymbolDerivative (q : float) (l P : Z) : float :=
  let Ct :=
    for_loop 1 (P + 1)
      (fun n Ct =>
         let val := for_loop 1 (n + l + 1)
                      (fun k val => val + powi q (unsigned_of_int (k - 1))) 0 in
         Ct * val)
      1 in
  let dCt :=
    for_loop 1 (P + 1)
      (fun n dCt =>
         let '(nom, denom) :=
           for_loop 2 (n + l + 1)
             (fun k '(nom, denom) =>
                (nom + double_of_int (k - 1) * powi q (unsigned_of_int (k - 2)),
                 denom + powi q (unsigned_of_int (k - 1))))
             (0, 1) in
         dCt + nom / denom)
      0 in
  let dCt := dCt * Ct in
  let Dt := powi (1 - q) (unsigned_of_int P) in
  let dDt :=
    if (0 <? P)%Z
    then double_of_int (- P) * powi (1 - q) (unsigned_of_int (P - 1))
    else 0 in
  Ct * dDt + dCt * Dt.

Module qPotential.

Record t : Type := mk {
  base : EnergyImplementation;
  order : Z
}.

Definition short_range_function (this : t) (q : float) : float :=
  qPochhammerSymbol q 0 (order this).
Definition short_range_function_derivative (this : t) (q : float) : float :=
  qPochhammerSymbolDerivative q 0 (order this).

(** The Debye length is the default [infinity]. *)
Definition ctor (cutoff : float) (order : Z) : t :=
  let e := EnergyImplementation_ctor qpotential cutoff infinity in
  let this := mk e order in
  let T0 := short_range_function_derivative this 1 - short_range_function this 1
            + short_range_function this 0 in
  mk (mkEnergyImplementation
        (mkSchemeBase (doi (sbase e)) "qpotential" (scheme (sbase e))
           (Binary64.cutoff (sbase e)) (debye_length (sbase e)) T0 (-1, -1))
        (invcutoff e) (cutoff2 e) (kappa e))
     order.

Definition ion_potential (this : t) : float -> float -> option float :=
  Binary64.ion_potential (base this) (short_range_function this).

Definition dipole_potential (this : t) : vec3 -> vec3 -> option float :=
  Binary64.dipole_potential (base this) (short_range_function this)
    (short_range_function_derivative this).

End qPotential.

End Binary64.

(** * Properties *)

(** ** Outcomes *)

Lemma fmap_Ret {A B : Type} (f : A -> B) (a : A) : fmap f (Ret a) = Ret (f a).
Proof. reflexivity. Qed.

Lemma bind_Ret_l {A B : Type} (a : A) (k : A -> outcome B) : bind (Ret a) k = k a.
Proof. reflexivity. Qed.

Lemma bind_Undef_l {A B : Type} (k : A -> outcome B) : bind Undef k = Undef.
Proof. reflexivity. Qed.

Lemma defined_bind_Ret {A B : Type} (m : outcome A) (f : A -> B) :
  defined (x <- m ;; Ret (f x)) <-> defined m.
Proof.
  unfold defined. destruct m as [a| |]; cbn [bind].
  - split; intros _; eexists; reflexivity.
  - split; intros [x Hx]; discriminate.
  - split; intros [x Hx]; discriminate.
Qed.

Lemma defined_bind {A B : Type} (m : outcome A) (k : A -> outcome B) :
  defined m -> (forall a, defined (k a)) -> defined (bind m k).
Proof. intros [a ->] Hk. rewrite bind_Ret_l. apply Hk. Qed.

Lemma defined_Ret {A : Type} (a : A) : defined (Ret a).
Proof. exists a. reflexivity. Qed.

(** ** Loops *)

Lemma range_nil lo hi : (hi <= lo)%Z -> range lo hi = [].
Proof.
  intro Hle. unfold range. replace (Z.to_nat (hi - lo)) with 0%nat by lia. reflexivity.
Qed.

Lemma range_cons lo hi : (lo < hi)%Z -> range lo hi = lo :: range (lo + 1) hi.
Proof.
  intro Hlt. unfold range.
  replace (Z.to_nat (hi - lo)) with (S (Z.to_nat (hi - (lo + 1)))) by lia.
  cbn [seq map]. f_equal; [lia|].
  rewrite <- seq_shift, map_map. apply map_ext. intro i. lia.
Qed.

Lemma for_loop_done {A : Type} lo hi (body : Z -> A -> A) init :
  (hi <= lo)%Z -> for_loop lo hi body init = init.
Proof. intro Hle. unfold for_loop. rewrite range_nil by assumption. reflexivity. Qed.

Lemma for_loop_step {A : Type} lo hi (body : Z -> A -> A) init :
  (lo < hi)%Z -> for_loop lo hi body init = for_loop (lo + 1) hi body (body lo init).
Proof. intro Hlt. unfold for_loop. rewrite range_cons by assumption. reflexivity. Qed.

Lemma for_loop_last {A : Type} lo hi (body : Z -> A -> A) init :
  (lo <= hi)%Z -> for_loop lo (hi + 1) body init = body hi (for_loop lo hi body init).
Proof.
  intro Hle. unfold for_loop, range.
  replace (Z.to_nat (hi + 1 - lo)) with (Z.to_nat (hi - lo) + 1)%nat by lia.
  rewrite seq_app, map_app, fold_left_app. cbn [seq map fold_left Nat.add].
  f_equal. lia.
Qed.

Lemma fold_loopM_failed {A : Type} (body : Z -> A -> outcome A) l (m : outcome A) :
  (forall a, m <> Ret a) ->
  fold_left (fun acc i => a <- acc ;; body i a) l m = m.
Proof.
  intro Hm. induction l as [|i l IH]; [reflexivity|].
  cbn [fold_left]. destruct m as [a| |]; [destruct (Hm a); reflexivity | exact IH | exact IH].
Qed.

Lemma for_loopM_done {A : Type} lo hi (body : Z -> A -> outcome A) init :
  (hi <= lo)%Z -> for_loopM lo hi body init = Ret init.
Proof. intro Hle. unfold for_loopM. rewrite range_nil by assumption. reflexivity. Qed.

Lemma for_loopM_step {A : Type} lo hi (body : Z -> A -> outcome A) init :
  (lo < hi)%Z ->
  for_loopM lo hi body init = a <- body lo init ;; for_loopM (lo + 1) hi body a.
Proof.
  intro Hlt. unfold for_loopM. rewrite range_cons by assumption. cbn [fold_left bind].
  destruct (body lo init) as [a| |]; cbn [bind]; [reflexivity| |];
    apply fold_loopM_failed; discriminate.
Qed.

Lemma for_loopM_defined {A : Type} (hi : Z) (body : Z -> A -> outcome A) :
  forall n lo init,
    (lo + Z.of_nat n = hi)%Z ->
    (forall c a, (lo <= c < hi)%Z -> defined (body c a)) ->
    defined (for_loopM lo hi body init).
Proof.
  induction n as [|n IH]; intros lo init Hsum Hbody.
  - rewrite for_loopM_done by lia. apply defined_Ret.
  - rewrite for_loopM_step by lia. apply defined_bind.
    + apply Hbody. lia.
    + intro a. apply IH; [lia|]. intros c a' Hc. apply Hbody. lia.
Qed.

Lemma for_loopM_defined_range {A : Type} lo hi (body : Z -> A -> outcome A) init :
  (lo <= hi)%Z ->
  (forall c a, (lo <= c < hi)%Z -> defined (body c a)) ->
  defined (for_loopM lo hi body init).
Proof.
  intros Hle Hbody. apply (for_loopM_defined hi body (Z.to_nat (hi - lo))); [lia|exact Hbody].
Qed.

(** ** Conversion to [unsigned int] and factorials modulo [2^32] *)

Lemma unsigned_of_int_id : forall z, (0 <= z < two32)%Z -> unsigned_of_int z = z.
Proof. intros z Hz. unfold unsigned_of_int. apply Z.mod_small. exact Hz. Qed.

Lemma unsigned_of_int_neg : forall z, (- two32 <= z < 0)%Z ->
  unsigned_of_int z = (z + two32)%Z.
Proof.
  intros z Hz. unfold unsigned_of_int.
  symmetry. apply Z.mod_unique with (q := (-1)%Z); lia.
Qed.

Lemma factorial_rec_fuel : forall f1 f2 n,
  (Z.to_nat n <= f1)%nat -> (Z.to_nat n <= f2)%nat ->
  factorial_rec f1 n = factorial_rec f2 n.
Proof.
  induction f1 as [|f1 IH]; intros f2 n H1 H2.
  - destruct f2 as [|f2]; cbn [factorial_rec]; [reflexivity|].
    destruct (Z.leb_spec n 1); [reflexivity | lia].
  - cbn [factorial_rec]. destruct (Z.leb_spec n 1) as [Hle|Hgt].
    + destruct f2; cbn [factorial_rec]; [reflexivity|].
      destruct (Z.leb_spec n 1); [reflexivity | lia].
    + destruct f2 as [|f2]; [lia|]. cbn [factorial_rec].
      destruct (Z.leb_spec n 1); [lia|].
      rewrite (IH f2 (n - 1)%Z) by lia. reflexivity.
Qed.

Lemma factorial_small : forall n, (n <= 1)%Z -> factorial n = 1%Z.
Proof.
  intros n Hn. unfold factorial. destruct (Z.to_nat n); cbn [factorial_rec]; [reflexivity|].
  destruct (Z.leb_spec n 1); [reflexivity | lia].
Qed.

Lemma factorial_step : forall n, (1 < n)%Z ->
  factorial n = ((n * factorial (n - 1)) mod two32)%Z.
Proof.
  intros n Hn. unfold factorial.
  destruct (Z.to_nat n) as [|f] eqn:E; [lia|]. cbn [factorial_rec].
  destruct (Z.leb_spec n 1); [lia|].
  rewrite (factorial_rec_fuel f (Z.to_nat (n - 1)) (n - 1)%Z) by lia. reflexivity.
Qed.

Lemma factorial_34 : factorial 34 = 0%Z.
Proof. vm_compute. reflexivity. Qed.

Lemma factorial_large : forall n, (34 <= n)%Z -> factorial n = 0%Z.
Proof.
  intros n Hn. pattern n. apply (Zlt_lower_bound_ind _ 34%Z); [|exact Hn].
  clear n Hn. intros n IH Hn.
  destruct (Z.eq_dec n 34) as [->|Hne]; [exact factorial_34|].
  rewrite factorial_step by lia. rewrite IH by lia.
  rewrite Z.mul_0_r. reflexivity.
Qed.

Lemma factorial_nonzero : forall n, (0 <= n < 34)%Z -> factorial n <> 0%Z.
Proof.
  intros n Hn.
  assert (Hall : factorial_nonzero_upto 34 = true) by (vm_compute; reflexivity).
  unfold factorial_nonzero_upto in Hall. rewrite forallb_forall in Hall.
  specialize (Hall (Z.to_nat n)). rewrite Z2Nat.id in Hall by lia.
  assert (Hin : In (Z.to_nat n) (seq 0 34)) by (apply in_seq; lia).
  apply Hall in Hin. apply negb_true_iff in Hin. apply Z.eqb_neq in Hin. exact Hin.
Qed.

Lemma factorial_zero_iff : forall n, (0 <= n)%Z -> (factorial n = 0%Z <-> (34 <= n)%Z).
Proof.
  intros n Hn. split.
  - intro Hz. destruct (Z_lt_le_dec n 34) as [Hlt|Hge]; [|exact Hge].
    exfalso. apply (factorial_nonzero n); [lia | exact Hz].
  - apply factorial_large.
Qed.

(** ** Binomials whose arguments wrap around *)

Lemma binomial_defined_iff n k :
  defined (binomial n k) <->
  factorial k <> 0%Z /\ factorial (unsigned_of_int (n - k)) <> 0%Z.
Proof.
  unfold binomial, udiv, defined.
  destruct (Z.eqb_spec (factorial k) 0) as [Ek|Ek]; cbn [bind].
  - split; [intros [a Ha]; discriminate | tauto].
  - destruct (Z.eqb_spec (factorial (unsigned_of_int (n - k))) 0) as [En|En].
    + split; [intros [a Ha]; discriminate | tauto].
    + split; [tauto | intros _; eexists; reflexivity].
Qed.

Lemma binomial_never_raises n k e : binomial n k <> Raise e.
Proof.
  unfold binomial, udiv. cbv zeta.
  destruct (factorial k =? 0)%Z; [rewrite bind_Undef_l; discriminate|].
  rewrite bind_Ret_l.
  destruct (factorial (unsigned_of_int (n - k)) =? 0)%Z; discriminate.
Qed.

Lemma binomial_undefined n k :
  (34 <= unsigned_of_int (n - k))%Z -> binomial n k = Undef.
Proof.
  intro Hbig. unfold binomial, udiv. rewrite (factorial_large _ Hbig).
  destruct (factorial k =? 0)%Z; reflexivity.
Qed.

Lemma binomial_n_0 n : (0 <= n <= 33)%Z ->
  binomial (unsigned_of_int n) (unsigned_of_int 0) = Ret 1%Z.
Proof.
  intro Hn. unfold binomial, udiv. cbv zeta.
  rewrite (unsigned_of_int_id n) by (unfold two32; lia).
  rewrite (unsigned_of_int_id 0) by (unfold two32; lia).
  replace (n - 0)%Z with n by lia.
  rewrite (unsigned_of_int_id n) by (unfold two32; lia).
  rewrite (factorial_small 0) by lia.
  pose proof (factorial_nonzero n ltac:(lia)) as Hf.
  change (1 =? 0)%Z with false. cbv iota. rewrite bind_Ret_l.
  destruct (Z.eqb_spec (factorial n) 0) as [E|_]; [contradiction|].
  rewrite Z.div_1_r, Z.div_same by exact Hf. reflexivity.
Qed.

Lemma binomial_defined_in_loop D c : (1 <= D <= 34)%Z -> (0 <= c <= 33)%Z ->
  defined (binomial (unsigned_of_int (D - 1 + c)) (unsigned_of_int c)).
Proof.
  intros HD Hc. apply binomial_defined_iff.
  rewrite (unsigned_of_int_id (D - 1 + c)) by (unfold two32; lia).
  rewrite (unsigned_of_int_id c) by (unfold two32; lia).
  replace (D - 1 + c - c)%Z with (D - 1)%Z by lia.
  rewrite (unsigned_of_int_id (D - 1)) by (unfold two32; lia).
  split; apply factorial_nonzero; lia.
Qed.

Lemma binomial_C_plus_D_defined_iff C D :
  (1 <= C < 2147483648)%Z -> (-1 <= D < 2147483648)%Z -> (C + D < 2147483648)%Z ->
  defined (binomial (unsigned_of_int (C + D)) (unsigned_of_int C)) <->
  (0 <= D <= 33)%Z /\ (C <= 33)%Z.
Proof.
  intros HC HD HCD. rewrite binomial_defined_iff.
  rewrite (unsigned_of_int_id (C + D)) by (unfold two32; lia).
  rewrite (unsigned_of_int_id C) by (unfold two32; lia).
  replace (C + D - C)%Z with D by lia.
  destruct (Z.eq_dec D (-1)) as [->|Hne].
  - rewrite unsigned_of_int_neg by (unfold two32; lia).
    rewrite (factorial_large (-1 + two32)) by (unfold two32; lia).
    split; [tauto | lia].
  - rewrite (unsigned_of_int_id D) by (unfold two32; lia).
    pose proof (factorial_zero_iff C) as FC. pose proof (factorial_zero_iff D) as FD.
    split.
    + intros [HfC HfD].
      destruct (Z_lt_le_dec C 34) as [?|HC34]; [|exfalso; apply HfC, FC; lia].
      destruct (Z_lt_le_dec D 34) as [?|HD34]; [|exfalso; apply HfD, FD; lia].
      lia.
    + intros [HD33 HC33]. split; apply factorial_nonzero; lia.
Qed.

(** ** Evaluation tactics and comparisons *)

(** Replaces each closed call of [binomial] by its value. *)
Ltac eval_binomials :=
  repeat match goal with
  | |- context [binomial ?a ?b] =>
      let v := eval vm_compute in (binomial a b) in
      replace (binomial a b) with v by (vm_compute; reflexivity)
  end;
  cbn [bind].

(** Unrolls loops with closed bounds, one round at a time. *)
Ltac unroll_loops :=
  repeat (first [ rewrite for_loopM_step by lia
                | rewrite for_loopM_done by lia
                | rewrite for_loop_step by lia
                | rewrite for_loop_done by lia ];
          cbn beta; eval_binomials).

(** Computes closed integer arguments of [IZR] and [Z.to_nat]. *)
Ltac eval_ints :=
  repeat match goal with
  | |- context [IZR ?z] =>
      let v := eval vm_compute in z in progress change (IZR z) with (IZR v)
  | |- context [Z.to_nat ?z] =>
      let v := eval vm_compute in (Z.to_nat z) in progress change (Z.to_nat z) with v
  end.

(** Unrolls pure loops and the pattern-matching [let]s around them. *)
Ltac run_loops :=
  repeat (first [ rewrite for_loop_step by lia | rewrite for_loop_done by lia ];
          cbv beta iota zeta).

(** Decides closed tests [a <? b]. *)
Ltac eval_tests :=
  repeat match goal with
  | |- context [(?a <? ?b)%Z] =>
      let v := eval vm_compute in (a <? b)%Z in change (a <? b)%Z with v
  end;
  cbv iota.

Lemma Rltb_small_zero : Rltb (1 / 1000000) (Rabs 0) = false.
Proof.
  unfold Rltb. rewrite Rabs_R0.
  destruct (Rlt_dec (1 / 1000000) 0); [lra | reflexivity].
Qed.

Lemma Rltb_small_half : Rltb (1 / 1000000) (Rabs (1 / 2)) = true.
Proof.
  unfold Rltb. rewrite Rabs_pos_eq by lra.
  destruct (Rlt_dec (1 / 1000000) (1 / 2)); [reflexivity | lra].
Qed.

Lemma xlt_true r v : r < v -> xlt r (Fin v) = true.
Proof. intro Hlt. simpl. destruct (Rlt_dec r v); [reflexivity | contradiction]. Qed.

(** ** The error function *)

Lemma Cmath_erfc_0 : Cmath.erfc 0 = 1.
Proof. unfold Cmath.erfc, Cmath.erf. ring. Qed.

Lemma Cmath_erf_odd x : Cmath.erf (- x) = - Cmath.erf x.
Proof. unfold Cmath.erf. replace (- x * - x) with (x * x) by ring. ring. Qed.

Lemma Cmath_erfc_reflect x : Cmath.erfc x + Cmath.erfc (- x) = 2.
Proof. unfold Cmath.erfc. rewrite Cmath_erf_odd. ring. Qed.

(** ** The engine: hard truncation at the cutoff *)

Lemma xlt_false_of_xge r c : xge r c -> xlt r c = false.
Proof.
  destruct c as [v|]; simpl; [|tauto].
  intro Hge. destruct (Rlt_dec r v); [lra | reflexivity].
Qed.

Lemma squaredNorm_nonneg r : 0 <= squaredNorm r.
Proof. unfold squaredNorm, dot. destruct r as [x y z]; simpl. nra. Qed.

Lemma squaredNorm_vneg r : squaredNorm (vneg r) = squaredNorm r.
Proof. unfold squaredNorm, dot, vneg; simpl. ring. Qed.

Lemma norm_vneg r : norm (vneg r) = norm r.
Proof. unfold norm. rewrite squaredNorm_vneg. reflexivity. Qed.

Lemma xlt_sq_false_of_norm_ge r c :
  cutoff_nonneg c -> xge (norm r) c -> xlt (squaredNorm r) (xsqr c) = false.
Proof.
  destruct c as [v|]; simpl; [|tauto].
  intros Hv Hge. destruct (Rlt_dec (squaredNorm r) (v * v)) as [Hlt|]; [|reflexivity].
  exfalso. unfold norm in Hge.
  pose proof (squaredNorm_nonneg r) as Hn.
  pose proof (sqrt_sqrt _ Hn) as Hs.
  pose proof (sqrt_pos (squaredNorm r)) as Hp.
  nra.
Qed.

Lemma vscale_vzero s : vscale s vzero = vzero.
Proof. unfold vscale, vzero; simpl. f_equal; ring. Qed.

Section Truncation.

Context {T : Type} `{SplittingScheme T}.
Variable this : T.

Let c : xreal := cutoff (sbase (impl this)).

Hypothesis Hbuilt : engine_built (impl this).
Hypothesis Hnonneg : cutoff_nonneg c.

Lemma ion_potential_outside z r : xge r c -> ion_potential this z r = Ret 0.
Proof.
  intro Hr. unfold ion_potential. fold c. rewrite (xlt_false_of_xge _ _ Hr). reflexivity.
Qed.

Lemma cutoff2_test_outside r :
  xge (norm r) c -> xlt (squaredNorm r) (cutoff2 (impl this)) = false.
Proof.
  intro Hr. destruct Hbuilt as [_ ->]. fold c.
  apply xlt_sq_false_of_norm_ge; assumption.
Qed.

Lemma dipole_potential_outside mu r : xge (norm r) c -> dipole_potential this mu r = Ret 0.
Proof. intro Hr. unfold dipole_potential. rewrite (cutoff2_test_outside _ Hr). reflexivity. Qed.

Lemma ion_field_outside z r : xge (norm r) c -> ion_field this z r = Ret vzero.
Proof. intro Hr. unfold ion_field. rewrite (cutoff2_test_outside _ Hr). reflexivity. Qed.

Lemma dipole_field_outside mu r : xge (norm r) c -> dipole_field this mu r = Ret vzero.
Proof. intro Hr. unfold dipole_field. rewrite (cutoff2_test_outside _ Hr). reflexivity. Qed.

Lemma dipole_dipole_force_outside muA muB r :
  xge (norm r) c -> dipole_dipole_force this muA muB r = Ret vzero.
Proof. intro Hr. unfold dipole_dipole_force. rewrite (cutoff2_test_outside _ Hr). reflexivity. Qed.

End Truncation.

(** In exact arithmetic the two tests agree, [r2 < cutoff2] being
    [|r| < cutoff]: for a scheme whose engine part was set up by the
    constructor, with a cutoff that is not negative, each of the ten
    distance-dependent operations returns exactly zero (the zero vector)
    when the separation is at least the cutoff. *)
Theorem zero_at_and_beyond_cutoff {T : Type} `{SplittingScheme T} (this : T) :
  engine_built (impl this) ->
  cutoff_nonneg (cutoff (sbase (impl this))) ->
  let c := cutoff (sbase (impl this)) in
  (forall z r, xge r c -> ion_potential this z r = Ret 0) /\
  (forall mu r, xge (norm r) c -> dipole_potential this mu r = Ret 0) /\
  (forall z r, xge (norm r) c -> ion_field this z r = Ret vzero) /\
  (forall mu r, xge (norm r) c -> dipole_field this mu r = Ret vzero) /\
  (forall zA zB r, xge r c -> ion_ion_energy this zA zB r = Ret 0) /\
  (forall z mu r, xge (norm r) c -> ion_dipole_energy this z mu r = Ret 0) /\
  (forall muA muB r, xge (norm r) c -> dipole_dipole_energy this muA muB r = Ret 0) /\
  (forall zA zB r, xge (norm r) c -> ion_ion_force this zA zB r = Ret vzero) /\
  (forall z mu r, xge (norm r) c -> ion_dipole_force this z mu r = Ret vzero) /\
  (forall muA muB r, xge (norm r) c -> dipole_dipole_force this muA muB r = Ret vzero).
Proof.
  intros Hb Hc c. repeat split; intros.
  - apply ion_potential_outside; assumption.
  - apply dipole_potential_outside; assumption.
  - apply ion_field_outside; assumption.
  - apply dipole_field_outside; assumption.
  - unfold ion_ion_energy. rewrite ion_potential_outside by assumption.
    rewrite fmap_Ret. f_equal. ring.
  - unfold ion_dipole_energy. rewrite dipole_potential_outside; try assumption.
    + rewrite fmap_Ret. f_equal. ring.
    + rewrite norm_vneg. assumption.
  - unfold dipole_dipole_energy. rewrite dipole_field_outside by assumption.
    rewrite fmap_Ret. f_equal. unfold dot, vzero; simpl. ring.
  - unfold ion_ion_force. rewrite ion_field_outside by assumption.
    rewrite fmap_Ret, vscale_vzero. reflexivity.
  - unfold ion_dipole_force. rewrite dipole_field_outside by assumption.
    rewrite fmap_Ret, vscale_vzero. reflexivity.
  - apply dipole_dipole_force_outside; assumption.
Qed.

Lemma zero_at_and_beyond_cutoff_witness :
  ion_potential (Fanourgakis.ctor 29) 2 29 = Ret 0 /\
  ion_field (Fanourgakis.ctor 29) 2 (mkvec3 29 0 0) = Ret vzero.
Proof.
  destruct (zero_at_and_beyond_cutoff (Fanourgakis.ctor 29)) as (H1 & _ & H3 & _).
  - split; reflexivity.
  - simpl. lra.
  - split; [apply H1; simpl; lra | apply H3; simpl].
    unfold norm, squaredNorm, dot; simpl.
    replace (29 * 29 + 0 * 0 + 0 * 0) with (Rsqr 29) by (unfold Rsqr; ring).
    rewrite sqrt_Rsqr by lra. lra.
Defined.

(** *** The two tests in doubles

    [ion_potential] compares [r] with [cutoff]; the operations that take a
    vector compare [r.squaredNorm()] with [cutoff * cutoff], two rounded
    products.  For [cutoff = 7.7] and [r = (4.62, 6.16, 0)] the length
    [r.norm()] is the double 7.7, yet [r.squaredNorm()] is 59.29 (the same
    in either order of summation) and [cutoff * cutoff] the next double,
    59.290000000000006. *)

Section CutoffInDoubles.

Import PrimFloat.
Local Open Scope float_scope.

(** C1.  At a separation equal to the cutoff the operations disagree:
    for [qPotential(7.7, 1)] and [r = (4.62, 6.16, 0)], whose length is the
    cutoff, [ion_potential] returns 0, while [dipole_potential] takes the
    branch for the interior and returns a potential of about 0.0101 for
    [mu = (1, 0, 0)], not 0. *)
Theorem dipole_potential_nonzero_at_cutoff :
  let pot := Binary64.qPotential.ctor 7.7 1 in
  let r := Binary64.mkvec3 4.62 6.16 0 in
  let mu := Binary64.mkvec3 1 0 0 in
  Binary64.norm r = Binary64.cutoff (Binary64.sbase (Binary64.qPotential.base pot)) /\
  Binary64.qPotential.ion_potential pot 1 (Binary64.norm r) = Some 0 /\
  Binary64.squaredNorm r = 4.62 * 4.62 + (6.16 * 6.16 + 0 * 0) /\
  (Binary64.squaredNorm r <? Binary64.cutoff2 (Binary64.qPotential.base pot)) = true /\
  exists v, Binary64.qPotential.dipole_potential pot mu r = Some v /\ (0.01 <? v) = true.
Proof.
  cbv zeta. repeat split; try (vm_compute; reflexivity).
  eexists. split; vm_compute; reflexivity.
Qed.

End CutoffInDoubles.

(** ** The engine: ion field against dipole potential *)

(** C2.  [ion_field] and [dipole_potential] scale one and the same bracket
    [s(q)(1 + kappa r) - q s'(q)], and [mu . ion_field(z, r)] equals
    [z * dipole_potential(mu, r)]; this holds at every separation, inside
    the cutoff in particular. *)
Theorem ion_field_dipole_potential_same_bracket
  {T : Type} `{SplittingScheme T} (this : T) (z : R) (mu r : vec3) :
  let e := impl this in
  let r2 := squaredNorm r in
  let r1 := sqrt r2 in
  ion_field this z r =
    (if xlt r2 (cutoff2 e)
     then fmap (fun b => vmul (vmul (vdiv (vdiv (vscale z r) r2) r1) b)
                              (exp (- kappa e * r1)))
               (screened_bracket this r1)
     else Ret vzero) /\
  dipole_potential this mu r =
    (if xlt r2 (cutoff2 e)
     then fmap (fun b => dot mu r / r2 / r1 * b * exp (- kappa e * r1))
               (screened_bracket this r1)
     else Ret 0) /\
  fmap (dot mu) (ion_field this z r) = fmap (Rmult z) (dipole_potential this mu r).
Proof.
  intros e r2 r1. unfold ion_field, dipole_potential, screened_bracket.
  fold e r2 r1. destruct (xlt r2 (cutoff2 e)).
  - destruct (srf this (r1 * invcutoff e)) as [s| |]; cbn; try (repeat split; reflexivity).
    destruct (dsrf this (r1 * invcutoff e)) as [d| |]; cbn; try (repeat split; reflexivity).
    repeat split. f_equal. unfold dot; simpl. unfold Rdiv. ring.
  - repeat split. cbn. f_equal. unfold dot; simpl. ring.
Qed.

(** ** The engine: self-energy *)

Lemma self_energy_value {T : Type} `{SplittingScheme T} (this : T) (m2 : array2) :
  let e := impl this in
  let p := self_energy_prefactor (sbase e) in
  self_energy this m2 =
    Ret (0 + elt0 p * elt0 m2 * powi (invcutoff e) 1
           + elt1 p * elt1 m2 * powi (invcutoff e) 3).
Proof.
  intros e p. unfold self_energy, array_size. fold e p. cbn [Z.eqb Pos.eqb negb].
  rewrite for_loopM_step by lia. cbn [array_at Z.eqb bind].
  rewrite for_loopM_step by lia. cbn [array_at Z.eqb Pos.eqb Z.add Pos.add bind].
  rewrite for_loopM_done by lia. reflexivity.
Qed.




(** ** The q-Pochhammer symbol *)

Lemma geometric_sum_closed q m : (1 - q) * geometric_sum q m = 1 - q ^ m.
Proof.
  induction m as [|m IH]; simpl; [ring|].
  rewrite Rmult_plus_distr_l, IH. ring.
Qed.

Lemma powerRZ_nonneg q k : (0 <= k)%Z -> powerRZ q k = q ^ Z.to_nat k.
Proof. intro Hk. destruct k as [|p|p]; [reflexivity | reflexivity | lia]. Qed.

Section InnerLoop.

Variable q : R.

Lemma inner_sum_loop : forall m, (0 <= m)%Z -> (m < two32)%Z ->
  for_loop 1 (m + 1) (fun k val => val + powi q (unsigned_of_int (k - 1))) 0
  = geometric_sum q (Z.to_nat m).
Proof.
  intros m Hm. pattern m. apply natlike_ind; [| |exact Hm]; clear m Hm.
  - intros _. rewrite for_loop_done by lia. reflexivity.
  - intros m Hm IH Hb. unfold Z.succ.
    rewrite for_loop_last by lia. rewrite IH by lia.
    replace (Z.to_nat (m + 1)) with (S (Z.to_nat m)) by lia. cbn [geometric_sum].
    unfold powi. rewrite unsigned_of_int_id by (unfold two32 in *; lia).
    replace (m + 1 - 1)%Z with m by lia. reflexivity.
Qed.

End InnerLoop.

Section qPochhammerValue.

Variables (q : R) (l : Z).
Hypothesis Hl : (0 <= l)%Z.

Lemma running_product_loop : forall P, (0 <= P)%Z -> (l + P < two32)%Z ->
  for_loop 1 (P + 1)
    (fun n Ct =>
       Ct * for_loop 1 (n + l + 1)
              (fun k val => val + powi q (unsigned_of_int (k - 1))) 0) 1
  = for_loop 1 (P + 1) (fun n acc => acc * geometric_sum q (Z.to_nat (n + l))) 1.
Proof.
  intros P HP. pattern P. apply natlike_ind; [| |exact HP]; clear P HP.
  - intros _. rewrite !for_loop_done by lia. reflexivity.
  - intros P HP IH Hb. unfold Z.succ.
    rewrite !(for_loop_last 1 (P + 1)) by lia. rewrite IH by lia.
    rewrite inner_sum_loop by lia. reflexivity.
Qed.

Lemma reformulated_is_product : forall P, (0 <= P)%Z ->
  qPochhammer_reformulated_spec q l P = qPochhammer_product_spec q (l + 1) P.
Proof.
  intros P HP. unfold qPochhammer_reformulated_spec, qPochhammer_product_spec.
  pattern P. apply natlike_ind; [| |exact HP]; clear P HP.
  - rewrite !for_loop_done by lia. simpl. ring.
  - intros P HP IH. unfold Z.succ.
    rewrite !(for_loop_last 1 (P + 1)) by lia. rewrite <- IH.
    replace (Z.to_nat (P + 1)) with (S (Z.to_nat P)) by lia.
    rewrite <- pow_add.
    replace (Z.to_nat (l + 1) + Z.to_nat (P + 1 - 1))%nat with (Z.to_nat (P + 1 + l)) by lia.
    rewrite <- geometric_sum_closed. simpl pow. ring.
Qed.

Lemma old_loop : forall P, (0 <= P)%Z ->
  for_loop 0 P (fun (_ : Z) '(value, temp) => (value * (1 - temp), temp * q))
    (1, powerRZ q l)
  = (qPochhammer_product_spec q l P, q ^ Z.to_nat (l + P)).
Proof.
  intros P HP. unfold qPochhammer_product_spec.
  pattern P. apply natlike_ind; [| |exact HP]; clear P HP.
  - rewrite !for_loop_done by lia. rewrite powerRZ_nonneg by exact Hl.
    replace (l + 0)%Z with l by lia. reflexivity.
  - intros P HP IH. unfold Z.succ.
    replace (P + 1)%Z with ((P - 1) + 1 + 1)%Z at 1 by lia.
    destruct (Z.eq_dec P 0) as [->|Hne].
    + rewrite for_loop_step by lia. rewrite for_loop_done by lia.
      rewrite for_loop_step by lia. rewrite for_loop_done by lia.
      rewrite powerRZ_nonneg by exact Hl.
      f_equal; [simpl; ring|].
      replace (Z.to_nat (l + (0 + 1))) with (S (Z.to_nat l)) by lia. simpl. ring.
    + replace (P - 1 + 1 + 1)%Z with (P + 1)%Z by lia.
      rewrite (for_loop_last 0 P) by lia. rewrite IH.
      rewrite (for_loop_last 1 (P + 1)) by lia.
      f_equal.
      * rewrite <- pow_add.
        replace (Z.to_nat l + Z.to_nat (P + 1 - 1))%nat with (Z.to_nat (l + P)) by lia.
        reflexivity.
      * replace (Z.to_nat (l + (P + 1))) with (S (Z.to_nat (l + P))) by lia. simpl. ring.
Qed.

End qPochhammerValue.

Lemma qPochhammerSymbol_is_reformulated q l P :
  (0 <= l)%Z -> (0 <= P)%Z -> (l + P < 2147483647)%Z ->
  qPochhammerSymbol q l P = qPochhammer_reformulated_spec q l P.
Proof.
  intros Hl HP Hb. unfold qPochhammerSymbol, qPochhammer_reformulated_spec.
  rewrite running_product_loop by (unfold two32; lia).
  unfold powi. rewrite unsigned_of_int_id by (unfold two32; lia). ring.
Qed.

Lemma qPochhammerSymbol_is_product q l P :
  (0 <= l)%Z -> (0 <= P)%Z -> (l + P < 2147483647)%Z ->
  qPochhammerSymbol q l P = qPochhammer_product_spec q (l + 1) P.
Proof.
  intros Hl HP Hb. rewrite qPochhammerSymbol_is_reformulated by assumption.
  apply reformulated_is_product; assumption.
Qed.

Lemma Old_qPochhammerSymbol_is_product q k P :
  (0 <= k)%Z -> (0 <= P)%Z ->
  Old.qPochhammerSymbol q k P = qPochhammer_product_spec q k P.
Proof.
  intros Hk HP. unfold Old.qPochhammerSymbol. rewrite old_loop by assumption.
  reflexivity.
Qed.

Lemma geometric_sum_ge_1 q m : 0 <= q -> (1 <= m)%nat -> 1 <= geometric_sum q m.
Proof.
  intros Hq Hm. induction m as [|m IH]; [lia|].
  simpl. destruct m as [|m].
  - simpl. lra.
  - pose proof (pow_le q (S m) Hq). specialize (IH ltac:(lia)). lra.
Qed.

Lemma exact_factorial_mono : forall n m, (n <= m)%nat ->
  (0 < exact_factorial n <= exact_factorial m)%Z.
Proof.
  assert (Hpos : forall n, (0 < exact_factorial n)%Z).
  { induction n as [|n IH]; [simpl; lia|].
    change (0 < Z.of_nat (S n) * exact_factorial n)%Z. nia. }
  intros n m Hnm. split; [apply Hpos|].
  induction Hnm as [|m Hnm IH]; [lia|].
  change (exact_factorial (S m)) with (Z.of_nat (S m) * exact_factorial m)%Z.
  specialize (Hpos m). nia.
Qed.

(** *** The factors stay within the range of [double] *)

Lemma geometric_sum_le_terms q m : 0 <= q <= 1 -> geometric_sum q m <= INR m.
Proof.
  intros Hq. induction m as [|m IH]; [simpl; lra|].
  cbn [geometric_sum]. rewrite S_INR.
  assert (Hp : q ^ m <= 1).
  { rewrite <- (pow1 m). apply pow_incr. exact Hq. }
  lra.
Qed.

Lemma gprod_range q l P : 0 <= q <= 1 -> (0 <= l)%Z -> (0 <= P)%Z ->
  1 <= gprod q l P <= IZR (exact_factorial (Z.to_nat (l + P))).
Proof.
  intros Hq Hl HP. unfold gprod.
  pattern P. apply natlike_ind; [| |exact HP]; clear P HP.
  - rewrite for_loop_done by lia.
    pose proof (exact_factorial_mono 0 (Z.to_nat (l + 0)) ltac:(lia)) as [_ Hf].
    apply IZR_le in Hf. simpl exact_factorial in Hf. lra.
  - intros P HP [IH1 IH2]. unfold Z.succ.
    rewrite for_loop_last by lia.
    set (m := Z.to_nat (P + 1 + l)).
    assert (Hm : (1 <= m)%nat) by (unfold m; lia).
    pose proof (geometric_sum_ge_1 q m (proj1 Hq) Hm) as Hg1.
    pose proof (geometric_sum_le_terms q m Hq) as Hg2.
    replace (Z.to_nat (l + (P + 1))) with (S (Z.to_nat (l + P))) by lia.
    cbn [exact_factorial]. rewrite mult_IZR, <- INR_IZR_INZ.
    replace (S (Z.to_nat (l + P))) with m by (unfold m; lia).
    split; [nra|].
    rewrite Rmult_comm. apply Rmult_le_compat; lra.
Qed.

Lemma factorial_170_fits_double :
  IZR (exact_factorial 170) < DBL_MAX /\ DBL_MAX < IZR (exact_factorial 171).
Proof. unfold DBL_MAX. split; apply IZR_lt; vm_compute; reflexivity. Qed.

Lemma Ct_fits_double q l P :
  0 <= q <= 1 -> (0 <= l)%Z -> (0 <= P)%Z -> (l + P <= 170)%Z ->
  1 <= gprod q l P < DBL_MAX.
Proof.
  intros Hq Hl HP Hb.
  destruct (gprod_range q l P Hq Hl HP) as [H1 H2].
  pose proof (exact_factorial_mono (Z.to_nat (l + P)) 170 ltac:(lia)) as [_ Hf].
  apply IZR_le in Hf. pose proof (proj1 factorial_170_fits_double). lra.
Qed.

Lemma qPochhammerSymbol_is_normal q l P :
  0 <= q <= 1 -> (0 <= l)%Z -> (0 <= P)%Z -> (l + P < 2147483647)%Z ->
  DBL_MIN <= (1 - q) ^ Z.to_nat P -> DBL_MIN <= qPochhammerSymbol q l P.
Proof.
  intros Hq Hl HP Hb Hmin.
  rewrite qPochhammerSymbol_is_reformulated by lia.
  unfold qPochhammer_reformulated_spec. fold (gprod q l P).
  destruct (gprod_range q l P Hq Hl HP) as [Hg _].
  assert (Hp : 0 <= (1 - q) ^ Z.to_nat P) by (apply pow_le; lra).
  nra.
Qed.

(** [DBL_MIN <= x^n] for [x >= 2^-k] and [k n <= 1022]. *)
Lemma DBL_MIN_le_pow x k n : / 2 ^ k <= x -> (k * n <= 1022)%nat -> DBL_MIN <= x ^ n.
Proof.
  intros Hx Hkn. unfold DBL_MIN.
  assert (H2 : 0 < 2) by lra.
  assert (Hk : 0 < / 2 ^ k) by (apply Rinv_0_lt_compat, pow_lt; lra).
  apply Rle_trans with ((/ 2 ^ k) ^ n); [|apply pow_incr; lra].
  rewrite pow_inv, <- pow_mult.
  apply Rinv_le_contravar; [apply pow_lt; lra|].
  apply Rle_pow; [lra | exact Hkn].
Qed.




(** *** Outside that range, in doubles

    The same functions evaluated on binary64 numbers.  At the default order
    300 the factor [Ct] has overflowed to [inf] and [Dt] underflowed to 0
    for [q = 0.95], and the product is a NaN.  At [q = 1], where [Ct] is
    [order!], the value is 0 up to order 170 and a NaN from 171 on; [T0] of
    [qPotential], whose derivative multiplies [Ct] by a sum of about
    [order^2 / 4], is 1 up to order 168 and a NaN from 169 on. *)

Section qPochhammerInDoubles.

Import PrimFloat.
Local Open Scope float_scope.

Lemma qPochhammerSymbol_binary64_values :
  Binary64.qPochhammerSymbol 0.75 0 2 = 0.109375 /\
  Binary64.qPochhammerSymbol 0.5 0 3 = 0.328125 /\
  is_nan (Binary64.qPochhammerSymbol 0.95 0 300) = true.
Proof. repeat split; vm_compute; reflexivity. Qed.

Lemma vanishes_at_cutoff_upto_170 :
  forallb (fun P => Binary64.qPochhammerSymbol 1 0 (Z.of_nat P) =? 0) (seq 1 170) = true.
Proof. vm_compute. reflexivity. Qed.

Lemma qPotential_at_cutoff_binary64 :
  (forall P, (1 <= P <= 170)%Z -> (Binary64.qPochhammerSymbol 1 0 P =? 0) = true) /\
  is_nan (Binary64.qPochhammerSymbol 1 0 171) = true.
Proof.
  split; [|vm_compute; reflexivity].
  intros P HP.
  pose proof (proj1 (forallb_forall _ _) vanishes_at_cutoff_upto_170) as Hall.
  assert (Hin : In (Z.to_nat P) (seq 1 170)) by (apply in_seq; lia).
  specialize (Hall _ Hin). cbv beta in Hall.
  rewrite Z2Nat.id in Hall by lia. exact Hall.
Qed.

Lemma qPotential_T0_ctor (c : float) (P : Z) :
  Binary64.T0 (Binary64.sbase (Binary64.qPotential.base (Binary64.qPotential.ctor c P)))
  = Binary64.qPochhammerSymbolDerivative 1 0 P - Binary64.qPochhammerSymbol 1 0 P
    + Binary64.qPochhammerSymbol 0 0 P.
Proof. reflexivity. Qed.

Lemma T0_is_one_upto_168 :
  forallb (fun P => Binary64.qPochhammerSymbolDerivative 1 0 (Z.of_nat P)
                    - Binary64.qPochhammerSymbol 1 0 (Z.of_nat P)
                    + Binary64.qPochhammerSymbol 0 0 (Z.of_nat P) =? 1) (seq 2 167) = true.
Proof. vm_compute. reflexivity. Qed.

Lemma T0_is_nan_at_169 :
  is_nan (Binary64.qPochhammerSymbolDerivative 1 0 169 - Binary64.qPochhammerSymbol 1 0 169
          + Binary64.qPochhammerSymbol 0 0 169) = true.
Proof. vm_compute. reflexivity. Qed.

Lemma qPotential_T0_binary64 (c : float) :
  (forall P, (2 <= P <= 168)%Z ->
     (Binary64.T0 (Binary64.sbase (Binary64.qPotential.base (Binary64.qPotential.ctor c P)))
      =? 1) = true) /\
  is_nan (Binary64.T0 (Binary64.sbase (Binary64.qPotential.base
                                         (Binary64.qPotential.ctor c 169)))) = true.
Proof.
  split.
  - intros P HP. rewrite qPotential_T0_ctor.
    pose proof (proj1 (forallb_forall _ _) T0_is_one_upto_168) as Hall.
    assert (Hin : In (Z.to_nat P) (seq 2 167)) by (apply in_seq; lia).
    specialize (Hall _ Hin). cbv beta in Hall.
    rewrite Z2Nat.id in Hall by lia. exact Hall.
  - rewrite qPotential_T0_ctor. exact T0_is_nan_at_169.
Qed.

End qPochhammerInDoubles.

Lemma product_spec_at_zero : forall P, (0 <= P)%Z -> qPochhammer_product_spec 0 1 P = 1.
Proof.
  intros P HP. unfold qPochhammer_product_spec.
  pattern P. apply natlike_ind; [| |exact HP]; clear P HP.
  - rewrite for_loop_done by lia. reflexivity.
  - intros P HP IH. unfold Z.succ. rewrite for_loop_last by lia. rewrite IH.
    simpl pow at 1. ring.
Qed.

(** ** The Poisson constructors *)

Lemma poisson_guard_accepts C D :
  (1 <= C)%Z -> (-1 <= D)%Z -> poisson_guard_rejects C D = false.
Proof.
  intros HC HD. unfold poisson_guard_rejects.
  apply orb_false_iff. split; apply Z.ltb_ge; lia.
Qed.

Lemma PoissonSimple_ctor_inv cutoff C D p :
  PoissonSimple.ctor cutoff C D = Ret p ->
  poisson_guard_rejects C D = false /\
  PoissonSimple.C p = C /\ PoissonSimple.D p = D /\
  scheme (sbase (PoissonSimple.base p)) = poisson /\
  name (sbase (PoissonSimple.base p)) = "poisson"%string /\
  engine_built (PoissonSimple.base p) /\
  exists d1 s1 s0,
    PoissonSimple.short_range_function_derivative p 1 = Ret d1 /\
    PoissonSimple.short_range_function p 1 = Ret s1 /\
    PoissonSimple.short_range_function p 0 = Ret s0 /\
    T0 (sbase (PoissonSimple.base p)) = d1 - s1 + s0.
Proof.
  unfold PoissonSimple.ctor. destruct (poisson_guard_rejects C D); [discriminate|].
  set (this := PoissonSimple.mk _ C D).
  destruct (PoissonSimple.short_range_function_derivative this 1) as [d1| |] eqn:Ed;
    cbn [bind]; try discriminate.
  destruct (PoissonSimple.short_range_function this 1) as [s1| |] eqn:E1;
    cbn [bind]; try discriminate.
  destruct (PoissonSimple.short_range_function this 0) as [s0| |] eqn:E0;
    cbn [bind]; try discriminate.
  intro Hp. injection Hp as <-.
  repeat split; try reflexivity.
  exists d1, s1, s0. repeat split; [exact Ed | exact E1 | exact E0].
Qed.

Lemma Poisson_ctor_inv cutoff C D dl p :
  Poisson.ctor cutoff C D dl = Ret p ->
  poisson_guard_rejects C D = false /\
  Poisson.C p = C /\ Poisson.D p = D /\
  Poisson.yukawa p = Rltb (1 / 1000000) (Rabs (xdiv cutoff dl)) /\
  scheme (sbase (Poisson.base p)) = poisson /\
  name (sbase (Poisson.base p)) = "poisson"%string /\
  engine_built (Poisson.base p) /\
  exists d1 s1 s0,
    Poisson.short_range_function_derivative p 1 = Ret d1 /\
    Poisson.short_range_function p 1 = Ret s1 /\
    Poisson.short_range_function p 0 = Ret s0 /\
    T0 (sbase (Poisson.base p)) = d1 - s1 + s0.
Proof.
  unfold Poisson.ctor. destruct (poisson_guard_rejects C D); [discriminate|].
  destruct (binomial (unsigned_of_int (C + D)) (unsigned_of_int C)) as [b| |];
    cbn [bind]; try discriminate.
  match goal with
  | |- context [Poisson.short_range_function_derivative ?t 1] => set (this := t)
  end.
  destruct (Poisson.short_range_function_derivative this 1) as [d1| |] eqn:Ed;
    cbn [bind]; try discriminate.
  destruct (Poisson.short_range_function this 1) as [s1| |] eqn:E1;
    cbn [bind]; try discriminate.
  destruct (Poisson.short_range_function this 0) as [s0| |] eqn:E0;
    cbn [bind]; try discriminate.
  intro Hp. injection Hp as <-.
  repeat split; try reflexivity.
  exists d1, s1, s0. repeat split; [exact Ed | exact E1 | exact E0].
Qed.

(** *** They return for [1 <= C, D <= 33] *)

Lemma PoissonSimple_s_defined t q :
  (1 <= PoissonSimple.C t <= 34)%Z -> (1 <= PoissonSimple.D t <= 34)%Z ->
  defined (PoissonSimple.short_range_function t q).
Proof.
  intros HC HD. unfold PoissonSimple.short_range_function.
  apply defined_bind; [|intro; apply defined_Ret].
  apply for_loopM_defined_range; [lia|]. intros c a Hc.
  apply defined_bind; [|intro; apply defined_Ret].
  apply binomial_defined_in_loop; lia.
Qed.

Lemma PoissonSimple_ds_defined_general t q :
  (1 <= PoissonSimple.C t <= 34)%Z -> (1 <= PoissonSimple.D t <= 34)%Z ->
  defined (PoissonSimple.short_range_function_derivative t q).
Proof.
  intros HC HD. unfold PoissonSimple.short_range_function_derivative.
  apply defined_bind; [|intros [tmp1 tmp2]; apply defined_Ret].
  apply for_loopM_defined_range; [lia|]. intros c [tmp1 tmp2] Hc.
  apply defined_bind; [apply binomial_defined_in_loop; lia|]. intro b1.
  apply defined_bind; [apply binomial_defined_in_loop; lia|]. intro b2.
  apply defined_Ret.
Qed.

Lemma Poisson_s_defined t q :
  (1 <= Poisson.C t <= 34)%Z -> (1 <= Poisson.D t <= 34)%Z ->
  defined (Poisson.short_range_function t q).
Proof.
  intros HC HD. unfold Poisson.short_range_function. cbv zeta.
  apply defined_bind; [|intro; apply defined_Ret].
  apply for_loopM_defined_range; [lia|]. intros c a Hc.
  apply defined_bind; [|intro; apply defined_Ret].
  apply binomial_defined_in_loop; lia.
Qed.

Lemma Poisson_ds_defined_general t q :
  (1 <= Poisson.C t <= 34)%Z -> (1 <= Poisson.D t <= 34)%Z ->
  defined (Poisson.short_range_function_derivative t q).
Proof.
  intros HC HD. unfold Poisson.short_range_function_derivative.
  destruct (Poisson.yukawa t); cbv iota beta zeta;
    (apply defined_bind; [|intros [tmp1 tmp2]; apply defined_Ret]);
    (apply for_loopM_defined_range; [lia|]); intros c [tmp1 tmp2] Hc;
    (apply defined_bind; [apply binomial_defined_in_loop; lia|]); intro b;
    apply defined_Ret.
Qed.

(** [PoissonSimple(cutoff, C, D)] is constructed for [1 <= C, D <= 34]. *)
Lemma PoissonSimple_ctor_returns cutoff C D :
  (1 <= C <= 34)%Z -> (1 <= D <= 34)%Z ->
  exists p, PoissonSimple.ctor cutoff C D = Ret p.
Proof.
  intros HC HD. unfold PoissonSimple.ctor.
  rewrite poisson_guard_accepts by lia. cbv zeta.
  match goal with
  | |- context [PoissonSimple.short_range_function_derivative ?t 1] =>
      destruct (PoissonSimple_ds_defined_general t 1 HC HD) as [d1 Hd1];
      destruct (PoissonSimple_s_defined t 1 HC HD) as [s1 Hs1];
      destruct (PoissonSimple_s_defined t 0 HC HD) as [s0 Hs0]
  end.
  rewrite Hd1, bind_Ret_l, Hs1, bind_Ret_l, Hs0, bind_Ret_l.
  eexists. reflexivity.
Qed.

(** [Poisson(cutoff, C, D, debye_length)] is constructed for
    [1 <= C, D <= 33]. *)
Lemma Poisson_ctor_returns cutoff C D dl :
  (1 <= C <= 33)%Z -> (1 <= D <= 33)%Z ->
  exists p, Poisson.ctor cutoff C D dl = Ret p.
Proof.
  intros HC HD. unfold Poisson.ctor.
  rewrite poisson_guard_accepts by lia. cbv zeta.
  destruct (proj2 (binomial_C_plus_D_defined_iff C D ltac:(lia) ltac:(lia) ltac:(lia))
              ltac:(lia)) as [b Hb].
  rewrite Hb, bind_Ret_l.
  match goal with
  | |- context [Poisson.short_range_function_derivative ?t 1] =>
      destruct (Poisson_ds_defined_general t 1 ltac:(cbn [Poisson.C]; lia)
                  ltac:(cbn [Poisson.D]; lia)) as [d1 Hd1];
      destruct (Poisson_s_defined t 1 ltac:(cbn [Poisson.C]; lia)
                  ltac:(cbn [Poisson.D]; lia)) as [s1 Hs1];
      destruct (Poisson_s_defined t 0 ltac:(cbn [Poisson.C]; lia)
                  ltac:(cbn [Poisson.D]; lia)) as [s0 Hs0]
  end.
  rewrite Hd1, bind_Ret_l, Hs1, bind_Ret_l, Hs0, bind_Ret_l.
  eexists. reflexivity.
Qed.

Lemma PoissonSimple_ctor_1_1 cutoff : exists p,
  PoissonSimple.ctor cutoff 1 1 = Ret p /\ PoissonSimple.C p = 1%Z /\ PoissonSimple.D p = 1%Z.
Proof.
  destruct (PoissonSimple_ctor_returns cutoff 1 1) as [p Hp]; [lia | lia |].
  exists p. split; [exact Hp|]. apply PoissonSimple_ctor_inv in Hp. tauto.
Qed.

Lemma constructors_build_engine :
  (forall d, engine_built (Plain.base (Plain.ctor d))) /\
  (forall c a eps d, engine_built (Ewald.base (Ewald.ctor c a eps d))) /\
  (forall c a, engine_built (Wolf.base (Wolf.ctor c a))) /\
  (forall c order, engine_built (qPotential.base (qPotential.ctor c order))) /\
  (forall c, engine_built (Fanourgakis.base (Fanourgakis.ctor c))) /\
  (forall c C D p, PoissonSimple.ctor c C D = Ret p ->
     engine_built (PoissonSimple.base p)) /\
  (forall c C D dl p, Poisson.ctor c C D dl = Ret p -> engine_built (Poisson.base p)).
Proof.
  split; [intro; split; reflexivity|].
  split; [intros; split; reflexivity|].
  split; [intros; split; reflexivity|].
  split; [intros; split; reflexivity|].
  split; [intros; split; reflexivity|].
  split.
  - intros c C D p Hp. apply PoissonSimple_ctor_inv in Hp. tauto.
  - intros c C D dl p Hp. apply Poisson_ctor_inv in Hp. tauto.
Qed.

(** ** Fanourgakis and Poisson with [C = 4], [D = 3] *)

Section Poisson_4_3.

Variable p : Poisson.t.
Hypothesis HC : Poisson.C p = 4%Z.
Hypothesis HD : Poisson.D p = 3%Z.
Hypothesis Hy : Poisson.yukawa p = false.
Hypothesis Hb : Poisson.binomCDC p = 105.

Lemma poisson_4_3_s q :
  Poisson.short_range_function p q =
  Ret (powi (1 - q) 4 * (1 + 2.25 * q + 3 * q * q + 2.5 * q * q * q)).
Proof.
  unfold Poisson.short_range_function. rewrite HC, HD, Hy.
  unroll_loops. f_equal. unfold powi. eval_ints. lra.
Qed.

Lemma poisson_4_3_ds q :
  Poisson.short_range_function_derivative p q =
  Ret (-1.75 + 26.25 * powi q 4 - 42 * powi q 5 + 17.5 * powi q 6).
Proof.
  unfold Poisson.short_range_function_derivative. rewrite HC, HD, Hy.
  unroll_loops. f_equal. unfold powi. eval_ints. lra.
Qed.

Lemma poisson_4_3_dds q :
  Poisson.short_range_function_second_derivative p q =
  Ret (105 * powi q 3 * powi (q - 1) 2).
Proof.
  unfold Poisson.short_range_function_second_derivative. rewrite HC, HD, Hy, Hb.
  cbn [bind]. f_equal. unfold powi. eval_ints. lra.
Qed.

Lemma poisson_4_3_ddds q :
  Poisson.short_range_function_third_derivative p q =
  Ret (525 * powi q 2 * (q - 0.6) * (q - 1)).
Proof.
  unfold Poisson.short_range_function_third_derivative. rewrite HC, HD, Hy, Hb.
  cbn [bind]. f_equal. unfold powi. eval_ints. lra.
Qed.

End Poisson_4_3.

(** C3.  [Poisson(cutoff, 4, 3)] (no screening) is constructed without
    error, and its splitting function and first three derivatives return,
    at every [q], what those of [Fanourgakis(cutoff)] return. *)
Theorem fanourgakis_equals_poisson_4_3 (cutoff : R) :
  exists p : Poisson.t,
    Poisson.ctor cutoff 4 3 Inf = Ret p /\
    forall q : R,
      let f := Fanourgakis.ctor cutoff in
      Poisson.short_range_function p q = Ret (Fanourgakis.short_range_function f q) /\
      Poisson.short_range_function_derivative p q =
        Ret (Fanourgakis.short_range_function_derivative f q) /\
      Poisson.short_range_function_second_derivative p q =
        Ret (Fanourgakis.short_range_function_second_derivative f q) /\
      Poisson.short_range_function_third_derivative p q =
        Ret (Fanourgakis.short_range_function_third_derivative f q).
Proof.
  unfold Poisson.ctor. cbn [poisson_guard_rejects Z.ltb Z.compare Pos.compare orb xdiv].
  rewrite Rltb_small_zero. eval_binomials.
  rewrite poisson_4_3_ds, poisson_4_3_s, poisson_4_3_s by reflexivity.
  cbn [bind]. eexists. split; [reflexivity|].
  intro q. cbv zeta. repeat split.
  - apply poisson_4_3_s; reflexivity.
  - apply poisson_4_3_ds; reflexivity.
  - apply poisson_4_3_dds; reflexivity.
  - apply poisson_4_3_ddds; reflexivity.
Qed.

(** ** T0 *)

(** C4 (amended).  Plain, Wolf, qPotential, Fanourgakis, and PoissonSimple
    and Poisson whenever their constructor returns, store
    [T0 = s'(1) - s(1) + s(0)] for their own splitting function.  Ewald
    stores a value that depends on [eps_sur] alone: 1 when [eps_sur] is
    infinite or below 1, and [2 (eps_sur - 1) / (2 eps_sur + 1)] otherwise. *)
Theorem T0_of_constructors :
  (forall d, let p := Plain.ctor d in
     T0 (sbase (Plain.base p)) =
     Plain.short_range_function_derivative p 1 - Plain.short_range_function p 1
     + Plain.short_range_function p 0) /\
  (forall c a, let p := Wolf.ctor c a in
     T0 (sbase (Wolf.base p)) =
     Wolf.short_range_function_derivative p 1 - Wolf.short_range_function p 1
     + Wolf.short_range_function p 0) /\
  (forall c order, let p := qPotential.ctor c order in
     T0 (sbase (qPotential.base p)) =
     qPotential.short_range_function_derivative p 1 - qPotential.short_range_function p 1
     + qPotential.short_range_function p 0) /\
  (forall c, let p := Fanourgakis.ctor c in
     T0 (sbase (Fanourgakis.base p)) =
     Fanourgakis.short_range_function_derivative p 1 - Fanourgakis.short_range_function p 1
     + Fanourgakis.short_range_function p 0) /\
  (forall c C D p, PoissonSimple.ctor c C D = Ret p ->
     exists d1 s1 s0,
       PoissonSimple.short_range_function_derivative p 1 = Ret d1 /\
       PoissonSimple.short_range_function p 1 = Ret s1 /\
       PoissonSimple.short_range_function p 0 = Ret s0 /\
       T0 (sbase (PoissonSimple.base p)) = d1 - s1 + s0) /\
  (forall c C D dl p, Poisson.ctor c C D dl = Ret p ->
     exists d1 s1 s0,
       Poisson.short_range_function_derivative p 1 = Ret d1 /\
       Poisson.short_range_function p 1 = Ret s1 /\
       Poisson.short_range_function p 0 = Ret s0 /\
       T0 (sbase (Poisson.base p)) = d1 - s1 + s0) /\
  (forall c a eps dl,
     T0 (sbase (Ewald.base (Ewald.ctor c a eps dl))) =
     match eps with
     | Inf => 1
     | Fin v => if Rlt_dec v 1 then 1 else 2 * (v - 1) / (2 * v + 1)
     end).
Proof.
  repeat split; try reflexivity.
  - intros c C D p Hp. apply PoissonSimple_ctor_inv in Hp. tauto.
  - intros c C D dl p Hp. apply Poisson_ctor_inv in Hp. tauto.
  - intros c a eps dl. destruct eps as [v|]; [|reflexivity].
    cbn. destruct (Rlt_dec v 1); reflexivity.
Qed.

(** The claim as stated fails on Ewald: two objects that differ in [eps_sur]
    only have the same splitting function and different [T0]. *)
Lemma T0_ewald_counterexample :
  ~ (let f (p : Ewald.t) :=
       Ewald.short_range_function_derivative p 1 - Ewald.short_range_function p 1
       + Ewald.short_range_function p 0 in
     let p1 := Ewald.ctor 29 0.1 Inf Inf in
     let p2 := Ewald.ctor 29 0.1 (Fin 1) Inf in
     T0 (sbase (Ewald.base p1)) = f p1 /\ T0 (sbase (Ewald.base p2)) = f p2).
Proof.
  cbv zeta. intros [H1 H2].
  assert (E1 : T0 (sbase (Ewald.base (Ewald.ctor 29 0.1 Inf Inf))) = 1) by reflexivity.
  assert (E2 : T0 (sbase (Ewald.base (Ewald.ctor 29 0.1 (Fin 1) Inf))) = 0).
  { cbn. destruct (Rlt_dec 1 1); [lra|]. lra. }
  rewrite E1 in H1. rewrite E2 in H2.
  change (Ewald.short_range_function_derivative (Ewald.ctor 29 0.1 (Fin 1) Inf) 1
          - Ewald.short_range_function (Ewald.ctor 29 0.1 (Fin 1) Inf) 1
          + Ewald.short_range_function (Ewald.ctor 29 0.1 (Fin 1) Inf) 0)
    with (Ewald.short_range_function_derivative (Ewald.ctor 29 0.1 Inf Inf) 1
          - Ewald.short_range_function (Ewald.ctor 29 0.1 Inf Inf) 1
          + Ewald.short_range_function (Ewald.ctor 29 0.1 Inf Inf) 0) in H2.
  lra.
Qed.

Lemma T0_of_constructors_witness :
  exists p, PoissonSimple.ctor 29 3 3 = Ret p /\
            exists d1 s1 s0,
              PoissonSimple.short_range_function_derivative p 1 = Ret d1 /\
              PoissonSimple.short_range_function p 1 = Ret s1 /\
              PoissonSimple.short_range_function p 0 = Ret s0 /\
              T0 (sbase (PoissonSimple.base p)) = d1 - s1 + s0.
Proof.
  destruct (PoissonSimple_ctor_returns 29 3 3) as [p Hp]; [lia | lia |].
  exists p. split; [exact Hp|].
  exact (proj1 (proj2 (proj2 (proj2 (proj2 T0_of_constructors)))) 29 3%Z 3%Z p Hp).
Defined.

(** ** Scheme tags *)

(** C10.  Every [Fanourgakis] object carries the tag [qpotential], the tag of
    every [qPotential] object; every [PoissonSimple] object carries the tag
    [poisson] and the name ["poisson"], as every [Poisson] object does. *)
Theorem stored_tags_do_not_identify_variant :
  (forall c, scheme (sbase (Fanourgakis.base (Fanourgakis.ctor c))) = qpotential) /\
  (forall c order, scheme (sbase (qPotential.base (qPotential.ctor c order))) = qpotential) /\
  (forall c C D p, PoissonSimple.ctor c C D = Ret p ->
     scheme (sbase (PoissonSimple.base p)) = poisson /\
     name (sbase (PoissonSimple.base p)) = "poisson"%string) /\
  (forall c C D dl p, Poisson.ctor c C D dl = Ret p ->
     scheme (sbase (Poisson.base p)) = poisson /\
     name (sbase (Poisson.base p)) = "poisson"%string).
Proof.
  split; [reflexivity|]. split; [reflexivity|]. split.
  - intros c C D p Hp. apply PoissonSimple_ctor_inv in Hp. tauto.
  - intros c C D dl p Hp. apply Poisson_ctor_inv in Hp. tauto.
Qed.

Lemma stored_tags_do_not_identify_variant_witness :
  exists p, PoissonSimple.ctor 29 3 3 = Ret p /\
            scheme (sbase (PoissonSimple.base p)) = poisson /\
            name (sbase (PoissonSimple.base p)) = "poisson"%string.
Proof.
  destruct (PoissonSimple_ctor_returns 29 3 3) as [p Hp]; [lia | lia |].
  exists p. split; [exact Hp|].
  exact (proj1 (proj2 (proj2 stored_tags_do_not_identify_variant)) 29 3%Z 3%Z p Hp).
Defined.

(** ** s(0) for the Poisson family at the documented boundary parameters

    The lemmas keep [C] and [D] as variables: with [D - 1] negative the
    first call of [binomial] in the loop has a wrapped argument. *)

Lemma first_binomial_undefined D :
  (-1 <= D <= 0)%Z ->
  binomial (unsigned_of_int (D - 1 + 0)) (unsigned_of_int 0) = Undef.
Proof.
  intro HD. apply binomial_undefined.
  replace (D - 1 + 0)%Z with (D - 1)%Z by lia.
  rewrite (unsigned_of_int_neg (D - 1)) by (unfold two32; lia).
  rewrite (unsigned_of_int_id 0) by (unfold two32; lia).
  rewrite unsigned_of_int_id by (unfold two32; lia).
  unfold two32. lia.
Qed.

Lemma PoissonSimple_s_undefined t q :
  (1 <= PoissonSimple.C t)%Z -> (-1 <= PoissonSimple.D t <= 0)%Z ->
  PoissonSimple.short_range_function t q = Undef.
Proof.
  intros HC HD. unfold PoissonSimple.short_range_function.
  rewrite for_loopM_step by lia. cbv beta.
  rewrite first_binomial_undefined by exact HD.
  rewrite !bind_Undef_l. reflexivity.
Qed.

Lemma Poisson_s_undefined t q :
  (1 <= Poisson.C t)%Z -> (-1 <= Poisson.D t <= 0)%Z ->
  Poisson.short_range_function t q = Undef.
Proof.
  intros HC HD. unfold Poisson.short_range_function. cbv zeta.
  rewrite for_loopM_step by lia. cbv beta.
  rewrite first_binomial_undefined by exact HD.
  rewrite !bind_Undef_l. reflexivity.
Qed.

Lemma PoissonSimple_ds_defined t q :
  (PoissonSimple.C t <= 1)%Z ->
  defined (PoissonSimple.short_range_function_derivative t q).
Proof.
  intro HC. unfold PoissonSimple.short_range_function_derivative.
  rewrite for_loopM_done by lia. rewrite bind_Ret_l. eexists. reflexivity.
Qed.

Lemma Poisson_ds_defined t q :
  (Poisson.C t <= 1)%Z ->
  defined (Poisson.short_range_function_derivative t q).
Proof.
  intro HC. unfold Poisson.short_range_function_derivative.
  destruct (Poisson.yukawa t); cbv iota beta zeta;
    rewrite for_loopM_done by lia; rewrite bind_Ret_l; eexists; reflexivity.
Qed.

Lemma PoissonSimple_ctor_undefined cutoff C D :
  C = 1%Z -> (-1 <= D <= 0)%Z -> PoissonSimple.ctor cutoff C D = Undef.
Proof.
  intros HC HD. unfold PoissonSimple.ctor.
  rewrite poisson_guard_accepts by lia. cbv zeta.
  match goal with
  | |- context [PoissonSimple.short_range_function_derivative ?t 1] =>
      destruct (PoissonSimple_ds_defined t 1) as [d Hd];
        [cbn [PoissonSimple.C]; lia | rewrite Hd];
      rewrite bind_Ret_l;
      rewrite (PoissonSimple_s_undefined t 1)
        by (cbn [PoissonSimple.C PoissonSimple.D]; lia)
  end.
  rewrite bind_Undef_l. reflexivity.
Qed.

Lemma Poisson_ctor_undefined cutoff C D dl :
  C = 1%Z -> (-1 <= D <= 0)%Z -> Poisson.ctor cutoff C D dl = Undef.
Proof.
  intros HC HD. unfold Poisson.ctor.
  rewrite poisson_guard_accepts by lia. cbv zeta.
  destruct (binomial (unsigned_of_int (C + D)) (unsigned_of_int C)) as [b| |] eqn:Eb.
  - rewrite bind_Ret_l.
    match goal with
    | |- context [Poisson.short_range_function_derivative ?t 1] =>
        destruct (Poisson_ds_defined t 1) as [d Hd];
          [cbn [Poisson.C]; lia | rewrite Hd];
        rewrite bind_Ret_l;
        rewrite (Poisson_s_undefined t 1) by (cbn [Poisson.C Poisson.D]; lia)
    end.
    rewrite bind_Undef_l. reflexivity.
  - exfalso. exact (binomial_never_raises _ _ _ Eb).
  - reflexivity.
Qed.

(** C6, at the failing input.  With [C = 1] and [D = -1] (listed as plain
    Coulomb) or [D = 0] (listed as undamped Wolf), both accepted by the
    guard, the first round of the loop of [short_range_function] calls
    [binomial(D - 1, 0)] with [D - 1] wrapped to [2^32 - 2] or [2^32 - 1];
    the factorial of that is [0] modulo [2^32] and is used as a divisor.  So
    [s(0)] is undefined there, and neither constructor returns. *)
Theorem poisson_boundary_parameters_undefined :
  poisson_guard_rejects 1 (-1) = false /\
  poisson_guard_rejects 1 0 = false /\
  (forall e, PoissonSimple.short_range_function (PoissonSimple.mk e 1 (-1)) 0 = Undef) /\
  (forall e, PoissonSimple.short_range_function (PoissonSimple.mk e 1 0) 0 = Undef) /\
  (forall cutoff, PoissonSimple.ctor cutoff 1 (-1) = Undef) /\
  (forall cutoff, PoissonSimple.ctor cutoff 1 0 = Undef) /\
  (forall cutoff dl, Poisson.ctor cutoff 1 (-1) dl = Undef) /\
  (forall cutoff dl, Poisson.ctor cutoff 1 0 dl = Undef).
Proof.
  split; [apply poisson_guard_accepts; lia|].
  split; [apply poisson_guard_accepts; lia|].
  split.
  { intro e. apply PoissonSimple_s_undefined; cbn [PoissonSimple.C PoissonSimple.D]; lia. }
  split.
  { intro e. apply PoissonSimple_s_undefined; cbn [PoissonSimple.C PoissonSimple.D]; lia. }
  split; [intro c; apply PoissonSimple_ctor_undefined; lia|].
  split; [intro c; apply PoissonSimple_ctor_undefined; lia|].
  split; intros c dl; apply Poisson_ctor_undefined; lia.
Qed.

(** ** s(0) = 1 where the code computes it *)

Section PolynomialAtZero.

Variables (C D : Z) (z : R).
Hypothesis HC : (1 <= C <= 34)%Z.
Hypothesis HD : (1 <= D <= 34)%Z.
Hypothesis Hz : z = 0.

Let body (c : Z) (tmp : R) : outcome R :=
  b <- binomial (unsigned_of_int (D - 1 + c)) (unsigned_of_int c) ;;
  Ret (tmp + IZR b * IZR (C - c) / IZR C * powi z (unsigned_of_int c)).

Lemma polynomial_tail_at_zero : forall n c0 x,
  (1 <= c0)%Z -> (c0 + Z.of_nat n = C)%Z -> for_loopM c0 C body x = Ret x.
Proof.
  induction n as [|n IH]; intros c0 x Hc0 Hsum.
  - apply for_loopM_done. lia.
  - rewrite for_loopM_step by lia. unfold body at 1.
    destruct (binomial_defined_in_loop D c0 HD ltac:(lia)) as [b Hb].
    rewrite Hb, bind_Ret_l.
    replace (powi z (unsigned_of_int c0)) with 0.
    + replace (x + IZR b * IZR (C - c0) / IZR C * 0) with x by (unfold Rdiv; ring).
      rewrite bind_Ret_l. apply IH; lia.
    + unfold powi. rewrite unsigned_of_int_id by (unfold two32; lia).
      rewrite Hz. symmetry. apply pow_i. lia.
Qed.

Lemma polynomial_at_zero : for_loopM 0 C body 0 = Ret 1.
Proof.
  rewrite for_loopM_step by lia. unfold body at 1.
  replace (D - 1 + 0)%Z with (D - 1)%Z by lia.
  rewrite binomial_n_0 by lia. rewrite bind_Ret_l.
  replace (0 + 1 * IZR (C - 0) / IZR C * powi z (unsigned_of_int 0)) with 1.
  - rewrite bind_Ret_l. apply (polynomial_tail_at_zero (Z.to_nat (C - 1))); lia.
  - unfold powi. rewrite unsigned_of_int_id by (unfold two32; lia).
    replace (C - 0)%Z with C by lia. simpl pow. field.
    apply not_0_IZR. lia.
Qed.

End PolynomialAtZero.

(** Supporting C6: the splitting function at zero reduced distance is 1 for
    Plain, Ewald, Wolf, qPotential, Fanourgakis, and for PoissonSimple and
    Poisson when [1 <= C <= 34] and [1 <= D <= 34]. *)
Lemma splitting_function_at_zero :
  (forall t, Plain.short_range_function t 0 = 1) /\
  (forall t, Ewald.short_range_function t 0 = 1) /\
  (forall t, Wolf.short_range_function t 0 = 1) /\
  (forall t, (0 <= qPotential.order t < 2147483647)%Z ->
             qPotential.short_range_function t 0 = 1) /\
  (forall t, Fanourgakis.short_range_function t 0 = 1) /\
  (forall t, (1 <= PoissonSimple.C t <= 34)%Z -> (1 <= PoissonSimple.D t <= 34)%Z ->
             PoissonSimple.short_range_function t 0 = Ret 1) /\
  (forall t, (1 <= Poisson.C t <= 34)%Z -> (1 <= Poisson.D t <= 34)%Z ->
             Poisson.short_range_function t 0 = Ret 1).
Proof.
  split; [reflexivity|]. split; [|split; [|split; [|split; [|split]]]].
  - intro t. unfold Ewald.short_range_function.
    replace (Ewald.alphaRed t * 0 + Ewald.beta t) with (Ewald.beta t) by ring.
    replace (Ewald.alphaRed t * 0 - Ewald.beta t) with (- Ewald.beta t) by ring.
    replace (4 * Ewald.alphaRed t * Ewald.beta t * 0) with 0 by ring.
    rewrite exp_0. pose proof (Cmath_erfc_reflect (Ewald.beta t)). lra.
  - intro t. unfold Wolf.short_range_function.
    replace (Wolf.alphaRed t * 0) with 0 by ring. rewrite Cmath_erfc_0. ring.
  - intros t Ht. unfold qPotential.short_range_function.
    rewrite qPochhammerSymbol_is_product by lia.
    apply product_spec_at_zero. lia.
  - intro t. unfold Fanourgakis.short_range_function, powi. simpl. lra.
  - intros t HC HD. unfold PoissonSimple.short_range_function.
    rewrite (polynomial_at_zero _ _ 0 HC HD eq_refl), bind_Ret_l.
    unfold powi. replace (1 - 0) with 1 by ring. rewrite pow1. f_equal. ring.
  - intros t HC HD. unfold Poisson.short_range_function. cbv zeta.
    assert (Hqp : (if Poisson.yukawa t
                   then (1 - exp (2 * Poisson.kappaRed t * 0)) * Poisson.yukawa_denom t
                   else 0) = 0).
    { destruct (Poisson.yukawa t); [|reflexivity].
      replace (2 * Poisson.kappaRed t * 0) with 0 by ring. rewrite exp_0. ring. }
    rewrite (polynomial_at_zero _ _ _ HC HD Hqp), bind_Ret_l.
    rewrite Hqp. unfold powi. replace (1 - 0) with 1 by ring. rewrite pow1. f_equal. ring.
Qed.

(** ** Where the derivatives of PoissonSimple are defined *)

(** C9 (amended).  The guard accepts every [C >= 1] and [D >= -1].  On that
    domain (with [C], [D] and [C + D] in the range of [int]) the second and
    the third derivative of PoissonSimple return a value exactly when
    [0 <= D <= 33] and [C <= 33].  At [D = -1] the argument [n - k = -1] of
    [factorial] inside [binomial(C + D, C)] wraps to [2^32 - 1], whose
    factorial is [0] modulo [2^32] and is used as a divisor: undefined.  The
    negative exponents [D - 1], [D - 2], [C - 2] passed to [powi] are
    converted modulo [2^32] and do not make the result undefined. *)
Theorem poisson_simple_derivatives_defined_iff
  (e : EnergyImplementation) (C D : Z) (q : R) :
  (1 <= C < 2147483648)%Z -> (-1 <= D < 2147483648)%Z -> (C + D < 2147483648)%Z ->
  let this := PoissonSimple.mk e C D in
  poisson_guard_rejects C D = false /\
  (defined (PoissonSimple.short_range_function_second_derivative this q)
   <-> (0 <= D <= 33)%Z /\ (C <= 33)%Z) /\
  (defined (PoissonSimple.short_range_function_third_derivative this q)
   <-> (0 <= D <= 33)%Z /\ (C <= 33)%Z).
Proof.
  intros HC HD HCD this. split; [|split].
  - unfold poisson_guard_rejects. apply orb_false_iff. split; apply Z.ltb_ge; lia.
  - unfold PoissonSimple.short_range_function_second_derivative.
    cbn [this PoissonSimple.C PoissonSimple.D].
    rewrite defined_bind_Ret. apply binomial_C_plus_D_defined_iff; assumption.
  - unfold PoissonSimple.short_range_function_third_derivative.
    cbn [this PoissonSimple.C PoissonSimple.D].
    rewrite defined_bind_Ret. apply binomial_C_plus_D_defined_iff; assumption.
Qed.

Lemma poisson_simple_derivatives_defined_iff_witness :
  defined (PoissonSimple.short_range_function_second_derivative
             (PoissonSimple.mk (EnergyImplementation_ctor poisson (Fin 29) Inf) 3 3) 0.5).
Proof.
  apply (poisson_simple_derivatives_defined_iff
           (EnergyImplementation_ctor poisson (Fin 29) Inf) 3 3 0.5); lia.
Defined.

(** [PoissonSimple(29, 1, 1)] is constructed; its third derivative passes
    [D - 2 = -1] and [C - 2 = -1] to [powi] and still returns a value. *)
Lemma negative_exponents_still_defined :
  exists p,
    PoissonSimple.ctor 29 1 1 = Ret p /\
    (PoissonSimple.D p - 2 < 0)%Z /\ (PoissonSimple.C p - 2 < 0)%Z /\
    defined (PoissonSimple.short_range_function_third_derivative p 0.5).
Proof.
  destruct (PoissonSimple_ctor_1_1 29) as [p (Hp & HC & HD)].
  exists p. split; [exact Hp|]. rewrite HC, HD. split; [lia|]. split; [lia|].
  unfold PoissonSimple.short_range_function_third_derivative. rewrite HC, HD.
  eval_binomials. eexists. reflexivity.
Qed.

(** ** Screening *)

(** C8 (amended).  For the Plain scheme, a charge [z <> 0], a distance
    [r > 0] and a finite Debye length [lambda > 0], the ion potential with
    screening is strictly smaller in magnitude than the one without. *)
Theorem plain_screened_potential_smaller (lambda z r : R) :
  0 < lambda -> z <> 0 -> 0 < r ->
  exists vs vu,
    ion_potential (Plain.ctor (Fin lambda)) z r = Ret vs /\
    ion_potential (Plain.ctor Inf) z r = Ret vu /\
    Rabs vs < Rabs vu.
Proof.
  intros Hl Hz Hr. unfold ion_potential. cbn.
  eexists. eexists. split; [reflexivity|]. split; [reflexivity|].
  unfold Plain.short_range_function.
  replace (- 0 * r) with 0 by ring. rewrite exp_0.
  assert (Hzr : 0 < Rabs (z / r)).
  { apply Rabs_pos_lt. unfold Rdiv. apply Rmult_integral_contrapositive_currified;
      [exact Hz | apply Rinv_neq_0_compat; lra]. }
  assert (Hneg : - (1 / lambda) * r < 0).
  { assert (0 < 1 / lambda) by (apply Rdiv_lt_0_compat; lra). nra. }
  assert (He : exp (- (1 / lambda) * r) < 1).
  { apply Rlt_le_trans with (exp 0); [apply exp_increasing; exact Hneg|].
    rewrite exp_0. lra. }
  pose proof (exp_pos (- (1 / lambda) * r)) as Hp.
  replace (z / r * 1 * exp (- (1 / lambda) * r))
    with (z / r * exp (- (1 / lambda) * r)) by ring.
  replace (z / r * 1 * 1) with (z / r) by ring.
  rewrite Rabs_mult. rewrite (Rabs_pos_eq (exp _)) by lra.
  nra.
Qed.

Lemma plain_screened_potential_smaller_witness :
  exists vs vu,
    ion_potential (Plain.ctor (Fin 23)) 2 23 = Ret vs /\
    ion_potential (Plain.ctor Inf) 2 23 = Ret vu /\
    Rabs vs < Rabs vu.
Proof.
  apply (plain_screened_potential_smaller 23 2 23); lra.
Defined.

(** [Poisson(cutoff = 1, C = 1, D = 3)] with Debye length 2 and without
    screening, unit charge at [r = 1/2]: the screened potential is the
    larger one. *)
Lemma poisson_screened_potential_larger :
  exists ps pu vs vu,
    Poisson.ctor 1 1 3 (Fin 2) = Ret ps /\
    Poisson.ctor 1 1 3 Inf = Ret pu /\
    ion_potential ps 1 (1 / 2) = Ret vs /\
    ion_potential pu 1 (1 / 2) = Ret vu /\
    Rabs vu < Rabs vs.
Proof.
  unfold Poisson.ctor. cbn [poisson_guard_rejects Z.ltb Z.compare Pos.compare orb xdiv].
  rewrite Rltb_small_zero, Rltb_small_half. eval_binomials.
  unfold Poisson.short_range_function_derivative, Poisson.short_range_function.
  cbn [Poisson.C Poisson.D Poisson.yukawa Poisson.kappaRed Poisson.yukawa_denom].
  cbv iota beta zeta. unroll_loops.
  eexists. eexists. eexists. eexists.
  split; [reflexivity|]. split; [reflexivity|].
  unfold ion_potential.
  cbn [impl srf Poisson.scheme Poisson.base sbase cutoff set_T0 set_self_energy_prefactor
       set_doi set_name on_base EnergyImplementation_ctor SchemeBase_ctor
       invcutoff kappa xinv].
  rewrite (xlt_true (1 / 2) 1) by lra.
  unfold Poisson.short_range_function.
  cbn [Poisson.C Poisson.D Poisson.yukawa Poisson.kappaRed Poisson.yukawa_denom].
  cbv iota beta zeta. unroll_loops.
  split; [reflexivity|]. split; [reflexivity|].
  unfold powi. eval_ints.
  replace (2 * (1 / 2) * (1 / 2 * (1 / 1))) with (1 / 2) by lra.
  replace (2 * (1 / 2)) with (1 / 2 + 1 / 2) by lra.
  rewrite exp_plus.
  replace (- 0 * (1 / 2)) with 0 by ring. rewrite exp_0.
  replace (- (1 / 2) * (1 / 2)) with (- (1 / 4)) by lra.
  pose proof (exp_ineq1_le (1 / 2)) as Ht.
  pose proof (exp_ineq1_le (- (1 / 4))) as Hu.
  set (t := exp (1 / 2)) in *. set (u := exp (- (1 / 4))) in *.
  assert (Hw : 1 - (1 - t) * (1 / (1 - t * t)) = t / (1 + t)) by (field; nra).
  rewrite Hw.
  assert (Hw35 : 3 / 5 <= t / (1 + t)).
  { apply Rmult_le_reg_r with (1 + t); [lra|].
    replace (t / (1 + t) * (1 + t)) with t by (field; lra). lra. }
  set (w := t / (1 + t)) in *.
  assert (Hw2 : 9 / 25 <= w * w) by nra.
  assert (Hw4 : 81 / 625 <= w ^ 4) by (simpl; nra).
  replace (1 / (1 / 2) * ((1 - 1 / 2 * (1 / 1)) ^ 4
                          * (0 + 1 * 1 / 1 * (1 / 2 * (1 / 1)) ^ 0)) * 1)
    with (1 / 8) by (simpl; field).
  replace (1 / (1 / 2) * (w ^ 4 * (0 + 1 * 1 / 1 * ((1 - t) * (1 / (1 - t * t))) ^ 0)) * u)
    with (2 * w ^ 4 * u) by (simpl; field).
  set (w4 := w ^ 4) in *.
  rewrite (Rabs_pos_eq (1 / 8)) by lra.
  rewrite (Rabs_pos_eq (2 * w4 * u)) by nra.
  nra.
Qed.

(** ** The embedding against values of the test suite *)

Example test_qPochhammerSymbol : qPochhammerSymbol 0.75 0 2 = 0.109375.
Proof. unfold qPochhammerSymbol. run_loops. unfold powi. eval_ints. simpl. lra. Qed.

Example test_qPochhammerSymbolDerivative : qPochhammerSymbolDerivative 0.75 0 2 = -0.8125.
Proof.
  unfold qPochhammerSymbolDerivative. run_loops. eval_tests. unfold powi. eval_ints.
  simpl pow. field_simplify; lra.
Qed.

Example test_qPochhammerSymbolSecondDerivative :
  qPochhammerSymbolSecondDerivative 0.75 0 2 = 2.5.
Proof.
  unfold qPochhammerSymbolSecondDerivative. run_loops. eval_tests. unfold powi. eval_ints.
  simpl pow. field_simplify; lra.
Qed.

Example test_qPochhammerSymbolThirdDerivative :
  qPochhammerSymbolThirdDerivative 0.75 0 2 = 6.
Proof.
  unfold qPochhammerSymbolThirdDerivative. run_loops. eval_tests. unfold powi. eval_ints.
  simpl pow. field_simplify; lra.
Qed.

Example test_Old_qPochhammerSymbol : Old.qPochhammerSymbol 0.5 1 3 = 0.328125.
Proof. unfold Old.qPochhammerSymbol. run_loops. simpl. lra. Qed.

Example test_Plain_ion_potential : ion_potential (Plain.ctor Inf) 2 30 = Ret (2 / 30).
Proof.
  unfold ion_potential. cbn. f_equal. unfold Plain.short_range_function.
  replace (- 0 * 30) with 0 by ring. rewrite exp_0. ring.
Qed.

Section TestPoisson33.

Variable e : EnergyImplementation.
Let pot33 := PoissonSimple.mk e 3 3.

Example test_poisson_3_3 :
  PoissonSimple.short_range_function pot33 0.5 = Ret 0.15625 /\
  PoissonSimple.short_range_function_derivative pot33 0.5 = Ret (-1) /\
  PoissonSimple.short_range_function_second_derivative pot33 0.5 = Ret 3.75 /\
  PoissonSimple.short_range_function_third_derivative pot33 0.6 = Ret (-5.76).
Proof.
  unfold PoissonSimple.short_range_function, PoissonSimple.short_range_function_derivative,
    PoissonSimple.short_range_function_second_derivative,
    PoissonSimple.short_range_function_third_derivative.
  cbn [pot33 PoissonSimple.C PoissonSimple.D].
  repeat split; unroll_loops; eval_binomials; f_equal; unfold powi; eval_ints; simpl pow; lra.
Qed.

End TestPoisson33.

(** * Further properties of the engine and of the schemes *)

(** ** The engine under exchange of the particles and inversion of [r] *)

Ltac vec_eq :=
  unfold vmul, vadd, vdiv, vscale, vsub, vneg, dot, vzero; cbn [vx vy vz];
  try (f_equal; unfold Rdiv; ring).

Lemma dot_vneg_r a b : dot a (vneg b) = - dot a b.
Proof. unfold dot, vneg; cbn [vx vy vz]; ring. Qed.

Section Exchange.

Context {T : Type} `{SplittingScheme T}.
Variable this : T.

Lemma dipole_potential_odd mu r :
  dipole_potential this mu (vneg r) = fmap Ropp (dipole_potential this mu r).
Proof.
  unfold dipole_potential, fmap. cbv zeta. rewrite squaredNorm_vneg, dot_vneg_r.
  destruct (xlt _ _); [|cbn [bind]; f_equal; ring].
  destruct (srf this _) as [s| |]; cbn [bind]; try reflexivity.
  destruct (dsrf this _) as [d| |]; cbn [bind]; try reflexivity.
  f_equal. unfold Rdiv. ring.
Qed.

Lemma ion_field_odd z r :
  ion_field this z (vneg r) = fmap vneg (ion_field this z r).
Proof.
  unfold ion_field, fmap. cbv zeta. rewrite squaredNorm_vneg.
  destruct (xlt _ _); [|cbn [bind]; f_equal; vec_eq].
  destruct (srf this _) as [s| |]; cbn [bind]; try reflexivity.
  destruct (dsrf this _) as [d| |]; cbn [bind]; try reflexivity.
  f_equal. vec_eq.
Qed.

Lemma dipole_field_even mu r :
  dipole_field this mu (vneg r) = dipole_field this mu r.
Proof.
  unfold dipole_field. cbv zeta. rewrite squaredNorm_vneg, dot_vneg_r.
  destruct (xlt _ _); [|reflexivity].
  destruct (srf this _) as [s| |]; cbn [bind]; try reflexivity.
  destruct (dsrf this _) as [d| |]; cbn [bind]; try reflexivity.
  destruct (ddsrf this _) as [dd| |]; cbn [bind]; try reflexivity.
  f_equal. vec_eq.
Qed.

End Exchange.

(** X1.  The two expressions the source gives for the ion-dipole energy
    agree: [z * dipole_potential(mu, -r)], which the code evaluates, is
    [-mu.dot(ion_field(z, r))], for every scheme, charge, dipole and
    separation, inside and outside the cutoff, and with the same failure
    when the splitting function fails. *)
Theorem ion_dipole_energy_by_field {T : Type} `{SplittingScheme T} (this : T)
  (z : R) (mu r : vec3) :
  ion_dipole_energy this z mu r = fmap (fun E => - dot mu E) (ion_field this z r).
Proof.
  unfold ion_dipole_energy. rewrite dipole_potential_odd.
  unfold dipole_potential, ion_field, fmap. cbv zeta.
  destruct (xlt _ _); [|cbn [bind]; f_equal; vec_eq].
  destruct (srf this _) as [s| |]; cbn [bind]; try reflexivity.
  destruct (dsrf this _) as [d| |]; cbn [bind]; try reflexivity.
  f_equal. vec_eq.
Qed.

(** X2.  The dipole-dipole energy does not depend on which dipole is called
    A: exchanging the two moments, or looking along [-r] instead of [r],
    gives the same energy, for every scheme. *)
Theorem dipole_dipole_energy_exchange {T : Type} `{SplittingScheme T} (this : T)
  (muA muB r : vec3) :
  dipole_dipole_energy this muB muA r = dipole_dipole_energy this muA muB r /\
  dipole_dipole_energy this muA muB (vneg r) = dipole_dipole_energy this muA muB r.
Proof.
  split.
  - unfold dipole_dipole_energy, dipole_field, fmap. cbv zeta.
    destruct (xlt _ _); [|cbn [bind]; f_equal; vec_eq].
    destruct (srf this _) as [s| |]; cbn [bind]; try reflexivity.
    destruct (dsrf this _) as [d| |]; cbn [bind]; try reflexivity.
    destruct (ddsrf this _) as [dd| |]; cbn [bind]; try reflexivity.
    f_equal. vec_eq.
  - unfold dipole_dipole_energy. rewrite dipole_field_even. reflexivity.
Qed.

(** X3.  Action and reaction: the force on the particle at the other end of
    the separation vector is the opposite one.  [ion_ion_force] and
    [dipole_dipole_force] change sign with [r] and keep their value when the
    two particles exchange their charges or moments; [ion_dipole_force],
    built on the even [dipole_field], keeps its sign. *)
Theorem forces_action_reaction {T : Type} `{SplittingScheme T} (this : T) :
  (forall zA zB r,
     ion_ion_force this zA zB (vneg r) = fmap vneg (ion_ion_force this zA zB r) /\
     ion_ion_force this zB zA r = ion_ion_force this zA zB r) /\
  (forall muA muB r,
     dipole_dipole_force this muA muB (vneg r)
       = fmap vneg (dipole_dipole_force this muA muB r) /\
     dipole_dipole_force this muB muA r = dipole_dipole_force this muA muB r) /\
  (forall z mu r, ion_dipole_force this z mu (vneg r) = ion_dipole_force this z mu r).
Proof.
  split; [|split].
  - intros zA zB r. split.
    + unfold ion_ion_force. rewrite ion_field_odd. unfold fmap.
      destruct (ion_field this zA r); cbn [bind]; try reflexivity.
      f_equal. vec_eq.
    + unfold ion_ion_force, ion_field, fmap. cbv zeta.
      destruct (xlt _ _); [|cbn [bind]; f_equal; vec_eq].
      destruct (srf this _) as [s| |]; cbn [bind]; try reflexivity.
      destruct (dsrf this _) as [d| |]; cbn [bind]; try reflexivity.
      f_equal. vec_eq.
  - intros muA muB r. split.
    + unfold dipole_dipole_force, fmap. cbv zeta. rewrite squaredNorm_vneg.
      destruct (xlt _ _); [|cbn [bind]; f_equal; vec_eq].
      destruct (srf this _) as [s| |]; cbn [bind]; try reflexivity.
      destruct (dsrf this _) as [d| |]; cbn [bind]; try reflexivity.
      destruct (ddsrf this _) as [dd| |]; cbn [bind]; try reflexivity.
      destruct (dddsrf this _) as [ddd| |]; cbn [bind]; try reflexivity.
      f_equal. vec_eq.
    + unfold dipole_dipole_force. cbv zeta.
      destruct (xlt _ _); [|reflexivity].
      destruct (srf this _) as [s| |]; cbn [bind]; try reflexivity.
      destruct (dsrf this _) as [d| |]; cbn [bind]; try reflexivity.
      destruct (ddsrf this _) as [dd| |]; cbn [bind]; try reflexivity.
      destruct (dddsrf this _) as [ddd| |]; cbn [bind]; try reflexivity.
      f_equal. vec_eq.
  - intros z mu r. unfold ion_dipole_force. rewrite dipole_field_even. reflexivity.
Qed.

(** ** Plain: Coulomb's law *)

Lemma norm_sqr r : norm r * norm r = squaredNorm r.
Proof. unfold norm. apply sqrt_sqrt, squaredNorm_nonneg. Qed.

Ltac coulomb_form r :=
  change (sqrt (squaredNorm r)) with (norm r); rewrite <- ?(norm_sqr r);
  unfold Plain.short_range_function, Plain.short_range_function_derivative,
    Plain.short_range_function_second_derivative;
  unfold vmul, vadd, vdiv, vscale, vsub, vneg, dot, vzero; cbn [vx vy vz];
  match goal with |- Ret _ = Ret _ => apply f_equal end;
  try match goal with |- mkvec3 _ _ _ = mkvec3 _ _ _ => apply f_equal3 end;
  unfold Rdiv; simpl pow; rewrite ?Rinv_mult, ?Rinv_1; ring.

(** X4.  [Plain] never truncates and reproduces the textbook expressions
    at every separation [r <> 0]: with a Debye length the ion potential is
    the Yukawa potential [z / r * exp(-r / debye_length)]; without one the
    potential, pair energy, fields and dipole-dipole energy are those of
    Coulomb's law.  The self-energy is 0. *)
Theorem plain_is_coulomb :
  (forall dl z r, nonzero_length dl -> r <> 0 ->
     ion_potential (Plain.ctor dl) z r = Ret (z / r * exp (- xinv dl * r))) /\
  (forall z r, r <> 0 -> ion_potential (Plain.ctor Inf) z r = Ret (z / r)) /\
  (forall zA zB r, r <> 0 -> ion_ion_energy (Plain.ctor Inf) zA zB r = Ret (zA * zB / r)) /\
  (forall mu r, r <> vzero ->
     dipole_potential (Plain.ctor Inf) mu r = Ret (dot mu r / norm r ^ 3)) /\
  (forall z r, r <> vzero ->
     ion_field (Plain.ctor Inf) z r = Ret (vscale (z / norm r ^ 3) r)) /\
  (forall mu r, r <> vzero ->
     dipole_field (Plain.ctor Inf) mu r
     = Ret (vdiv (vsub (vscale (3 * dot mu r / squaredNorm r) r) mu) (norm r ^ 3))) /\
  (forall muA muB r, r <> vzero ->
     dipole_dipole_energy (Plain.ctor Inf) muA muB r
     = Ret ((dot muA muB - 3 * dot muA r * dot muB r / squaredNorm r) / norm r ^ 3)) /\
  (forall dl m2, self_energy (Plain.ctor dl) m2 = Ret 0).
Proof.
  assert (Hf : forall mu r,
     dipole_field (Plain.ctor Inf) mu r
     = Ret (vdiv (vsub (vscale (3 * dot mu r / squaredNorm r) r) mu) (norm r ^ 3))).
  { intros mu r. unfold dipole_field; cbn. rewrite Ropp_0, Rmult_0_l, exp_0.
    coulomb_form r. }
  repeat split.
  - intros dl z r _ _. unfold ion_potential; cbn. f_equal.
    unfold Plain.short_range_function. ring.
  - intros z r _. unfold ion_potential; cbn. f_equal.
    unfold Plain.short_range_function. rewrite Ropp_0, Rmult_0_l, exp_0. ring.
  - intros zA zB r _. unfold ion_ion_energy, ion_potential; cbn. f_equal.
    unfold Plain.short_range_function. rewrite Ropp_0, Rmult_0_l, exp_0. unfold Rdiv. ring.
  - intros mu r _. unfold dipole_potential; cbn. rewrite Ropp_0, Rmult_0_l, exp_0.
    coulomb_form r.
  - intros z r _. unfold ion_field; cbn. rewrite Ropp_0, Rmult_0_l, exp_0.
    coulomb_form r.
  - intros mu r _. apply Hf.
  - intros muA muB r _. unfold dipole_dipole_energy. rewrite Hf. rewrite fmap_Ret.
    coulomb_form r.
  - intros dl m2. rewrite self_energy_value. cbn. f_equal. ring.
Qed.

Lemma plain_is_coulomb_witness :
  ion_potential (Plain.ctor Inf) 2 10 = Ret (2 / 10) /\
  ion_field (Plain.ctor Inf) 2 (mkvec3 10 0 0)
  = Ret (vscale (2 / norm (mkvec3 10 0 0) ^ 3) (mkvec3 10 0 0)).
Proof.
  split.
  - apply (proj1 (proj2 plain_is_coulomb) 2 10). lra.
  - apply (proj1 (proj2 (proj2 (proj2 (proj2 plain_is_coulomb)))) 2 (mkvec3 10 0 0)).
    intro E. apply (f_equal vx) in E. cbn in E. lra.
Defined.

(** ** The domain of the Poisson constructors *)

Lemma for_loopM_defined_body {A : Type} (hi : Z) (body : Z -> A -> outcome A) :
  forall n lo init,
    (lo + Z.of_nat n = hi)%Z ->
    defined (for_loopM lo hi body init) ->
    forall c, (lo <= c < hi)%Z -> exists a, defined (body c a).
Proof.
  induction n as [|n IH]; intros lo init Hn Hdef c Hc; [lia|].
  rewrite for_loopM_step in Hdef by lia.
  destruct (body lo init) as [a| |] eqn:E.
  - rewrite bind_Ret_l in Hdef.
    destruct (Z.eq_dec c lo) as [->|Hne].
    + exists init. rewrite E. apply defined_Ret.
    + apply (IH (lo + 1)%Z a); [lia | exact Hdef | lia].
  - destruct Hdef as [x Hx]. discriminate.
  - destruct Hdef as [x Hx]. discriminate.
Qed.

Lemma for_loopM_never_raises {A : Type} (hi : Z) (body : Z -> A -> outcome A) :
  (forall c a e, body c a <> Raise e) ->
  forall n lo init e,
    (lo + Z.of_nat n = hi)%Z -> for_loopM lo hi body init <> Raise e.
Proof.
  intros Hb. induction n as [|n IH]; intros lo init e Hn.
  - rewrite for_loopM_done by lia. discriminate.
  - rewrite for_loopM_step by lia.
    destruct (body lo init) as [a| |] eqn:E.
    + rewrite bind_Ret_l. apply IH. lia.
    + exfalso. exact (Hb _ _ _ E).
    + discriminate.
Qed.

Lemma for_loopM_no_raise {A : Type} lo hi (body : Z -> A -> outcome A) init e :
  (forall c a e, body c a <> Raise e) -> for_loopM lo hi body init <> Raise e.
Proof.
  intro Hb. destruct (Z_lt_le_dec lo hi) as [Hlt|Hle].
  - apply (for_loopM_never_raises hi body Hb (Z.to_nat (hi - lo))). lia.
  - rewrite for_loopM_done by lia. discriminate.
Qed.

Lemma bind_never_raises {A B : Type} (m : outcome A) (k : A -> outcome B) e :
  (forall e, m <> Raise e) -> (forall a e, k a <> Raise e) -> bind m k <> Raise e.
Proof.
  intros Hm Hk. destruct m as [a| |]; cbn [bind].
  - apply Hk.
  - exfalso. exact (Hm _ eq_refl).
  - discriminate.
Qed.

(** The binomials of the polynomial loop are all defined only for
    [1 <= D <= 34] and [C <= 34]. *)
Lemma loop_binomials_defined_inv C D :
  (1 <= C < 2147483648)%Z -> (-1 <= D < 2147483648)%Z ->
  (forall c, (0 <= c < C)%Z ->
     defined (binomial (unsigned_of_int (D - 1 + c)) (unsigned_of_int c))) ->
  (1 <= D <= 34)%Z /\ (C <= 34)%Z.
Proof.
  intros HC HD Hall.
  assert (HD1 : (1 <= D <= 34)%Z).
  { destruct (Z_le_gt_dec D 0) as [Hle|Hgt].
    - specialize (Hall 0%Z ltac:(lia)). rewrite first_binomial_undefined in Hall by lia.
      destruct Hall as [x Hx]. discriminate.
    - split; [lia|]. specialize (Hall 0%Z ltac:(lia)).
      apply binomial_defined_iff in Hall. destruct Hall as [_ Hn].
      rewrite (unsigned_of_int_id 0) in Hn by (unfold two32; lia).
      rewrite (unsigned_of_int_id (D - 1 + 0)) in Hn by (unfold two32; lia).
      rewrite unsigned_of_int_id in Hn by (unfold two32; lia).
      destruct (Z_le_gt_dec 34 (D - 1 + 0 - 0)) as [Hbig|Hsmall]; [|lia].
      exfalso. apply Hn. apply factorial_large. exact Hbig. }
  split; [exact HD1|].
  specialize (Hall (C - 1)%Z ltac:(lia)).
  apply binomial_defined_iff in Hall. destruct Hall as [Hk _].
  rewrite unsigned_of_int_id in Hk by (unfold two32; lia).
  destruct (Z_le_gt_dec 34 (C - 1)) as [Hbig|Hsmall]; [|lia].
  exfalso. apply Hk. apply factorial_large. exact Hbig.
Qed.

Lemma PoissonSimple_s_defined_inv t q :
  (1 <= PoissonSimple.C t < 2147483648)%Z -> (-1 <= PoissonSimple.D t < 2147483648)%Z ->
  defined (PoissonSimple.short_range_function t q) ->
  (1 <= PoissonSimple.D t <= 34)%Z /\ (PoissonSimple.C t <= 34)%Z.
Proof.
  intros HC HD Hdef. unfold PoissonSimple.short_range_function in Hdef.
  apply defined_bind_Ret in Hdef.
  apply loop_binomials_defined_inv; [exact HC | exact HD |].
  intros c Hc.
  assert (Hn : (0 + Z.of_nat (Z.to_nat (PoissonSimple.C t)) = PoissonSimple.C t)%Z) by lia.
  destruct (for_loopM_defined_body _ _ _ _ _ Hn Hdef c Hc) as [a Ha].
  apply defined_bind_Ret in Ha. exact Ha.
Qed.

Lemma Poisson_s_defined_inv t q :
  (1 <= Poisson.C t < 2147483648)%Z -> (-1 <= Poisson.D t < 2147483648)%Z ->
  defined (Poisson.short_range_function t q) ->
  (1 <= Poisson.D t <= 34)%Z /\ (Poisson.C t <= 34)%Z.
Proof.
  intros HC HD Hdef. unfold Poisson.short_range_function in Hdef. cbv zeta in Hdef.
  apply defined_bind_Ret in Hdef.
  apply loop_binomials_defined_inv; [exact HC | exact HD |].
  intros c Hc.
  assert (Hn : (0 + Z.of_nat (Z.to_nat (Poisson.C t)) = Poisson.C t)%Z) by lia.
  destruct (for_loopM_defined_body _ _ _ _ _ Hn Hdef c Hc) as [a Ha].
  apply defined_bind_Ret in Ha. exact Ha.
Qed.

Lemma PoissonSimple_s_never_raises t q e : PoissonSimple.short_range_function t q <> Raise e.
Proof.
  unfold PoissonSimple.short_range_function.
  apply bind_never_raises; [|discriminate].
  intro e'. apply for_loopM_no_raise. intros c a e''.
  apply bind_never_raises; [intro; apply binomial_never_raises | discriminate].
Qed.

Lemma PoissonSimple_ds_never_raises t q e :
  PoissonSimple.short_range_function_derivative t q <> Raise e.
Proof.
  unfold PoissonSimple.short_range_function_derivative.
  apply bind_never_raises; [|intros [t1 t2]; discriminate].
  intro e'. apply for_loopM_no_raise. intros c [t1 t2] e''.
  apply bind_never_raises; [intro; apply binomial_never_raises|]. intros b1 e3.
  apply bind_never_raises; [intro; apply binomial_never_raises | discriminate].
Qed.

Lemma Poisson_s_never_raises t q e : Poisson.short_range_function t q <> Raise e.
Proof.
  unfold Poisson.short_range_function. cbv zeta.
  apply bind_never_raises; [|discriminate].
  intro e'. apply for_loopM_no_raise. intros c a e''.
  apply bind_never_raises; [intro; apply binomial_never_raises | discriminate].
Qed.

Lemma Poisson_ds_never_raises t q e :
  Poisson.short_range_function_derivative t q <> Raise e.
Proof.
  unfold Poisson.short_range_function_derivative.
  destruct (Poisson.yukawa t); cbv iota beta zeta;
    (apply bind_never_raises; [|intros [t1 t2]; discriminate]);
    intro e'; apply for_loopM_no_raise; intros c [t1 t2] e'';
    (apply bind_never_raises; [intro; apply binomial_never_raises | discriminate]).
Qed.

Lemma PoissonSimple_ctor_raise_inv cutoff C D e :
  PoissonSimple.ctor cutoff C D = Raise e ->
  poisson_guard_rejects C D = true /\ e = poisson_invalid.
Proof.
  unfold PoissonSimple.ctor. destruct (poisson_guard_rejects C D).
  - intro He. injection He as <-. split; reflexivity.
  - cbv zeta. intro He. exfalso. revert He.
    apply bind_never_raises; [intro; apply PoissonSimple_ds_never_raises|]. intros d1 e1.
    apply bind_never_raises; [intro; apply PoissonSimple_s_never_raises|]. intros s1 e2.
    apply bind_never_raises; [intro; apply PoissonSimple_s_never_raises | discriminate].
Qed.

Lemma Poisson_ctor_raise_inv cutoff C D dl e :
  Poisson.ctor cutoff C D dl = Raise e ->
  poisson_guard_rejects C D = true /\ e = poisson_invalid.
Proof.
  unfold Poisson.ctor. destruct (poisson_guard_rejects C D).
  - intro He. injection He as <-. split; reflexivity.
  - cbv zeta. intro He. exfalso. revert He.
    apply bind_never_raises; [intro; apply binomial_never_raises|]. intros b e0.
    apply bind_never_raises; [intro; apply Poisson_ds_never_raises|]. intros d1 e1.
    apply bind_never_raises; [intro; apply Poisson_s_never_raises|]. intros s1 e2.
    apply bind_never_raises; [intro; apply Poisson_s_never_raises | discriminate].
Qed.

Lemma PoissonSimple_ctor_bounds cutoff C D p :
  (C < 2147483648)%Z -> (D < 2147483648)%Z ->
  PoissonSimple.ctor cutoff C D = Ret p -> (1 <= C <= 34)%Z /\ (1 <= D <= 34)%Z.
Proof.
  intros HC HD Hp. apply PoissonSimple_ctor_inv in Hp.
  destruct Hp as (Hg & HpC & HpD & _ & _ & _ & d1 & s1 & s0 & _ & _ & Hs0 & _).
  unfold poisson_guard_rejects in Hg. apply orb_false_iff in Hg.
  destruct Hg as [Hg1 Hg2]. apply Z.ltb_ge in Hg1, Hg2.
  destruct (PoissonSimple_s_defined_inv p 0) as [H1 H2];
    [rewrite HpC; lia | rewrite HpD; lia | exists s0; exact Hs0 |].
  rewrite HpC in H2. rewrite HpD in H1. lia.
Qed.

Lemma Poisson_ctor_bounds cutoff C D dl p :
  (C < 2147483648)%Z -> (D < 2147483648)%Z ->
  Poisson.ctor cutoff C D dl = Ret p -> (1 <= C <= 33)%Z /\ (1 <= D <= 33)%Z.
Proof.
  intros HC HD Hp.
  assert (Hb : defined (binomial (unsigned_of_int (C + D)) (unsigned_of_int C))).
  { revert Hp. unfold Poisson.ctor. destruct (poisson_guard_rejects C D); [discriminate|].
    destruct (binomial (unsigned_of_int (C + D)) (unsigned_of_int C)) as [b| |];
      cbn [bind]; try discriminate.
    intros _. apply defined_Ret. }
  apply Poisson_ctor_inv in Hp.
  destruct Hp as (Hg & HpC & HpD & _ & _ & _ & _ & d1 & s1 & s0 & _ & _ & Hs0 & _).
  unfold poisson_guard_rejects in Hg. apply orb_false_iff in Hg.
  destruct Hg as [Hg1 Hg2]. apply Z.ltb_ge in Hg1, Hg2.
  destruct (Poisson_s_defined_inv p 0) as [H1 H2];
    [rewrite HpC; lia | rewrite HpD; lia | exists s0; exact Hs0 |].
  rewrite HpC in H2. rewrite HpD in H1.
  apply binomial_C_plus_D_defined_iff in Hb; lia.
Qed.

(** X5.  What the Poisson constructors do with every pair of [int]
    parameters.  [(C < 1) || (D < -1)]: they throw the [runtime_error] of the
    guard.  [1 <= C, D <= 34] for PoissonSimple, [1 <= C, D <= 33] for
    Poisson: they return an object.  Everything in between (the guard is
    passed but [D] is -1 or 0, or a parameter exceeds the bound) runs into a
    division by a factorial that is 0 modulo [2^32]: undefined behaviour, no
    exception. *)
Theorem poisson_constructors_domain (cutoff : R) (C D : Z) (dl : xreal) :
  (- 2147483648 <= C < 2147483648)%Z -> (- 2147483648 <= D < 2147483648)%Z ->
  ((C < 1)%Z \/ (D < -1)%Z ->
     PoissonSimple.ctor cutoff C D = Raise poisson_invalid /\
     Poisson.ctor cutoff C D dl = Raise poisson_invalid) /\
  ((1 <= C <= 34)%Z /\ (1 <= D <= 34)%Z <-> defined (PoissonSimple.ctor cutoff C D)) /\
  ((1 <= C <= 33)%Z /\ (1 <= D <= 33)%Z <-> defined (Poisson.ctor cutoff C D dl)) /\
  ((1 <= C)%Z -> (-1 <= D)%Z -> ~ ((C <= 34)%Z /\ (1 <= D <= 34)%Z) ->
     PoissonSimple.ctor cutoff C D = Undef) /\
  ((1 <= C)%Z -> (-1 <= D)%Z -> ~ ((C <= 33)%Z /\ (1 <= D <= 33)%Z) ->
     Poisson.ctor cutoff C D dl = Undef).
Proof.
  intros HC HD. split; [|split; [|split; [|split]]].
  - intros Hbad.
    assert (Hg : poisson_guard_rejects C D = true).
    { unfold poisson_guard_rejects. apply orb_true_iff.
      destruct Hbad; [left | right]; apply Z.ltb_lt; lia. }
    unfold PoissonSimple.ctor, Poisson.ctor. rewrite Hg. split; reflexivity.
  - split.
    + intros [H1 H2]. apply PoissonSimple_ctor_returns; assumption.
    + intros [p Hp]. apply (PoissonSimple_ctor_bounds cutoff C D p); [lia | lia | exact Hp].
  - split.
    + intros [H1 H2]. apply Poisson_ctor_returns; assumption.
    + intros [p Hp]. apply (Poisson_ctor_bounds cutoff C D dl p); [lia | lia | exact Hp].
  - intros H1 H2 Hout.
    destruct (PoissonSimple.ctor cutoff C D) as [p|e|] eqn:E; [| |reflexivity].
    + exfalso. apply Hout. apply PoissonSimple_ctor_bounds in E; lia.
    + exfalso. apply PoissonSimple_ctor_raise_inv in E. destruct E as [Hg _].
      rewrite poisson_guard_accepts in Hg by lia. discriminate.
  - intros H1 H2 Hout.
    destruct (Poisson.ctor cutoff C D dl) as [p|e|] eqn:E; [| |reflexivity].
    + exfalso. apply Hout. apply Poisson_ctor_bounds in E; lia.
    + exfalso. apply Poisson_ctor_raise_inv in E. destruct E as [Hg _].
      rewrite poisson_guard_accepts in Hg by lia. discriminate.
Qed.

Lemma poisson_constructors_domain_witness :
  defined (PoissonSimple.ctor 29 4 3) /\ defined (Poisson.ctor 29 4 3 (Fin 23)).
Proof.
  destruct (poisson_constructors_domain 29 4 3 (Fin 23)) as (_ & H1 & H2 & _); [lia | lia |].
  split; [apply H1 | apply H2]; lia.
Defined.

(** ** The splitting functions at the cutoff, [T0] and the dielectric constant *)

Lemma powi_zero_pos n : (0 < n)%Z -> powi 0 n = 0.
Proof. intro Hn. unfold powi. apply pow_i. lia. Qed.

Lemma powi_zero_unsigned n : (0 < n < two32)%Z -> powi (1 - 1) (unsigned_of_int n) = 0.
Proof.
  intro Hn. rewrite unsigned_of_int_id by lia.
  replace (1 - 1) with 0 by ring. apply powi_zero_pos. lia.
Qed.

Lemma qPochhammerSymbol_at_one l P :
  (1 <= P < 2147483648)%Z -> qPochhammerSymbol 1 l P = 0.
Proof.
  intro HP. unfold qPochhammerSymbol. cbv zeta.
  rewrite powi_zero_unsigned by (unfold two32; lia). ring.
Qed.

Lemma qPochhammerSymbolDerivative_at_one l P :
  (2 <= P < 2147483648)%Z -> qPochhammerSymbolDerivative 1 l P = 0.
Proof.
  intro HP. unfold qPochhammerSymbolDerivative. cbv zeta.
  rewrite !powi_zero_unsigned by (unfold two32; lia).
  destruct (0 <? P)%Z; ring.
Qed.

Lemma PoissonSimple_at_one t :
  (1 <= PoissonSimple.D t <= 34)%Z ->
  (forall s, PoissonSimple.short_range_function t 1 = Ret s -> s = 0) /\
  (forall d, PoissonSimple.short_range_function_derivative t 1 = Ret d -> d = 0).
Proof.
  intro HD. split.
  - intro s. unfold PoissonSimple.short_range_function.
    destruct (for_loopM _ _ _ _) as [tmp| |]; cbn [bind]; try discriminate.
    intro E. injection E as <-.
    rewrite powi_zero_unsigned by (unfold two32; lia). ring.
  - intro d. unfold PoissonSimple.short_range_function_derivative.
    destruct (for_loopM _ _ _ _) as [[tmp1 tmp2]| |]; cbn [bind]; try discriminate.
    intro E. injection E as <-.
    rewrite !powi_zero_unsigned by (unfold two32; lia). ring.
Qed.

(** The members the constructor of [Poisson] computes from [cutoff] and
    [debye_length]. *)
Lemma Poisson_ctor_fields rc C D dl p :
  Poisson.ctor rc C D dl = Ret p ->
  Poisson.kappaRed p = xdiv rc dl /\
  Poisson.yukawa p = Rltb (1 / 1000000) (Rabs (xdiv rc dl)) /\
  Poisson.yukawa_denom p
    = (if Poisson.yukawa p then 1 / (1 - exp (2 * Poisson.kappaRed p)) else 0) /\
  Poisson.kappaRed2 p
    = (if Poisson.yukawa p then Poisson.kappaRed p * Poisson.kappaRed p else 0) /\
  (exists b, binomial (unsigned_of_int (C + D)) (unsigned_of_int C) = Ret b /\
             Poisson.binomCDC p = IZR ((b * unsigned_of_int D) mod two32)) /\
  kappa (Poisson.base p) = xinv dl /\
  cutoff (sbase (Poisson.base p)) = Fin rc.
Proof.
  unfold Poisson.ctor. destruct (poisson_guard_rejects C D); [discriminate|].
  destruct (binomial (unsigned_of_int (C + D)) (unsigned_of_int C)) as [b| |];
    cbn [bind]; try discriminate.
  match goal with
  | |- context [Poisson.short_range_function_derivative ?t 1] => set (this := t)
  end.
  destruct (Poisson.short_range_function_derivative this 1) as [d1| |];
    cbn [bind]; try discriminate.
  destruct (Poisson.short_range_function this 1) as [s1| |];
    cbn [bind]; try discriminate.
  destruct (Poisson.short_range_function this 0) as [s0| |];
    cbn [bind]; try discriminate.
  intro Hp. injection Hp as <-. cbn.
  repeat split; try reflexivity.
  exists b. split; reflexivity.
Qed.

Lemma exp_neq_1 x : x <> 0 -> exp x <> 1.
Proof.
  intros Hx He. rewrite <- exp_0 in He. apply exp_inv in He. contradiction.
Qed.

Lemma Rltb_small_nonzero x : Rltb (1 / 1000000) (Rabs x) = true -> x <> 0.
Proof.
  unfold Rltb. destruct (Rlt_dec _ _) as [Hlt|]; [|discriminate].
  intros _ ->. rewrite Rabs_R0 in Hlt. lra.
Qed.

(** The substituted variable [qp] of a constructed [Poisson] at [q = 1]. *)
Lemma Poisson_qp_at_one cutoff C D dl p :
  Poisson.ctor cutoff C D dl = Ret p ->
  (if Poisson.yukawa p
   then (1 - exp (2 * Poisson.kappaRed p * 1)) * Poisson.yukawa_denom p
   else 1) = 1.
Proof.
  intro Hp. destruct (Poisson_ctor_fields _ _ _ _ _ Hp) as (Hk & Hy & Hden & _).
  destruct (Poisson.yukawa p) eqn:Ey; [|reflexivity].
  rewrite Hden. rewrite Rmult_1_r.
  assert (Hne : Poisson.kappaRed p <> 0).
  { apply Rltb_small_nonzero. rewrite Hk, <- Hy. reflexivity. }
  field. intro H0. apply (exp_neq_1 (2 * Poisson.kappaRed p)); lra.
Qed.

Lemma Poisson_at_one cutoff C D dl p :
  (C < 2147483648)%Z -> (D < 2147483648)%Z ->
  Poisson.ctor cutoff C D dl = Ret p ->
  (forall s, Poisson.short_range_function p 1 = Ret s -> s = 0) /\
  (forall d, Poisson.short_range_function_derivative p 1 = Ret d -> d = 0).
Proof.
  intros HC HD Hp.
  pose proof (Poisson_qp_at_one _ _ _ _ _ Hp) as Hqp.
  destruct (Poisson_ctor_bounds _ _ _ _ _ HC HD Hp) as [HCb HDb].
  destruct (Poisson_ctor_inv _ _ _ _ _ Hp) as (_ & HpC & HpD & _).
  split.
  - intro s. unfold Poisson.short_range_function. cbv zeta.
    rewrite Hqp.
    destruct (for_loopM _ _ _ _) as [tmp| |]; cbn [bind]; try discriminate.
    intro E. injection E as <-.
    rewrite powi_zero_unsigned by (rewrite HpD; unfold two32; lia). ring.
  - intro d. unfold Poisson.short_range_function_derivative.
    destruct (Poisson.yukawa p); cbv iota beta zeta in Hqp |- *.
    + rewrite Hqp.
      destruct (for_loopM _ _ _ _) as [[tmp1 tmp2]| |]; cbn [bind]; try discriminate.
      intro E. injection E as <-.
      rewrite !powi_zero_unsigned by (rewrite HpD; unfold two32; lia). ring.
    + destruct (for_loopM _ _ _ _) as [[tmp1 tmp2]| |]; cbn [bind]; try discriminate.
      intro E. injection E as <-.
      rewrite !powi_zero_unsigned by (rewrite HpD; unfold two32; lia). ring.
Qed.

Section AtTheCutoff.

Import PrimFloat.

(** X6.  Every truncating scheme lets the potential reach the cutoff
    continuously: the splitting function is 0 at [q = 1] for Wolf, for
    qPotential of order 1 to 170, for Fanourgakis, and for every
    PoissonSimple or Poisson object a constructor returns (also with a Debye
    length, where [q] is first mapped to [qp]).  [Plain] keeps [s(1) = 1].
    The bound on the order is where [Ct = order!] leaves the range of
    [double]: evaluated on binary64 numbers, [s(1)] of qPotential is 0 for
    every order from 1 to 170 and a NaN at order 171. *)
Theorem splitting_function_vanishes_at_cutoff :
  (forall c a, Wolf.short_range_function (Wolf.ctor c a) 1 = 0) /\
  (forall c order, (1 <= order <= 170)%Z ->
     qPotential.short_range_function (qPotential.ctor c order) 1 = 0) /\
  (forall c order, (1 <= order <= 170)%Z ->
     (Binary64.qPotential.short_range_function (Binary64.qPotential.ctor c order) 1
      =? 0)%float = true) /\
  (forall c,
     is_nan (Binary64.qPotential.short_range_function (Binary64.qPotential.ctor c 171)
               1%float) = true) /\
  (forall c, Fanourgakis.short_range_function (Fanourgakis.ctor c) 1 = 0) /\
  (forall c C D p, (C < 2147483648)%Z -> (D < 2147483648)%Z ->
     PoissonSimple.ctor c C D = Ret p -> PoissonSimple.short_range_function p 1 = Ret 0) /\
  (forall c C D dl p, (C < 2147483648)%Z -> (D < 2147483648)%Z -> nonzero_length dl ->
     Poisson.ctor c C D dl = Ret p -> Poisson.short_range_function p 1 = Ret 0) /\
  (forall d, Plain.short_range_function (Plain.ctor d) 1 = 1).
Proof.
  split; [|split; [|split; [|split; [|split; [|split; [|split]]]]]].
  - intros c a. unfold Wolf.short_range_function. rewrite Rmult_1_r. ring.
  - intros c order Ho. unfold qPotential.short_range_function.
    apply qPochhammerSymbol_at_one. cbn [qPotential.order qPotential.ctor]. lia.
  - intros c order Ho.
    exact (proj1 qPotential_at_cutoff_binary64 order Ho).
  - intro c. exact (proj2 qPotential_at_cutoff_binary64).
  - intro c. unfold Fanourgakis.short_range_function, powi. simpl. lra.
  - intros c C D p HC HD Hp.
    destruct (PoissonSimple_ctor_bounds _ _ _ _ HC HD Hp) as [HCb HDb].
    destruct (PoissonSimple_ctor_inv _ _ _ _ Hp)
      as (_ & HpC & HpD & _ & _ & _ & d1 & s1 & s0 & _ & Hs1 & _).
    rewrite Hs1. f_equal.
    apply (proj1 (PoissonSimple_at_one p ltac:(rewrite HpD; exact HDb)) _ Hs1).
  - intros c C D dl p HC HD _ Hp.
    destruct (Poisson_ctor_inv _ _ _ _ _ Hp)
      as (_ & _ & _ & _ & _ & _ & _ & d1 & s1 & s0 & _ & Hs1 & _).
    rewrite Hs1. f_equal.
    apply (proj1 (Poisson_at_one _ _ _ _ _ HC HD Hp) _ Hs1).
  - reflexivity.
Qed.

Lemma splitting_function_vanishes_at_cutoff_witness :
  qPotential.short_range_function (qPotential.ctor 18 3) 1 = 0 /\
  exists p, Poisson.ctor 29 3 3 (Fin 23) = Ret p /\ Poisson.short_range_function p 1 = Ret 0.
Proof.
  split.
  - apply (proj1 (proj2 splitting_function_vanishes_at_cutoff) 18 3%Z). lia.
  - destruct (Poisson_ctor_returns 29 3 3 (Fin 23)) as [p Hp]; [lia | lia |].
    exists p. split; [exact Hp|].
    apply (proj1 (proj2 (proj2 (proj2 (proj2 (proj2 (proj2
                    splitting_function_vanishes_at_cutoff))))))
             29 3%Z 3%Z (Fin 23) p); [lia | lia | cbn; lra | exact Hp].
Defined.

Lemma qPotential_low_order_derivative_at_one :
  qPochhammerSymbolDerivative 1 0 1 = -1 /\ qPochhammerSymbolDerivative 1 0 0 = 0 /\
  qPochhammerSymbol 1 0 0 = 1.
Proof.
  unfold qPochhammerSymbolDerivative, qPochhammerSymbol. cbv zeta.
  eval_tests. run_loops. eval_ints. unfold powi. simpl. repeat split; lra.
Qed.

Lemma Plain_T0 d : T0 (sbase (Plain.base (Plain.ctor d))) = 0.
Proof.
  cbn. unfold Plain.short_range_function_derivative, Plain.short_range_function. ring.
Qed.

Lemma Fanourgakis_T0 c : T0 (sbase (Fanourgakis.base (Fanourgakis.ctor c))) = 1.
Proof.
  cbn. unfold Fanourgakis.short_range_function_derivative,
    Fanourgakis.short_range_function, powi. simpl. lra.
Qed.

Lemma qPotential_T0 c order :
  (0 <= order < 2147483647)%Z ->
  T0 (sbase (qPotential.base (qPotential.ctor c order)))
  = qPochhammerSymbolDerivative 1 0 order - qPochhammerSymbol 1 0 order + 1.
Proof.
  intro Ho. unfold qPotential.ctor. cbv zeta.
  cbn [T0 sbase qPotential.base set_T0 on_base].
  unfold qPotential.short_range_function_derivative, qPotential.short_range_function.
  cbn [qPotential.order].
  rewrite (qPochhammerSymbol_is_product 0) by lia.
  rewrite product_spec_at_zero by lia. reflexivity.
Qed.

Lemma Wolf_T0 c a :
  T0 (sbase (Wolf.base (Wolf.ctor c a)))
  = Cmath.erf (a * c) - 2 * (a * c) * exp (- (a * c) * (a * c)) / Cmath.sqrt_pi.
Proof.
  unfold Wolf.ctor. cbv zeta. cbn [T0 sbase Wolf.base set_T0 on_base].
  unfold Wolf.short_range_function_derivative, Wolf.short_range_function, Wolf.pi_sqrt.
  cbn [Wolf.alphaRed Wolf.alphaRed2].
  rewrite !Rmult_0_r, !Rmult_1_r, Cmath_erfc_0. unfold Cmath.erfc.
  replace (- (a * c * (a * c))) with (- (a * c) * (a * c)) by ring.
  unfold Rdiv. ring.
Qed.

Lemma PoissonSimple_T0 c C D p :
  (C < 2147483648)%Z -> (D < 2147483648)%Z ->
  PoissonSimple.ctor c C D = Ret p -> T0 (sbase (PoissonSimple.base p)) = 1.
Proof.
  intros HC HD Hp.
  destruct (PoissonSimple_ctor_bounds _ _ _ _ HC HD Hp) as [HCb HDb].
  destruct (PoissonSimple_ctor_inv _ _ _ _ Hp)
    as (_ & HpC & HpD & _ & _ & _ & d1 & s1 & s0 & Hd1 & Hs1 & Hs0 & HT).
  rewrite HT.
  destruct (PoissonSimple_at_one p ltac:(rewrite HpD; exact HDb)) as [H1 H2].
  rewrite (H1 _ Hs1), (H2 _ Hd1).
  destruct splitting_function_at_zero as (_ & _ & _ & _ & _ & Hz & _).
  rewrite Hz in Hs0 by (rewrite ?HpC, ?HpD; lia).
  injection Hs0 as <-. ring.
Qed.

Lemma Poisson_T0 c C D dl p :
  (C < 2147483648)%Z -> (D < 2147483648)%Z ->
  Poisson.ctor c C D dl = Ret p -> T0 (sbase (Poisson.base p)) = 1.
Proof.
  intros HC HD Hp.
  destruct (Poisson_ctor_bounds _ _ _ _ _ HC HD Hp) as [HCb HDb].
  destruct (Poisson_ctor_inv _ _ _ _ _ Hp)
    as (_ & HpC & HpD & _ & _ & _ & _ & d1 & s1 & s0 & Hd1 & Hs1 & Hs0 & HT).
  rewrite HT.
  destruct (Poisson_at_one _ _ _ _ _ HC HD Hp) as [H1 H2].
  rewrite (H1 _ Hs1), (H2 _ Hd1).
  destruct splitting_function_at_zero as (_ & _ & _ & _ & _ & _ & Hz).
  rewrite Hz in Hs0 by (rewrite ?HpC, ?HpD; lia).
  injection Hs0 as <-. ring.
Qed.

(** X7.  The value of [T0] each constructor stores.  It is 1 whenever both
    [s] and [s'] vanish at the cutoff: Fanourgakis, qPotential of order 2
    to 168, and every PoissonSimple or Poisson object that is constructed.
    It is 0 for Plain and for qPotential of order 0 or 1, and
    [erf(alpha Rc) - 2 alpha Rc exp(-(alpha Rc)^2) / sqrt(pi)] for Wolf.
    The bound on the order is where [dCt = order! * order (order - 1) / 4]
    leaves the range of [double]: evaluated on binary64 numbers, the [T0]
    of qPotential is 1 for every order from 2 to 168 and a NaN at order
    169. *)
Theorem T0_values :
  (forall d, T0 (sbase (Plain.base (Plain.ctor d))) = 0) /\
  (forall c, T0 (sbase (Fanourgakis.base (Fanourgakis.ctor c))) = 1) /\
  (forall c order, (2 <= order <= 168)%Z ->
     T0 (sbase (qPotential.base (qPotential.ctor c order))) = 1) /\
  (forall c order, (2 <= order <= 168)%Z ->
     (Binary64.T0 (Binary64.sbase (Binary64.qPotential.base
                                     (Binary64.qPotential.ctor c order))) =? 1)%float
     = true) /\
  (forall c,
     is_nan (Binary64.T0 (Binary64.sbase (Binary64.qPotential.base
                                            (Binary64.qPotential.ctor c 169)))) = true) /\
  (forall c, T0 (sbase (qPotential.base (qPotential.ctor c 1))) = 0 /\
             T0 (sbase (qPotential.base (qPotential.ctor c 0))) = 0) /\
  (forall c a,
     T0 (sbase (Wolf.base (Wolf.ctor c a)))
     = Cmath.erf (a * c) - 2 * (a * c) * exp (- (a * c) * (a * c)) / Cmath.sqrt_pi) /\
  (forall c C D p, (C < 2147483648)%Z -> (D < 2147483648)%Z ->
     PoissonSimple.ctor c C D = Ret p -> T0 (sbase (PoissonSimple.base p)) = 1) /\
  (forall c C D dl p, (C < 2147483648)%Z -> (D < 2147483648)%Z -> nonzero_length dl ->
     Poisson.ctor c C D dl = Ret p -> T0 (sbase (Poisson.base p)) = 1).
Proof.
  destruct qPotential_low_order_derivative_at_one as (Hd1 & Hd0 & Hs0).
  split; [exact Plain_T0|]. split; [exact Fanourgakis_T0|].
  split; [|split; [|split; [|split; [|split; [exact Wolf_T0|split;
    [exact PoissonSimple_T0|]]]]]];
    [| | | |intros c C D dl p HC HD _ Hp; exact (Poisson_T0 c C D dl p HC HD Hp)].
  - intros c order Ho. rewrite qPotential_T0 by lia.
    rewrite qPochhammerSymbolDerivative_at_one, qPochhammerSymbol_at_one by lia. ring.
  - intros c order Ho. exact (proj1 (qPotential_T0_binary64 c) order Ho).
  - intro c. exact (proj2 (qPotential_T0_binary64 c)).
  - intro c. split.
    + rewrite qPotential_T0 by lia. rewrite Hd1, qPochhammerSymbol_at_one by lia. ring.
    + rewrite qPotential_T0 by lia. rewrite Hd0, Hs0. ring.
Qed.

Lemma T0_values_witness :
  T0 (sbase (qPotential.base (qPotential.ctor 18 3))) = 1 /\
  exists p, Poisson.ctor 29 3 3 (Fin 23) = Ret p /\ T0 (sbase (Poisson.base p)) = 1.
Proof.
  split.
  - apply (proj1 (proj2 (proj2 T0_values)) 18 3%Z). lia.
  - destruct (Poisson_ctor_returns 29 3 3 (Fin 23)) as [p Hp]; [lia | lia |].
    exists p. split; [exact Hp|].
    apply (proj2 (proj2 (proj2 (proj2 (proj2 (proj2 (proj2 (proj2 T0_values)))))))
             29 3%Z 3%Z (Fin 23) p); [lia | lia | cbn; lra | exact Hp].
Defined.

End AtTheCutoff.

(** X8.  The dielectric constant [calc_dielectric] returns.  With [T0 = 1]
    (Fanourgakis, every constructed Poisson or PoissonSimple, Ewald with
    conducting surroundings, which is also what a surrounding permittivity
    below 1 selects) it is [3 * M2V + 1].  For Ewald in a medium of
    permittivity [eps >= 1] it is
    [(6 M2V eps + 2 eps + 1) / (2 eps + 1 - 3 M2V)], and for Plain
    [(2 M2V + 1) / (1 - M2V)]. *)
Theorem calc_dielectric_values (M2V : R) :
  (forall c, calc_dielectric (sbase (Fanourgakis.base (Fanourgakis.ctor c))) M2V
             = 3 * M2V + 1) /\
  (forall c C D dl p, (C < 2147483648)%Z -> (D < 2147483648)%Z -> nonzero_length dl ->
     Poisson.ctor c C D dl = Ret p ->
     calc_dielectric (sbase (Poisson.base p)) M2V = 3 * M2V + 1) /\
  (forall c C D p, (C < 2147483648)%Z -> (D < 2147483648)%Z ->
     PoissonSimple.ctor c C D = Ret p ->
     calc_dielectric (sbase (PoissonSimple.base p)) M2V = 3 * M2V + 1) /\
  (forall c a dl,
     calc_dielectric (sbase (Ewald.base (Ewald.ctor c a Inf dl))) M2V = 3 * M2V + 1) /\
  (forall c a dl eps, eps < 1 ->
     calc_dielectric (sbase (Ewald.base (Ewald.ctor c a (Fin eps) dl))) M2V
     = 3 * M2V + 1) /\
  (forall c a dl eps, 1 <= eps -> 2 * eps + 1 - 3 * M2V <> 0 ->
     calc_dielectric (sbase (Ewald.base (Ewald.ctor c a (Fin eps) dl))) M2V
     = (6 * M2V * eps + 2 * eps + 1) / (2 * eps + 1 - 3 * M2V)) /\
  (forall d, M2V <> 1 ->
     calc_dielectric (sbase (Plain.base (Plain.ctor d))) M2V = (2 * M2V + 1) / (1 - M2V)).
Proof.
  assert (Hone : forall b, T0 b = 1 -> calc_dielectric b M2V = 3 * M2V + 1).
  { intros b Hb. unfold calc_dielectric. rewrite Hb. field. lra. }
  pose proof Plain_T0 as HP. pose proof Fanourgakis_T0 as HF.
  pose proof PoissonSimple_T0 as HPS. pose proof Poisson_T0 as HPo.
  split; [|split; [|split; [|split; [|split; [|split]]]]].
  - intro c. apply Hone, HF.
  - intros c C D dl p HC HD _ Hp. apply Hone. exact (HPo c C D dl p HC HD Hp).
  - intros c C D p HC HD Hp. apply Hone. exact (HPS c C D p HC HD Hp).
  - intros c a dl. apply Hone. reflexivity.
  - intros c a dl eps He. apply Hone.
    unfold Ewald.ctor. cbv zeta. cbn [T0 sbase Ewald.base set_T0 on_base set_self_energy_prefactor].
    destruct (Rlt_dec eps 1); [reflexivity | contradiction].
  - intros c a dl eps He Hden. unfold calc_dielectric.
    replace (T0 (sbase (Ewald.base (Ewald.ctor c a (Fin eps) dl))))
      with (2 * (eps - 1) / (2 * eps + 1)).
    + field. split; [|lra]. intro H0. apply Hden. lra.
    + unfold Ewald.ctor. cbv zeta.
      cbn [T0 sbase Ewald.base set_T0 on_base set_self_energy_prefactor].
      destruct (Rlt_dec eps 1); [lra | reflexivity].
  - intros d Hd. unfold calc_dielectric. rewrite HP. field. lra.
Qed.

Lemma calc_dielectric_values_witness :
  calc_dielectric (sbase (Ewald.base (Ewald.ctor 29 0.1 (Fin 80) Inf))) 2
  = (6 * 2 * 80 + 2 * 80 + 1) / (2 * 80 + 1 - 3 * 2) /\
  calc_dielectric (sbase (Plain.base (Plain.ctor Inf))) 2 = (2 * 2 + 1) / (1 - 2).
Proof.
  split.
  - apply (proj1 (proj2 (proj2 (proj2 (proj2 (proj2 (calc_dielectric_values 2))))))
             29 0.1 Inf 80); lra.
  - apply (proj2 (proj2 (proj2 (proj2 (proj2 (proj2 (calc_dielectric_values 2))))))). lra.
Defined.

(** ** The derivative functions are the derivatives *)

Lemma derivable_pt_lim_value f x l l' :
  derivable_pt_lim f x l -> l = l' -> derivable_pt_lim f x l'.
Proof. intros H <-. exact H. Qed.

Lemma derivable_pt_lim_congr f g x l :
  (forall y, f y = g y) -> derivable_pt_lim g x l -> derivable_pt_lim f x l.
Proof.
  intros Hfg Hg eps Heps. destruct (Hg eps Heps) as [delta Hd].
  exists delta. intros h Hh Hlt. rewrite !Hfg. apply Hd; assumption.
Qed.

Lemma peval_derivable cs x : derivable_pt_lim (peval cs) x (pderiv cs x).
Proof.
  induction cs as [|a cs IH].
  - exact (derivable_pt_lim_const 0 x).
  - pose proof (derivable_pt_lim_plus (fct_cte a) (id * peval cs)%F x _ _
                  (derivable_pt_lim_const a x)
                  (derivable_pt_lim_mult id (peval cs) x _ _
                     (derivable_pt_lim_id x) IH)) as Hd.
    unfold plus_fct, mult_fct, fct_cte, id in Hd.
    apply (derivable_pt_lim_value _ _ _ _ Hd). simpl. ring.
Qed.

(** X9.  The three derivative functions of Fanourgakis are the successive
    derivatives of its splitting function at every [q]. *)
Theorem fanourgakis_derivative_chain (f : Fanourgakis.t) (q : R) :
  derivable_pt_lim (Fanourgakis.short_range_function f) q
    (Fanourgakis.short_range_function_derivative f q) /\
  derivable_pt_lim (Fanourgakis.short_range_function_derivative f) q
    (Fanourgakis.short_range_function_second_derivative f q) /\
  derivable_pt_lim (Fanourgakis.short_range_function_second_derivative f) q
    (Fanourgakis.short_range_function_third_derivative f q).
Proof.
  split; [|split].
  - apply (derivable_pt_lim_congr _ (peval [1; -1.75; 0; 0; 0; 5.25; -7; 2.5])).
    + intro y. unfold Fanourgakis.short_range_function, powi. simpl. lra.
    + apply (derivable_pt_lim_value _ _ _ _ (peval_derivable _ q)).
      unfold Fanourgakis.short_range_function_derivative, powi. simpl. lra.
  - apply (derivable_pt_lim_congr _ (peval [-1.75; 0; 0; 0; 26.25; -42; 17.5])).
    + intro y. unfold Fanourgakis.short_range_function_derivative, powi. simpl. lra.
    + apply (derivable_pt_lim_value _ _ _ _ (peval_derivable _ q)).
      unfold Fanourgakis.short_range_function_second_derivative, powi. simpl. lra.
  - apply (derivable_pt_lim_congr _ (peval [0; 0; 0; 105; -210; 105])).
    + intro y. unfold Fanourgakis.short_range_function_second_derivative, powi. simpl. lra.
    + apply (derivable_pt_lim_value _ _ _ _ (peval_derivable _ q)).
      unfold Fanourgakis.short_range_function_third_derivative, powi. simpl. lra.
Qed.

(** X10.  On [0 <= q <= 1] the Fanourgakis splitting function stays
    between 0 and 1, does not increase ([s' <= 0]) and is convex
    ([s'' >= 0]). *)
Theorem fanourgakis_shape (f : Fanourgakis.t) (q : R) :
  0 <= q <= 1 ->
  0 <= Fanourgakis.short_range_function f q <= 1 /\
  Fanourgakis.short_range_function_derivative f q <= 0 /\
  0 <= Fanourgakis.short_range_function_second_derivative f q.
Proof.
  intros [H0 H1].
  unfold Fanourgakis.short_range_function, Fanourgakis.short_range_function_derivative,
    Fanourgakis.short_range_function_second_derivative, powi. simpl.
  assert (Ht : 0 <= 1 - q) by lra.
  assert (Ht2 : 0 <= (1 - q) * (1 - q)) by (apply Rmult_le_pos; assumption).
  assert (Hq2 : 0 <= q * q) by (apply Rmult_le_pos; assumption).
  assert (Hq3 : 0 <= q * q * q) by (apply Rmult_le_pos; assumption).
  assert (Hq2le : q * q <= 1) by nra.
  assert (Ht4 : 0 <= (1 - q) * ((1 - q) * ((1 - q) * ((1 - q) * 1)))).
  { rewrite Rmult_1_r. replace ((1 - q) * ((1 - q) * ((1 - q) * (1 - q))))
      with (((1 - q) * (1 - q)) * ((1 - q) * (1 - q))) by ring.
    apply Rmult_le_pos; assumption. }
  split; [split|split].
  - apply Rmult_le_pos; [exact Ht4 | lra].
  - set (g := 5.25 - 7 * q + 2.5 * (q * q)).
    assert (Hg : 0 <= g) by (unfold g; nra).
    assert (HA : (q * q) * g <= 1.25).
    { unfold g. assert (0 <= q * q * q * (1 - q)) by (apply Rmult_le_pos; lra). nra. }
    assert (HB : (q * q) * ((q * q) * g) <= (q * q) * g).
    { assert (0 <= q * q * g) by (apply Rmult_le_pos; assumption).
      rewrite <- (Rmult_1_l (q * q * g)) at 2. apply Rmult_le_compat_r; assumption. }
    assert (Hh : 0 <= 1.75 - (q * q) * ((q * q) * g)) by lra.
    assert (Hqh : 0 <= q * (1.75 - (q * q) * ((q * q) * g)))
      by (apply Rmult_le_pos; assumption).
    unfold g in Hqh. lra.
  - set (t := 1 - q) in *.
    assert (Eq : q = 1 - t) by (unfold t; ring).
    assert (Ht1 : t <= 1) by lra.
    assert (Hk : 0 <= 20 - 45 * t + 36 * (t * t) - 10 * (t * t * t)).
    { assert (0 <= t * t * (1 - t)) by (apply Rmult_le_pos; lra). nra. }
    assert (Ht3 : 0 <= t * t * t) by (apply Rmult_le_pos; assumption).
    assert (Hp : 0 <= (t * t * t) * (20 - 45 * t + 36 * (t * t) - 10 * (t * t * t)))
      by (apply Rmult_le_pos; assumption).
    rewrite Eq. lra.
  - replace ((q - 1) * ((q - 1) * 1)) with ((1 - q) * (1 - q)) by ring.
    apply Rmult_le_pos; [lra | assumption].
Qed.

Lemma fanourgakis_shape_witness :
  0 <= Fanourgakis.short_range_function (Fanourgakis.ctor 29) 0.5 <= 1.
Proof.
  apply (fanourgakis_shape (Fanourgakis.ctor 29) 0.5). lra.
Defined.

(** ** The q-Pochhammer symbol as a function of [q] and of the order *)

Lemma product_spec_step q l P : (0 <= P)%Z ->
  qPochhammer_product_spec q l (P + 1)
  = qPochhammer_product_spec q l P * (1 - q ^ Z.to_nat l * q ^ Z.to_nat P).
Proof.
  intro HP. unfold qPochhammer_product_spec.
  rewrite for_loop_last by lia. cbv beta.
  replace (P + 1 - 1)%Z with P by lia. reflexivity.
Qed.

Lemma pow_unit_interval q n : 0 <= q < 1 -> 0 <= q ^ n <= 1.
Proof.
  intros [H0 H1]. split; [apply pow_le; exact H0|].
  rewrite <- (pow1 n). apply pow_incr. lra.
Qed.

Lemma pow_unit_interval_strict q n : 0 <= q < 1 -> 0 <= q ^ S n < 1.
Proof.
  intros Hq. pose proof (pow_unit_interval q n Hq) as [Ha Hb].
  simpl. split; [apply Rmult_le_pos; lra | nra].
Qed.

Lemma product_spec_bounds q l : 0 <= q < 1 -> (1 <= l)%Z ->
  forall n : nat, 0 < qPochhammer_product_spec q l (Z.of_nat n) <= 1.
Proof.
  intros Hq Hl. induction n as [|n IH].
  - unfold qPochhammer_product_spec. rewrite for_loop_done by (simpl; lia). lra.
  - rewrite Nat2Z.inj_succ. unfold Z.succ. rewrite product_spec_step by lia.
    rewrite <- pow_add.
    replace (Z.to_nat l + Z.to_nat (Z.of_nat n))%nat
      with (S (Z.to_nat (l - 1) + n))%nat by lia.
    pose proof (pow_unit_interval_strict q (Z.to_nat (l - 1) + n) Hq) as [Ha Hb].
    split; [apply Rmult_lt_0_compat; lra | nra].
Qed.

(** X11.  For [0 <= q < 1], as long as the factors of the code's product
    are normal doubles at the orders [P] and [P + 1] ([l + P + 1 <= 170]
    and [(1 - q)^(P + 1) >= DBL_MIN]), the q-Pochhammer symbol the code
    computes lies in the interval (0, 1], indeed in [[DBL_MIN, 1]], and
    raising the order by one multiplies it by [1 - q^(l + P + 1)], so it
    does not increase with the order. *)
Theorem qPochhammerSymbol_bounds (q : R) (l P : Z) :
  0 <= q < 1 -> (0 <= l)%Z -> (0 <= P)%Z -> (l + P + 1 <= 170)%Z ->
  DBL_MIN <= (1 - q) ^ Z.to_nat (P + 1) ->
  0 < qPochhammerSymbol q l P <= 1 /\
  DBL_MIN <= qPochhammerSymbol q l P /\
  qPochhammerSymbol q l (P + 1)
    = qPochhammerSymbol q l P * (1 - q ^ Z.to_nat (l + P + 1)) /\
  qPochhammerSymbol q l (P + 1) <= qPochhammerSymbol q l P.
Proof.
  intros Hq Hl HP Hsum Hmin.
  assert (Hnormal : DBL_MIN <= qPochhammerSymbol q l P).
  { apply qPochhammerSymbol_is_normal; try assumption; try lia; [lra|].
    replace (Z.to_nat (P + 1)) with (S (Z.to_nat P)) in Hmin by lia.
    cbn [pow] in Hmin.
    assert (Hp : 0 <= (1 - q) ^ Z.to_nat P) by (apply pow_le; lra).
    nra. }
  revert Hnormal.
  rewrite !qPochhammerSymbol_is_product by lia. intro Hnormal.
  pose proof (product_spec_bounds q (l + 1) Hq ltac:(lia) (Z.to_nat P)) as Hb.
  rewrite Z2Nat.id in Hb by lia.
  assert (Hstep : qPochhammer_product_spec q (l + 1) (P + 1)
                  = qPochhammer_product_spec q (l + 1) P * (1 - q ^ Z.to_nat (l + P + 1))).
  { rewrite product_spec_step by lia. rewrite <- pow_add. do 2 f_equal. f_equal. lia. }
  split; [exact Hb|]. split; [exact Hnormal|]. split; [exact Hstep|].
  rewrite Hstep.
  pose proof (pow_unit_interval q (Z.to_nat (l + P + 1)) Hq) as [Ha Hc].
  nra.
Qed.

Lemma qPochhammerSymbol_bounds_witness :
  0 < qPochhammerSymbol 0.5 0 3 <= 1.
Proof.
  apply (qPochhammerSymbol_bounds 0.5 0 3); try lra; try lia.
  apply (DBL_MIN_le_pow _ 1); [simpl; lra | simpl; lia].
Defined.

Lemma geometric_sum_derivable m x :
  derivable_pt_lim (fun y => geometric_sum y m) x (geometric_sum_derivative x m).
Proof.
  induction m as [|m IH].
  - exact (derivable_pt_lim_const 0 x).
  - exact (derivable_pt_lim_plus _ _ x _ _ IH (derivable_pt_lim_pow x m)).
Qed.


Section qPochhammerDerivative.

Variables (l : Z).
Hypothesis Hl : (0 <= l)%Z.

Let prodG (x : R) (P : Z) : R :=
  for_loop 1 (P + 1) (fun n acc => acc * geometric_sum x (Z.to_nat (n + l))) 1.

Let sumS (x : R) (P : Z) : R :=
  for_loop 1 (P + 1)
    (fun n acc => acc + geometric_sum_derivative x (Z.to_nat (n + l))
                        / geometric_sum x (Z.to_nat (n + l))) 0.

Lemma quotient_loop q : forall m : nat, (1 <= m)%nat -> (Z.of_nat m < two32)%Z ->
  for_loop 2 (Z.of_nat m + 1)
    (fun k '(nom, denom) =>
       (nom + IZR (k - 1) * powi q (unsigned_of_int (k - 2)),
        denom + powi q (unsigned_of_int (k - 1))))
    (0, 1)
  = (geometric_sum_derivative q m, geometric_sum q m).
Proof.
  induction m as [|m IH]; intros Hm Hlt; [lia|].
  destruct m as [|m].
  - rewrite for_loop_done by (simpl; lia). simpl. f_equal; ring.
  - rewrite (Nat2Z.inj_succ (S m)). unfold Z.succ.
    rewrite for_loop_last by lia. rewrite IH by lia.
    cbv beta iota.
    rewrite !unsigned_of_int_id by lia. unfold powi.
    replace (Z.of_nat (S m) + 1 - 1)%Z with (Z.of_nat (S m)) by lia.
    replace (Z.to_nat (Z.of_nat (S m) + 1 - 2)) with m by lia.
    rewrite Nat2Z.id. rewrite <- INR_IZR_INZ.
    reflexivity.
Qed.

Lemma quotient_sum_loop q : forall P : nat, (l + Z.of_nat P < two32)%Z ->
  for_loop 1 (Z.of_nat P + 1)
    (fun n dCt =>
       let '(nom, denom) :=
         for_loop 2 (n + l + 1)
           (fun k '(nom, denom) =>
              (nom + IZR (k - 1) * powi q (unsigned_of_int (k - 2)),
               denom + powi q (unsigned_of_int (k - 1))))
           (0, 1) in
       dCt + nom / denom)
    0
  = sumS q (Z.of_nat P).
Proof.
  unfold sumS. induction P as [|P IH]; intro Hlt.
  - rewrite !for_loop_done by (simpl; lia). reflexivity.
  - rewrite Nat2Z.inj_succ. unfold Z.succ.
    rewrite !(for_loop_last 1 (Z.of_nat P + 1)) by lia.
    rewrite IH by lia.
    replace (Z.of_nat P + 1 + l)%Z with (Z.of_nat (Z.to_nat (Z.of_nat P + 1 + l))) at 1 by lia.
    rewrite quotient_loop by lia.
    reflexivity.
Qed.

Lemma quotient_sum_loop_Z q P : (0 <= P)%Z -> (l + P < two32)%Z ->
  for_loop 1 (P + 1)
    (fun n dCt =>
       let '(nom, denom) :=
         for_loop 2 (n + l + 1)
           (fun k '(nom, denom) =>
              (nom + IZR (k - 1) * powi q (unsigned_of_int (k - 2)),
               denom + powi q (unsigned_of_int (k - 1))))
           (0, 1) in
       dCt + nom / denom)
    0
  = sumS q P.
Proof.
  intros HP Hlt. pose proof (quotient_sum_loop q (Z.to_nat P)) as H.
  rewrite Z2Nat.id in H by lia. apply H. exact Hlt.
Qed.

Lemma prodG_derivable x : 0 <= x -> forall P : nat,
  derivable_pt_lim (fun y => prodG y (Z.of_nat P)) x
    (prodG x (Z.of_nat P) * sumS x (Z.of_nat P)).
Proof.
  intros Hx. induction P as [|P IH].
  - unfold prodG, sumS. rewrite for_loop_done by (simpl; lia).
    apply (derivable_pt_lim_congr _ (fct_cte 1)).
    + intro y. rewrite for_loop_done by (simpl; lia). reflexivity.
    + apply (derivable_pt_lim_value _ _ _ _ (derivable_pt_lim_const 1 x)).
      rewrite for_loop_done by (simpl; lia). ring.
  - set (m := Z.to_nat (Z.of_nat P + 1 + l)).
    assert (Hstep : forall y, prodG y (Z.of_nat (S P))
                              = prodG y (Z.of_nat P) * geometric_sum y m).
    { intro y. unfold prodG. rewrite Nat2Z.inj_succ. unfold Z.succ.
      rewrite for_loop_last by lia. reflexivity. }
    apply (derivable_pt_lim_congr _ _ _ _ Hstep).
    pose proof (derivable_pt_lim_mult _ _ x _ _ IH (geometric_sum_derivable m x)) as Hd.
    apply (derivable_pt_lim_value _ _ _ _ Hd).
    rewrite Hstep. unfold sumS at 2. rewrite Nat2Z.inj_succ. unfold Z.succ.
    rewrite for_loop_last by lia. fold (sumS x (Z.of_nat P)). fold m.
    assert (Hg : geometric_sum x m <> 0).
    { pose proof (geometric_sum_ge_1 x m Hx ltac:(lia)). lra. }
    field. exact Hg.
Qed.

Lemma one_minus_pow_derivable x (n : nat) :
  derivable_pt_lim (fun y => (1 - y) ^ n) x (- INR n * (1 - x) ^ pred n).
Proof.
  pose proof (derivable_pt_lim_comp (fct_cte 1 - id)%F (fun y => y ^ n) x _ _
                (derivable_pt_lim_minus _ _ x _ _ (derivable_pt_lim_const 1 x)
                   (derivable_pt_lim_id x))
                (derivable_pt_lim_pow _ n)) as Hd.
  unfold comp, minus_fct, fct_cte, id in Hd.
  apply (derivable_pt_lim_value _ _ _ _ Hd). ring.
Qed.

Lemma qPochhammerSymbol_derivable q P :
  0 <= q -> (0 <= P)%Z -> (l + P < 2147483647)%Z ->
  derivable_pt_lim (fun x => qPochhammerSymbol x l P) q (qPochhammerSymbolDerivative q l P).
Proof.
  intros Hq HP Hsum.
  apply (derivable_pt_lim_congr _ (fun x => (1 - x) ^ Z.to_nat P * prodG x P)).
  { intro y. rewrite qPochhammerSymbol_is_reformulated by lia. reflexivity. }
  pose proof (derivable_pt_lim_mult _ _ q _ _ (one_minus_pow_derivable q (Z.to_nat P))
                (prodG_derivable q Hq (Z.to_nat P))) as Hd.
  rewrite Z2Nat.id in Hd by lia.
  apply (derivable_pt_lim_value _ _ _ _ Hd).
  unfold qPochhammerSymbolDerivative. cbv zeta.
  rewrite (running_product_loop q l Hl P HP) by (unfold two32; lia).
  fold (prodG q P).
  rewrite quotient_sum_loop_Z by (unfold two32; lia).
  unfold powi. rewrite (unsigned_of_int_id P) by (unfold two32; lia).
  destruct (Z.ltb_spec 0 P) as [Hpos|Hzero].
  - rewrite unsigned_of_int_id by (unfold two32; lia).
    replace (Z.to_nat (P - 1)) with (pred (Z.to_nat P)) by lia.
    rewrite opp_IZR. rewrite (INR_IZR_INZ (Z.to_nat P)), Z2Nat.id by lia. ring.
  - replace P with 0%Z by lia. simpl. ring.
Qed.

End qPochhammerDerivative.

(** ** Poisson without a Debye length against PoissonSimple *)

Lemma for_loopM_ext {A : Type} (hi : Z) (f g : Z -> A -> outcome A) :
  (forall c a, f c a = g c a) ->
  forall n lo init, (lo + Z.of_nat n = hi)%Z -> for_loopM lo hi f init = for_loopM lo hi g init.
Proof.
  intros Hfg. induction n as [|n IH]; intros lo init Hn.
  - rewrite !for_loopM_done by lia. reflexivity.
  - rewrite !(for_loopM_step lo hi) by lia. rewrite Hfg.
    destruct (g lo init) as [a| |]; cbn [bind]; try reflexivity.
    apply IH. lia.
Qed.

Lemma for_loopM_ext_range {A : Type} lo hi (f g : Z -> A -> outcome A) init :
  (forall c a, f c a = g c a) -> for_loopM lo hi f init = for_loopM lo hi g init.
Proof.
  intro Hfg. destruct (Z_lt_le_dec lo hi) as [Hlt|Hle].
  - apply (for_loopM_ext hi f g Hfg (Z.to_nat (hi - lo))). lia.
  - rewrite !for_loopM_done by lia. reflexivity.
Qed.

Lemma PoissonSimple_ctor_base rc C D p :
  PoissonSimple.ctor rc C D = Ret p ->
  PoissonSimple.base p
  = set_T0 (T0 (sbase (PoissonSimple.base p)))
      (set_self_energy_prefactor (mkarray2 (- IZR (C + D) / IZR C) (- IZR (C + D) / IZR C))
         (set_doi "10.1088/1367-2630/ab1ec1"
            (set_name "poisson" (EnergyImplementation_ctor poisson (Fin rc) Inf)))).
Proof.
  unfold PoissonSimple.ctor. destruct (poisson_guard_rejects C D); [discriminate|].
  set (this := PoissonSimple.mk _ C D).
  destruct (PoissonSimple.short_range_function_derivative this 1) as [d1| |];
    cbn [bind]; try discriminate.
  destruct (PoissonSimple.short_range_function this 1) as [s1| |];
    cbn [bind]; try discriminate.
  destruct (PoissonSimple.short_range_function this 0) as [s0| |];
    cbn [bind]; try discriminate.
  intro Hp. injection Hp as <-. reflexivity.
Qed.

Lemma Poisson_ctor_base rc C D dl p :
  Poisson.ctor rc C D dl = Ret p ->
  let a1 := - IZR (C + D) / IZR C in
  let a1' := if Poisson.yukawa p
             then a1 * (-2 * Poisson.kappaRed p * Poisson.yukawa_denom p) else a1 in
  Poisson.base p
  = set_T0 (T0 (sbase (Poisson.base p)))
      (set_self_energy_prefactor (mkarray2 a1' a1')
         (set_doi "10.1088/1367-2630/ab1ec1"
            (set_name "poisson" (EnergyImplementation_ctor poisson (Fin rc) dl)))).
Proof.
  unfold Poisson.ctor. destruct (poisson_guard_rejects C D); [discriminate|].
  destruct (binomial (unsigned_of_int (C + D)) (unsigned_of_int C)) as [b| |];
    cbn [bind]; try discriminate.
  match goal with
  | |- context [Poisson.short_range_function_derivative ?t 1] => set (this := t)
  end.
  destruct (Poisson.short_range_function_derivative this 1) as [d1| |];
    cbn [bind]; try discriminate.
  destruct (Poisson.short_range_function this 1) as [s1| |];
    cbn [bind]; try discriminate.
  destruct (Poisson.short_range_function this 0) as [s0| |];
    cbn [bind]; try discriminate.
  intro Hp. injection Hp as <-. reflexivity.
Qed.

Section PoissonUnscreened.

Variables (p : Poisson.t) (ps : PoissonSimple.t) (b : Z).
Hypothesis HC : PoissonSimple.C ps = Poisson.C p.
Hypothesis HD : PoissonSimple.D ps = Poisson.D p.
Hypothesis Hy : Poisson.yukawa p = false.
Hypothesis Hb :
  binomial (unsigned_of_int (Poisson.C p + Poisson.D p)) (unsigned_of_int (Poisson.C p))
  = Ret b.
Hypothesis HbCDC :
  Poisson.binomCDC p = IZR ((b * unsigned_of_int (Poisson.D p)) mod two32).

Lemma unscreened_s q :
  Poisson.short_range_function p q = PoissonSimple.short_range_function ps q.
Proof.
  unfold Poisson.short_range_function, PoissonSimple.short_range_function.
  rewrite Hy, HC, HD. reflexivity.
Qed.

Lemma unscreened_ds q :
  Poisson.short_range_function_derivative p q
  = PoissonSimple.short_range_function_derivative ps q.
Proof.
  unfold Poisson.short_range_function_derivative,
    PoissonSimple.short_range_function_derivative.
  rewrite Hy, HC, HD. cbv iota beta zeta.
  match goal with
  | |- bind (for_loopM _ _ ?f _) _ = bind (for_loopM _ _ ?g _) _ =>
      rewrite (for_loopM_ext_range 1 (Poisson.C p) f g)
  end.
  - destruct (for_loopM _ _ _ _) as [[tmp1 tmp2]| |]; cbn [bind]; try reflexivity.
    f_equal. ring.
  - intros c [tmp1 tmp2].
    destruct (binomial (unsigned_of_int (Poisson.D p - 1 + c)) (unsigned_of_int c))
      as [b0| |]; cbn [bind]; reflexivity.
Qed.

Lemma unscreened_dds q :
  Poisson.short_range_function_second_derivative p q
  = PoissonSimple.short_range_function_second_derivative ps q.
Proof.
  unfold Poisson.short_range_function_second_derivative,
    PoissonSimple.short_range_function_second_derivative.
  rewrite Hy, HC, HD, Hb, HbCDC, !bind_Ret_l. f_equal. ring.
Qed.

Lemma unscreened_ddds q :
  Poisson.short_range_function_third_derivative p q
  = PoissonSimple.short_range_function_third_derivative ps q.
Proof.
  unfold Poisson.short_range_function_third_derivative,
    PoissonSimple.short_range_function_third_derivative.
  rewrite Hy, HC, HD, Hb, HbCDC, !bind_Ret_l. f_equal. ring.
Qed.

End PoissonUnscreened.

(** The engine sees a scheme only through its base and its four functions. *)
Lemma engine_ext {T1 T2 : Type} `{SplittingScheme T1} `{SplittingScheme T2} (a : T1) (b : T2) :
  impl a = impl b ->
  (forall q, srf a q = srf b q) -> (forall q, dsrf a q = dsrf b q) ->
  (forall q, ddsrf a q = ddsrf b q) -> (forall q, dddsrf a q = dddsrf b q) ->
  (forall z r, ion_potential a z r = ion_potential b z r) /\
  (forall mu r, dipole_potential a mu r = dipole_potential b mu r) /\
  (forall z r, ion_field a z r = ion_field b z r) /\
  (forall mu r, dipole_field a mu r = dipole_field b mu r) /\
  (forall muA muB r, dipole_dipole_force a muA muB r = dipole_dipole_force b muA muB r) /\
  (forall m2, self_energy a m2 = self_energy b m2).
Proof.
  intros Hi Hs Hd Hdd Hddd.
  assert (Hpot : forall z r, ion_potential a z r = ion_potential b z r).
  { intros z r. unfold ion_potential. cbv zeta. rewrite Hi, Hs. reflexivity. }
  assert (Hdp : forall mu r, dipole_potential a mu r = dipole_potential b mu r).
  { intros mu r. unfold dipole_potential. cbv zeta. rewrite Hi, Hs.
    destruct (xlt _ _); [|reflexivity].
    destruct (srf b _); cbn [bind]; try reflexivity. rewrite Hd. reflexivity. }
  assert (Hif : forall z r, ion_field a z r = ion_field b z r).
  { intros z r. unfold ion_field. cbv zeta. rewrite Hi, Hs.
    destruct (xlt _ _); [|reflexivity].
    destruct (srf b _); cbn [bind]; try reflexivity. rewrite Hd. reflexivity. }
  assert (Hdf : forall mu r, dipole_field a mu r = dipole_field b mu r).
  { intros mu r. unfold dipole_field. cbv zeta. rewrite Hi, Hs.
    destruct (xlt _ _); [|reflexivity].
    destruct (srf b _); cbn [bind]; try reflexivity. rewrite Hd.
    destruct (dsrf b _); cbn [bind]; try reflexivity. rewrite Hdd. reflexivity. }
  repeat split; try assumption.
  - intros muA muB r. unfold dipole_dipole_force. cbv zeta. rewrite Hi, Hs.
    destruct (xlt _ _); [|reflexivity].
    destruct (srf b _); cbn [bind]; try reflexivity. rewrite Hd.
    destruct (dsrf b _); cbn [bind]; try reflexivity. rewrite Hdd.
    destruct (ddsrf b _); cbn [bind]; try reflexivity. rewrite Hddd. reflexivity.
  - intro m2. unfold self_energy. rewrite Hi. reflexivity.
Qed.

Lemma Poisson_unscreened_agree (rc : R) (C D : Z) (p : Poisson.t) :
  (C < 2147483648)%Z -> (D < 2147483648)%Z ->
  Poisson.ctor rc C D Inf = Ret p ->
  exists ps,
    PoissonSimple.ctor rc C D = Ret ps /\
    PoissonSimple.base ps = Poisson.base p /\
    (forall q,
       PoissonSimple.short_range_function ps q = Poisson.short_range_function p q /\
       PoissonSimple.short_range_function_derivative ps q
         = Poisson.short_range_function_derivative p q /\
       PoissonSimple.short_range_function_second_derivative ps q
         = Poisson.short_range_function_second_derivative p q /\
       PoissonSimple.short_range_function_third_derivative ps q
         = Poisson.short_range_function_third_derivative p q).
Proof.
  intros HCi HDi Hp.
  destruct (Poisson_ctor_bounds _ _ _ _ _ HCi HDi Hp) as [HCb HDb].
  destruct (PoissonSimple_ctor_returns rc C D ltac:(lia) ltac:(lia)) as [ps Hps].
  exists ps. split; [exact Hps|].
  destruct (Poisson_ctor_inv _ _ _ _ _ Hp) as (_ & HpC & HpD & Hy & _).
  destruct (PoissonSimple_ctor_inv _ _ _ _ Hps) as (_ & HsC & HsD & _).
  destruct (Poisson_ctor_fields _ _ _ _ _ Hp) as (_ & _ & _ & _ & (b & Hb & HbCDC) & _).
  cbn [xdiv] in Hy. rewrite Rltb_small_zero in Hy.
  rewrite <- HpC, <- HpD in Hb. rewrite <- HpD in HbCDC.
  assert (HC : PoissonSimple.C ps = Poisson.C p) by congruence.
  assert (HD : PoissonSimple.D ps = Poisson.D p) by congruence.
  split.
  - rewrite (PoissonSimple_ctor_base _ _ _ _ Hps), (Poisson_ctor_base _ _ _ _ _ Hp).
    cbv zeta. rewrite Hy.
    rewrite (PoissonSimple_T0 _ _ _ _ HCi HDi Hps), (Poisson_T0 _ _ _ _ _ HCi HDi Hp).
    reflexivity.
  - intro q. repeat split; symmetry.
    + apply unscreened_s; assumption.
    + apply unscreened_ds; assumption.
    + apply (unscreened_dds p ps b); assumption.
    + apply (unscreened_ddds p ps b); assumption.
Qed.

(** X12.  A [Poisson] object built without a Debye length is a
    [PoissonSimple] object in everything the engine uses: PoissonSimple is
    constructed from the same [cutoff], [C], [D], the two have the same base
    (cutoff, [T0], self-energy prefactors, name, DOI), the same splitting
    function and the same three derivatives at every [q], hence the same
    potentials, fields, forces and self-energy. *)
Theorem poisson_unscreened_is_poisson_simple (rc : R) (C D : Z) (p : Poisson.t) :
  (C < 2147483648)%Z -> (D < 2147483648)%Z ->
  Poisson.ctor rc C D Inf = Ret p ->
  exists ps,
    PoissonSimple.ctor rc C D = Ret ps /\
    PoissonSimple.base ps = Poisson.base p /\
    (forall q,
       PoissonSimple.short_range_function ps q = Poisson.short_range_function p q /\
       PoissonSimple.short_range_function_derivative ps q
         = Poisson.short_range_function_derivative p q /\
       PoissonSimple.short_range_function_second_derivative ps q
         = Poisson.short_range_function_second_derivative p q /\
       PoissonSimple.short_range_function_third_derivative ps q
         = Poisson.short_range_function_third_derivative p q) /\
    (forall z r, ion_potential ps z r = ion_potential p z r) /\
    (forall mu r, dipole_potential ps mu r = dipole_potential p mu r) /\
    (forall z r, ion_field ps z r = ion_field p z r) /\
    (forall mu r, dipole_field ps mu r = dipole_field p mu r) /\
    (forall muA muB r, dipole_dipole_force ps muA muB r = dipole_dipole_force p muA muB r) /\
    (forall m2, self_energy ps m2 = self_energy p m2).
Proof.
  intros HCi HDi Hp.
  destruct (Poisson_unscreened_agree rc C D p HCi HDi Hp) as (ps & Hps & Hbase & Hfun).
  exists ps. split; [exact Hps|]. split; [exact Hbase|]. split; [exact Hfun|].
  apply engine_ext.
  - exact Hbase.
  - intro q. apply (Hfun q).
  - intro q. apply (Hfun q).
  - intro q. apply (Hfun q).
  - intro q. apply (Hfun q).
Qed.

Lemma poisson_unscreened_is_poisson_simple_witness :
  exists p ps,
    Poisson.ctor 29 3 3 Inf = Ret p /\ PoissonSimple.ctor 29 3 3 = Ret ps /\
    PoissonSimple.base ps = Poisson.base p.
Proof.
  destruct (Poisson_ctor_returns 29 3 3 Inf) as [p Hp]; [lia | lia |].
  destruct (poisson_unscreened_is_poisson_simple 29 3 3 p) as (ps & Hps & Hbase & _);
    [lia | lia | exact Hp |].
  exists p, ps. split; [exact Hp|]. split; [exact Hps | exact Hbase].
Defined.

(** ** Wolf against Ewald *)

Lemma Ewald_unscreened_fields c a eps :
  let e := Ewald.ctor c a eps Inf in
  Ewald.beta e = 0 /\ Ewald.beta2 e = 0 /\ Ewald.beta3 e = 0 /\
  Ewald.alphaRed e = a * c /\ Ewald.alphaRed2 e = a * c * (a * c) /\
  Ewald.alphaRed3 e = a * c * (a * c) * (a * c).
Proof.
  unfold Ewald.ctor. cbv zeta.
  cbn [Ewald.beta Ewald.beta2 Ewald.beta3 Ewald.alphaRed Ewald.alphaRed2 Ewald.alphaRed3 xinv].
  unfold Rdiv. rewrite !Rmult_0_l. repeat split; reflexivity.
Qed.

(** X13.  Wolf is the real-space Ewald function shifted so that it vanishes
    at the cutoff.  For the same [cutoff] and [alpha <> 0], with the Ewald
    object built without a Debye length: [s_Wolf(q) = s_Ewald(q) - q *
    s_Ewald(1)], the first derivatives differ by the constant [s_Ewald(1)],
    the second and the third derivatives coincide, and so do the two
    self-energy prefactors. *)
Theorem wolf_is_shifted_ewald (c a : R) (eps : xreal) (q : R) :
  a <> 0 ->
  let w := Wolf.ctor c a in
  let e := Ewald.ctor c a eps Inf in
  Wolf.short_range_function w q
    = Ewald.short_range_function e q - q * Ewald.short_range_function e 1 /\
  Wolf.short_range_function_derivative w q
    = Ewald.short_range_function_derivative e q - Ewald.short_range_function e 1 /\
  Wolf.short_range_function_second_derivative w q
    = Ewald.short_range_function_second_derivative e q /\
  Wolf.short_range_function_third_derivative w q
    = Ewald.short_range_function_third_derivative e q /\
  self_energy_prefactor (sbase (Wolf.base w)) = self_energy_prefactor (sbase (Ewald.base e)).
Proof.
  intros Ha w e.
  destruct (Ewald_unscreened_fields c a eps) as (Hb & Hb2 & Hb3 & Har & Har2 & Har3).
  fold e in Hb, Hb2, Hb3, Har, Har2, Har3.
  assert (Hs : forall y, Ewald.short_range_function e y = Cmath.erfc (a * c * y)).
  { intro y. unfold Ewald.short_range_function. rewrite Hb, Har.
    rewrite Rplus_0_r, Rminus_0_r, Rmult_0_r, Rmult_0_l, exp_0. lra. }
  assert (Hexp : forall y, exp (- powi (a * c * y - 0) 2) = exp (- (a * c * (a * c)) * y * y)).
  { intro y. f_equal. unfold powi. simpl. ring. }
  split; [|split; [|split; [|split]]].
  - rewrite !Hs. unfold Wolf.short_range_function. subst w. cbn [Wolf.ctor Wolf.alphaRed].
    rewrite Rmult_1_r. reflexivity.
  - rewrite Hs. unfold Ewald.short_range_function_derivative, Wolf.short_range_function_derivative.
    cbv zeta. rewrite Hb, Har, Hexp. subst w.
    cbn [Wolf.ctor Wolf.alphaRed Wolf.alphaRed2]. unfold Wolf.pi_sqrt.
    rewrite Rmult_1_r. unfold Rdiv. ring.
  - unfold Ewald.short_range_function_second_derivative,
      Wolf.short_range_function_second_derivative.
    cbv zeta. rewrite Hb, Hb2, Har, Har2, Hexp. subst w.
    cbn [Wolf.ctor Wolf.alphaRed Wolf.alphaRed2]. unfold Wolf.pi_sqrt.
    unfold Rdiv. ring.
  - unfold Ewald.short_range_function_third_derivative,
      Wolf.short_range_function_third_derivative.
    cbv zeta. rewrite Hb, Hb2, Hb3, Har, Har3, Hexp. subst w.
    cbn [Wolf.ctor Wolf.alphaRed Wolf.alphaRed2]. unfold Wolf.pi_sqrt.
    unfold Rdiv. lra.
  - subst w e. unfold Wolf.ctor, Ewald.ctor. cbv zeta.
    cbn [self_energy_prefactor sbase Wolf.base Ewald.base set_T0 set_self_energy_prefactor
         on_base xinv].
    unfold Wolf.pi_sqrt, powi. simpl pow.
    replace (0 / (2 * a)) with 0 by (unfold Rdiv; ring).
    rewrite !Rmult_0_l, !Rmult_0_r, Ropp_0, exp_0.
    f_equal; unfold Rdiv; ring.
Qed.

Lemma wolf_is_shifted_ewald_witness :
  Wolf.short_range_function_second_derivative (Wolf.ctor 29 0.1) 0.5
  = Ewald.short_range_function_second_derivative (Ewald.ctor 29 0.1 Inf Inf) 0.5.
Proof.
  apply (wolf_is_shifted_ewald 29 0.1 Inf 0.5). lra.
Defined.

(** ** The older interface against the present one *)

Lemma int_of_double_IZR n :
  (-2147483648 <= n <= 2147483647)%Z -> int_of_double (IZR n) = Ret n.
Proof.
  intro Hn. unfold int_of_double. cbv zeta.
  assert (Hip : forall m, Int_part (IZR m) = m).
  { intro m. symmetry. apply Int_part_spec. lra. }
  assert (Ht : (if Rle_dec 0 (IZR n) then Int_part (IZR n)
                else (- Int_part (- IZR n))%Z) = n).
  { destruct (Rle_dec 0 (IZR n)); [apply Hip|].
    rewrite <- opp_IZR, Hip. lia. }
  rewrite Ht.
  replace ((-2147483648 <=? n) && (n <=? 2147483647))%Z with true; [reflexivity|].
  symmetry. apply andb_true_iff. split; apply Z.leb_le; lia.
Qed.

(** X14.  The older [PairPotential<qPotential>] of [src/src/coulomb.h] and
    the present [qPotential] agree for every integral order [0 <= P <= 170],
    where the factors of the present product are normal doubles: the
    splitting functions agree at every [q] of [[0, 1]] at which
    [(1 - q)^P] has not underflowed, [ion_ion(zA * zB, r)] is
    [ion_ion_energy(zA, zB, r)] at every such separation inside the cutoff
    and at every separation beyond it, and [self_energy(zz, mumu)] is the
    present [self_energy({zz, mumu})]. *)
Theorem old_qPotential_agrees (rc : R) (P : Z) :
  rc <> 0 -> (0 <= P <= 170)%Z ->
  let old := OldCoulomb.PairPotential_ctor (OldCoulomb.qPotential.ctor rc (IZR P)) in
  let new := qPotential.ctor rc P in
  (forall q, 0 <= q <= 1 -> Dt_normal q P ->
     OldCoulomb.splitting_function (OldCoulomb.obj old) q
     = Ret (qPotential.short_range_function new q)) /\
  (forall zA zB r, 0 <= r -> (r < rc -> Dt_normal (r * (1 / rc)) P) ->
     OldCoulomb.ion_ion old (zA * zB) r = ion_ion_energy new zA zB r) /\
  (forall zz mumu, Ret (OldCoulomb.self_energy old zz mumu)
                   = self_energy new (mkarray2 zz mumu)).
Proof.
  intros _ HP old new.
  assert (Hs : forall q, OldCoulomb.splitting_function (OldCoulomb.obj old) q
                         = Ret (qPotential.short_range_function new q)).
  { intro q. subst old new. cbn [OldCoulomb.splitting_function OldCoulomb.qPotential.scheme
      OldCoulomb.obj OldCoulomb.PairPotential_ctor OldCoulomb.qPotential.order
      OldCoulomb.qPotential.ctor].
    rewrite int_of_double_IZR by lia. rewrite bind_Ret_l. f_equal.
    unfold qPotential.short_range_function.
    cbn [qPotential.order qPotential.ctor].
    rewrite qPochhammerSymbol_is_product by lia.
    rewrite Old_qPochhammerSymbol_is_product by lia. reflexivity. }
  split; [intros q _ _; apply Hs|]. split.
  - intros zA zB r _ _. unfold OldCoulomb.ion_ion, ion_ion_energy, ion_potential, fmap.
    cbv zeta. rewrite Hs.
    subst old new. cbn. destruct (Rlt_dec r rc); cbn [bind].
    + f_equal. rewrite Ropp_0, Rmult_0_l, exp_0. unfold Rdiv. ring.
    + f_equal. ring.
  - intros zz mumu. rewrite self_energy_value.
    subst old new. cbn. f_equal. unfold OldCoulomb.self_energy. cbn. unfold powi. simpl. ring.
Qed.

Lemma old_qPotential_agrees_witness :
  OldCoulomb.splitting_function
    (OldCoulomb.obj (OldCoulomb.PairPotential_ctor (OldCoulomb.qPotential.ctor 18 (IZR 3)))) 0.5
  = Ret (qPotential.short_range_function (qPotential.ctor 18 3) 0.5).
Proof.
  apply (proj1 (old_qPotential_agrees 18 3 ltac:(lra) ltac:(lia)) 0.5); [lra|].
  right. apply (DBL_MIN_le_pow _ 1); [simpl; lra | simpl; lia].
Defined.

(** X15.  In the older interface [ion_ion] is 0 at and beyond the cutoff
    for every scheme, and [PairPotential<Plain>] (infinite cutoff, scalar
    prefactor 0) gives the bare [zz / r] at every separation and no
    self-energy, which is what the present [Plain] gives for a charge pair. *)
Theorem old_pair_potential_truncation :
  (forall (T : Type) (S : OldCoulomb.Tscheme T) (t : T) (zz r : R),
     xge r (OldCoulomb.cutoff (OldCoulomb.sbase t)) ->
     OldCoulomb.ion_ion (OldCoulomb.PairPotential_ctor t) zz r = Ret 0) /\
  (forall zz r, r <> 0 ->
     OldCoulomb.ion_ion (OldCoulomb.PairPotential_ctor OldCoulomb.Plain.ctor) zz r
     = Ret (zz / r)) /\
  (forall zA zB r,
     OldCoulomb.ion_ion (OldCoulomb.PairPotential_ctor OldCoulomb.Plain.ctor) (zA * zB) r
     = ion_ion_energy (Plain.ctor Inf) zA zB r) /\
  (forall zz mumu,
     OldCoulomb.self_energy (OldCoulomb.PairPotential_ctor OldCoulomb.Plain.ctor) zz mumu = 0).
Proof.
  split; [|split; [|split]].
  - intros T S t zz r Hr. unfold OldCoulomb.ion_ion.
    cbn [OldCoulomb.obj OldCoulomb.PairPotential_ctor].
    rewrite (xlt_false_of_xge _ _ Hr). reflexivity.
  - intros zz r _. unfold OldCoulomb.ion_ion. cbn. f_equal. ring.
  - intros zA zB r. unfold OldCoulomb.ion_ion, ion_ion_energy, ion_potential, fmap. cbn.
    f_equal. unfold Plain.short_range_function.
    rewrite Ropp_0, Rmult_0_l, exp_0. unfold Rdiv. ring.
  - intros zz mumu. unfold OldCoulomb.self_energy. cbn. ring.
Qed.

Lemma old_pair_potential_truncation_witness :
  OldCoulomb.ion_ion (OldCoulomb.PairPotential_ctor (OldCoulomb.qPotential.ctor 18 3)) 4 18
  = Ret 0 /\
  OldCoulomb.ion_ion (OldCoulomb.PairPotential_ctor OldCoulomb.Plain.ctor) 4 10 = Ret (4 / 10).
Proof.
  split.
  - apply (proj1 old_pair_potential_truncation). cbn. lra.
  - apply (proj1 (proj2 old_pair_potential_truncation)). lra.
Defined.

(** ** How far [factorial] and [binomial] are exact *)

Lemma factorial_range n : (0 <= factorial n < two32)%Z.
Proof.
  unfold factorial. destruct (Z.to_nat n) as [|f]; simpl.
  - unfold two32. lia.
  - destruct (n <=? 1)%Z; [unfold two32; lia|].
    apply Z.mod_pos_bound. unfold two32. lia.
Qed.


Lemma binomial_pascal (n k : nat) : (k <= n)%nat -> (n <= 12)%nat ->
  binomial (Z.of_nat n) (Z.of_nat k) = Ret (pascal n k).
Proof.
  intros Hk Hn.
  assert (Hall : binomial_exact_upto 12 = true) by (vm_compute; reflexivity).
  unfold binomial_exact_upto in Hall. rewrite forallb_forall in Hall.
  specialize (Hall n ltac:(apply in_seq; lia)).
  rewrite forallb_forall in Hall.
  specialize (Hall k ltac:(apply in_seq; lia)).
  destruct (binomial (Z.of_nat n) (Z.of_nat k)) as [v| |]; try discriminate.
  apply Z.eqb_eq in Hall. rewrite Hall. reflexivity.
Qed.

Lemma pascal_small (n k : nat) : (k <= n)%nat -> (n <= 12)%nat -> (0 < pascal n k <= 924)%Z.
Proof.
  intros Hk Hn.
  assert (Hall : forallb (fun i =>
            forallb (fun j => (0 <? pascal i j)%Z && (pascal i j <=? 924)%Z)
                    (seq 0 (S i))) (seq 0 13) = true) by (vm_compute; reflexivity).
  rewrite forallb_forall in Hall.
  specialize (Hall n ltac:(apply in_seq; lia)).
  rewrite forallb_forall in Hall.
  specialize (Hall k ltac:(apply in_seq; lia)).
  apply andb_true_iff in Hall. destruct Hall as [H1 H2].
  apply Z.ltb_lt in H1. apply Z.leb_le in H2. lia.
Qed.

(** X16.  [factorial] is the factorial exactly up to 12 and never from 13
    on (the product no longer fits 32 bits).  [binomial(n, k)] is the
    binomial coefficient for every [k <= n <= 12]; already
    [binomial(13, 1)] is 4.  With [k > n] the difference [n - k] wraps
    around and the quotient is undefined, not 0. *)
Theorem factorial_binomial_exact_range :
  (forall n, (0 <= n < two32)%Z ->
     (factorial n = exact_factorial (Z.to_nat n) <-> (n <= 12)%Z)) /\
  (forall n k : nat, (k <= n)%nat -> (n <= 12)%nat ->
     binomial (Z.of_nat n) (Z.of_nat k) = Ret (pascal n k)) /\
  binomial 13 1 = Ret 4%Z /\
  (forall n k, (0 <= n < k)%Z -> (k <= 2147483648)%Z -> binomial n k = Undef).
Proof.
  split; [|split; [|split]].
  - intros n Hn. split.
    + intro Heq. destruct (Z_le_gt_dec n 12) as [Hle|Hgt]; [exact Hle|]. exfalso.
      pose proof (factorial_range n) as [_ Hlt].
      pose proof (exact_factorial_mono 13 (Z.to_nat n) ltac:(lia)) as [_ Hge].
      assert (H13 : (two32 <= exact_factorial 13)%Z) by (vm_compute; discriminate).
      lia.
    + intro Hle.
      assert (Hall : factorial_exact_upto 12 = true) by (vm_compute; reflexivity).
      unfold factorial_exact_upto in Hall. rewrite forallb_forall in Hall.
      specialize (Hall (Z.to_nat n)). rewrite Z2Nat.id in Hall by lia.
      apply Z.eqb_eq. apply Hall. apply in_seq. lia.
  - exact binomial_pascal.
  - vm_compute. reflexivity.
  - intros n k Hnk Hk. apply binomial_undefined.
    rewrite unsigned_of_int_neg by (unfold two32; lia). unfold two32. lia.
Qed.

Lemma factorial_binomial_exact_range_witness :
  factorial 10 = exact_factorial 10 /\ binomial 3 2 = Ret 3%Z /\ binomial 2 3 = Undef.
Proof.
  split; [|split].
  - apply (proj1 factorial_binomial_exact_range 10%Z); unfold two32; lia.
  - apply (proj1 (proj2 factorial_binomial_exact_range) 3%nat 2%nat); lia.
  - apply (proj2 (proj2 (proj2 factorial_binomial_exact_range))); lia.
Defined.

(** X17.  For [C, D >= 1] with [C + D <= 12] every coefficient the Poisson
    schemes take from [binomial] is the binomial coefficient: those of the
    polynomial, [binomial(D - 1 + c, c)] for [c < C], and the prefactor
    [binomial(C + D, C) * D] of the second and third derivative, whose
    product does not wrap around either. *)
Theorem poisson_coefficients_exact (C D : Z) :
  (1 <= C)%Z -> (1 <= D)%Z -> (C + D <= 12)%Z ->
  (forall c, (0 <= c < C)%Z ->
     binomial (unsigned_of_int (D - 1 + c)) (unsigned_of_int c)
     = Ret (pascal (Z.to_nat (D - 1 + c)) (Z.to_nat c))) /\
  binomial (unsigned_of_int (C + D)) (unsigned_of_int C)
    = Ret (pascal (Z.to_nat (C + D)) (Z.to_nat C)) /\
  ((pascal (Z.to_nat (C + D)) (Z.to_nat C) * unsigned_of_int D) mod two32
   = pascal (Z.to_nat (C + D)) (Z.to_nat C) * D)%Z.
Proof.
  intros HC HD Hsum. split; [|split].
  - intros c Hc. rewrite !unsigned_of_int_id by (unfold two32; lia).
    rewrite <- (Z2Nat.id (D - 1 + c)) at 1 by lia.
    rewrite <- (Z2Nat.id c) at 2 by lia.
    apply binomial_pascal; lia.
  - rewrite !unsigned_of_int_id by (unfold two32; lia).
    rewrite <- (Z2Nat.id (C + D)) at 1 by lia.
    rewrite <- (Z2Nat.id C) at 2 by lia.
    apply binomial_pascal; lia.
  - rewrite unsigned_of_int_id by (unfold two32; lia).
    pose proof (pascal_small (Z.to_nat (C + D)) (Z.to_nat C) ltac:(lia) ltac:(lia)) as Hb.
    apply Z.mod_small. unfold two32. nia.
Qed.

Lemma poisson_coefficients_exact_witness :
  binomial (unsigned_of_int (4 + 3)) (unsigned_of_int 4) = Ret (pascal 7 4).
Proof.
  apply (poisson_coefficients_exact 4 3); lia.
Defined.

(** ** The Poisson derivatives are the derivatives *)

Lemma poisson_chain_check_12 : poisson_chain_check 12 = true.
Proof. vm_compute. reflexivity. Qed.

Lemma pevalZ_cons a p x : pevalZ (a :: p) x = IZR a + x * pevalZ p x.
Proof. reflexivity. Qed.

Lemma pevalZ_nil x : pevalZ [] x = 0.
Proof. reflexivity. Qed.

Lemma pevalZ_padd p : forall q x, pevalZ (padd p q) x = pevalZ p x + pevalZ q x.
Proof.
  induction p as [|a p IH]; intros q x.
  - simpl padd. rewrite pevalZ_nil. ring.
  - destruct q as [|b q].
    + simpl padd. rewrite pevalZ_nil. ring.
    + simpl padd. rewrite !pevalZ_cons, IH, plus_IZR. ring.
Qed.

Lemma pevalZ_pscale k p x : pevalZ (pscale k p) x = IZR k * pevalZ p x.
Proof.
  induction p as [|a p IH].
  - simpl. rewrite pevalZ_nil. ring.
  - change (pscale k (a :: p)) with ((k * a)%Z :: pscale k p).
    rewrite !pevalZ_cons, IH, mult_IZR. ring.
Qed.

Lemma pevalZ_pmul p : forall q x, pevalZ (pmul p q) x = pevalZ p x * pevalZ q x.
Proof.
  induction p as [|a p IH]; intros q x.
  - simpl. rewrite pevalZ_nil. ring.
  - simpl pmul. rewrite pevalZ_padd, pevalZ_pscale, !pevalZ_cons, IH. ring.
Qed.

Lemma pevalZ_ppow p n x : pevalZ (ppow p n) x = pevalZ p x ^ n.
Proof.
  induction n as [|n IH].
  - simpl. rewrite pevalZ_cons, pevalZ_nil. ring.
  - simpl ppow. rewrite pevalZ_pmul, IH. reflexivity.
Qed.

Lemma pevalZ_one_minus_X x : pevalZ one_minus_X x = 1 - x.
Proof. unfold one_minus_X. rewrite !pevalZ_cons, pevalZ_nil. ring. Qed.

Lemma pevalZ_X x : pevalZ poly_X x = x.
Proof. unfold poly_X. rewrite !pevalZ_cons, pevalZ_nil. ring. Qed.

Lemma pevalZ_zero p x : forallb (Z.eqb 0) p = true -> pevalZ p x = 0.
Proof.
  induction p as [|a p IH]; intro Hp.
  - apply pevalZ_nil.
  - cbn [forallb] in Hp. apply andb_true_iff in Hp. destruct Hp as [Ha Hp].
    apply Z.eqb_eq in Ha. subst a. rewrite pevalZ_cons, IH by exact Hp. ring.
Qed.

Lemma pevalZ_peqb p : forall q x, peqb p q = true -> pevalZ p x = pevalZ q x.
Proof.
  induction p as [|a p IH]; intros q x Hpq.
  - cbn [peqb] in Hpq. rewrite (pevalZ_zero q x Hpq). apply pevalZ_nil.
  - destruct q as [|b q].
    + rewrite (pevalZ_zero (a :: p) x Hpq). symmetry. apply pevalZ_nil.
    + cbn [peqb] in Hpq. apply andb_true_iff in Hpq. destruct Hpq as [Hab Hpq].
      apply Z.eqb_eq in Hab. subst b. rewrite !pevalZ_cons, (IH q x Hpq). reflexivity.
Qed.

Lemma pevalZ_pderiv_from p : forall k x,
  pevalZ (pderiv_from k p) x = IZR k * pevalZ p x + x * pderiv (map IZR p) x.
Proof.
  induction p as [|a p IH]; intros k x.
  - simpl. rewrite !pevalZ_nil. ring.
  - simpl pderiv_from. rewrite !pevalZ_cons, IH, mult_IZR, plus_IZR.
    simpl. fold (pevalZ p x). ring.
Qed.

Lemma pevalZ_derivable p x : derivable_pt_lim (pevalZ p) x (pevalZ (pderivl p) x).
Proof.
  apply (derivable_pt_lim_value _ _ _ _ (peval_derivable (map IZR p) x)).
  destruct p as [|a p].
  - reflexivity.
  - simpl pderiv. simpl pderivl. rewrite pevalZ_pderiv_from.
    fold (pevalZ p x). ring.
Qed.

(** A polynomial divided by a constant, and its derivative. *)
Lemma pevalZ_div_derivable p c x :
  derivable_pt_lim (fun y => pevalZ p y / c) x (pevalZ (pderivl p) x / c).
Proof.
  pose proof (derivable_pt_lim_scal (pevalZ p) (/ c) x _ (pevalZ_derivable p x)) as Hd.
  unfold mult_real_fct in Hd.
  apply (derivable_pt_lim_congr _ (fun y => / c * pevalZ p y)).
  - intro y. unfold Rdiv. ring.
  - apply (derivable_pt_lim_value _ _ _ _ Hd). unfold Rdiv. ring.
Qed.

Lemma pascal_n_0 n : pascal n 0 = 1%Z.
Proof. destruct n; reflexivity. Qed.

Section PoissonPolynomials.

Variables (C D : nat) (q : R).
Hypothesis HC : (1 <= C)%nat.
Hypothesis HD : (1 <= D)%nat.
Hypothesis Hsum : (C + D <= 12)%nat.

Let f (c : nat) : Z := (pascal (D - 1 + c) c * Z.of_nat (C - c))%Z.
Let g (c : nat) : Z := (pascal (D - 1 + c) c * Z.of_nat (C - c) * Z.of_nat c)%Z.

Lemma loop_binomial_pascal (c : nat) : (c < C)%nat ->
  binomial (unsigned_of_int (Z.of_nat D - 1 + Z.of_nat c)) (unsigned_of_int (Z.of_nat c))
  = Ret (pascal (D - 1 + c) c).
Proof.
  intro Hc. rewrite !unsigned_of_int_id by (unfold two32; lia).
  replace (Z.of_nat D - 1 + Z.of_nat c)%Z with (Z.of_nat (D - 1 + c)) by lia.
  apply binomial_pascal; lia.
Qed.

Lemma prefactor_binomial_pascal :
  binomial (unsigned_of_int (Z.of_nat C + Z.of_nat D)) (unsigned_of_int (Z.of_nat C))
    = Ret (pascal (C + D) C) /\
  ((pascal (C + D) C * unsigned_of_int (Z.of_nat D)) mod two32
   = pascal (C + D) C * Z.of_nat D)%Z.
Proof.
  rewrite !unsigned_of_int_id by (unfold two32; lia). split.
  - replace (Z.of_nat C + Z.of_nat D)%Z with (Z.of_nat (C + D)) by lia.
    apply binomial_pascal; lia.
  - pose proof (pascal_small (C + D) C ltac:(lia) ltac:(lia)) as Hb.
    apply Z.mod_small. unfold two32. nia.
Qed.

Lemma poisson_s_loop : forall n lo acc, (lo + n = C)%nat ->
  for_loopM (Z.of_nat lo) (Z.of_nat C)
    (fun c tmp =>
       b <- binomial (unsigned_of_int (Z.of_nat D - 1 + c)) (unsigned_of_int c) ;;
       Ret (tmp + IZR b * IZR (Z.of_nat C - c) / IZR (Z.of_nat C)
                  * powi q (unsigned_of_int c)))
    acc
  = Ret (acc + q ^ lo * pevalZ (map f (seq lo n)) q / IZR (Z.of_nat C)).
Proof.
  induction n as [|n IH]; intros lo acc Hn.
  - rewrite for_loopM_done by lia. simpl. rewrite pevalZ_nil. f_equal. unfold Rdiv. ring.
  - rewrite for_loopM_step by lia. rewrite loop_binomial_pascal by lia.
    rewrite bind_Ret_l, bind_Ret_l.
    replace (Z.of_nat lo + 1)%Z with (Z.of_nat (S lo)) by lia.
    rewrite IH by lia. f_equal.
    cbn [seq map]. rewrite pevalZ_cons.
    unfold powi. rewrite unsigned_of_int_id by (unfold two32; lia). rewrite Nat2Z.id.
    unfold f at 2. rewrite mult_IZR.
    replace (Z.of_nat (C - lo)) with (Z.of_nat C - Z.of_nat lo)%Z by lia.
    simpl pow. unfold Rdiv. ring.
Qed.

Lemma poisson_ds_loop : forall n lo a1 a2, (1 <= lo)%nat -> (lo + n = C)%nat ->
  for_loopM (Z.of_nat lo) (Z.of_nat C)
    (fun c '(tmp1, tmp2) =>
       b1 <- binomial (unsigned_of_int (Z.of_nat D - 1 + c)) (unsigned_of_int c) ;;
       b2 <- binomial (unsigned_of_int (Z.of_nat D - 1 + c)) (unsigned_of_int c) ;;
       Ret (tmp1 + IZR b1 * IZR (Z.of_nat C - c) / IZR (Z.of_nat C)
                   * powi q (unsigned_of_int c),
            tmp2 + IZR b2 * IZR (Z.of_nat C - c) / IZR (Z.of_nat C) * IZR c
                   * powi q (unsigned_of_int (c - 1))))
    (a1, a2)
  = Ret (a1 + q ^ lo * pevalZ (map f (seq lo n)) q / IZR (Z.of_nat C),
         a2 + q ^ (lo - 1) * pevalZ (map g (seq lo n)) q / IZR (Z.of_nat C)).
Proof.
  induction n as [|n IH]; intros lo a1 a2 Hlo Hn.
  - rewrite for_loopM_done by lia. simpl. rewrite pevalZ_nil. f_equal.
    f_equal; unfold Rdiv; ring.
  - rewrite for_loopM_step by lia. cbv beta iota.
    rewrite loop_binomial_pascal by lia.
    rewrite !bind_Ret_l.
    replace (Z.of_nat lo + 1)%Z with (Z.of_nat (S lo)) by lia.
    rewrite IH by lia. f_equal.
    cbn [seq map]. rewrite !pevalZ_cons.
    unfold powi. rewrite !unsigned_of_int_id by (unfold two32; lia).
    rewrite Nat2Z.id.
    replace (Z.to_nat (Z.of_nat lo - 1)) with (lo - 1)%nat by lia.
    replace (S lo - 1)%nat with (S (lo - 1)) by lia.
    unfold f at 2, g at 2. rewrite !mult_IZR.
    replace (Z.of_nat (C - lo)) with (Z.of_nat C - Z.of_nat lo)%Z by lia.
    assert (Hp1 : q ^ S lo = q * q ^ lo) by reflexivity.
    assert (Hp2 : q ^ S (lo - 1) = q * q ^ (lo - 1)) by reflexivity.
    rewrite Hp1, Hp2. f_equal; unfold Rdiv; ring.
Qed.

End PoissonPolynomials.

Section PoissonSimpleChain.

Variables (t : PoissonSimple.t) (C D : nat).
Hypothesis HtC : PoissonSimple.C t = Z.of_nat C.
Hypothesis HtD : PoissonSimple.D t = Z.of_nat D.
Hypothesis HC : (1 <= C)%nat.
Hypothesis HD : (1 <= D)%nat.
Hypothesis Hsum : (C + D <= 12)%nat.

Let rC : R := IZR (Z.of_nat C).

Lemma rC_nonzero : rC <> 0.
Proof. unfold rC. apply not_0_IZR. lia. Qed.

Lemma tmpl_split :
  tmpl C D = Z.of_nat C :: map (fun c => (pascal (D - 1 + c) c * Z.of_nat (C - c))%Z)
                               (seq 1 (C - 1)).
Proof.
  unfold tmpl. destruct C as [|C']; [lia|].
  cbn [seq map]. rewrite pascal_n_0.
  replace (S C' - 1)%nat with C' by lia. f_equal.
Qed.

Lemma PoissonSimple_s_poly q :
  PoissonSimple.short_range_function t q = Ret (pevalZ (poisson_s_poly C D) q / rC).
Proof.
  unfold PoissonSimple.short_range_function. rewrite HtC, HtD.
  pose proof (poisson_s_loop C D q HC HD Hsum C 0 0 eq_refl) as Hloop.
  change (Z.of_nat 0) with 0%Z in Hloop.
  rewrite Hloop, bind_Ret_l. f_equal.
  unfold poisson_s_poly. rewrite pevalZ_pmul, pevalZ_ppow, pevalZ_one_minus_X.
  unfold powi. rewrite unsigned_of_int_id by (unfold two32; lia).
  replace (Z.to_nat (Z.of_nat D + 1)) with (D + 1)%nat by lia.
  fold (tmpl C D). fold rC. simpl pow. unfold Rdiv. ring.
Qed.

Lemma PoissonSimple_ds_poly q :
  PoissonSimple.short_range_function_derivative t q
  = Ret (pevalZ (poisson_ds_poly C D) q / rC).
Proof.
  unfold PoissonSimple.short_range_function_derivative. rewrite HtC, HtD.
  pose proof (poisson_ds_loop C D q HC HD Hsum (C - 1) 1 1 0 ltac:(lia) ltac:(lia)) as Hloop.
  change (Z.of_nat 1) with 1%Z in Hloop.
  rewrite Hloop, bind_Ret_l. cbv iota beta. f_equal.
  unfold poisson_ds_poly.
  rewrite pevalZ_padd, pevalZ_pscale, !pevalZ_pmul, !pevalZ_ppow, pevalZ_one_minus_X.
  rewrite tmpl_split, pevalZ_cons. fold (dtmpl C D).
  unfold powi. rewrite !unsigned_of_int_id by (unfold two32; lia).
  replace (Z.to_nat (Z.of_nat D + 1)) with (D + 1)%nat by lia.
  rewrite Nat2Z.id. rewrite opp_IZR.
  replace (Z.of_nat (D + 1)) with (Z.of_nat D + 1)%Z by lia.
  fold rC. simpl pow. field. exact rC_nonzero.
Qed.

Lemma PoissonSimple_dds_poly q :
  PoissonSimple.short_range_function_second_derivative t q
  = Ret (pevalZ (poisson_dds_poly C D) q).
Proof.
  unfold PoissonSimple.short_range_function_second_derivative. rewrite HtC, HtD.
  destruct (prefactor_binomial_pascal C D HC HD Hsum) as [Hb Hmod].
  rewrite Hb, bind_Ret_l, Hmod. f_equal.
  unfold poisson_dds_poly.
  rewrite pevalZ_pscale, pevalZ_pmul, !pevalZ_ppow, pevalZ_one_minus_X, pevalZ_X.
  unfold powi. rewrite !unsigned_of_int_id by (unfold two32; lia).
  replace (Z.to_nat (Z.of_nat D - 1)) with (D - 1)%nat by lia.
  replace (Z.to_nat (Z.of_nat C - 1)) with (C - 1)%nat by lia.
  ring.
Qed.

Lemma PoissonSimple_ddds_poly q : (2 <= C)%nat -> (2 <= D)%nat ->
  PoissonSimple.short_range_function_third_derivative t q
  = Ret (pevalZ (poisson_ddds_poly C D) q).
Proof.
  intros HC2 HD2.
  unfold PoissonSimple.short_range_function_third_derivative. rewrite HtC, HtD.
  destruct (prefactor_binomial_pascal C D HC HD Hsum) as [Hb Hmod].
  rewrite Hb, bind_Ret_l, Hmod. f_equal.
  unfold poisson_ddds_poly.
  rewrite pevalZ_pscale, !pevalZ_pmul, !pevalZ_ppow, pevalZ_one_minus_X, pevalZ_X.
  rewrite !pevalZ_cons, pevalZ_nil.
  unfold powi. rewrite !unsigned_of_int_id by (unfold two32; lia).
  replace (Z.to_nat (Z.of_nat D - 2)) with (D - 2)%nat by lia.
  replace (Z.to_nat (Z.of_nat C - 2)) with (C - 2)%nat by lia.
  rewrite !minus_IZR. replace (Z.of_nat (C + D)) with (Z.of_nat C + Z.of_nat D)%Z by lia.
  ring.
Qed.

Lemma poisson_chain_checked :
  peqb (pderivl (poisson_s_poly C D)) (poisson_ds_poly C D) = true /\
  peqb (pderivl (poisson_ds_poly C D)) (pscale (Z.of_nat C) (poisson_dds_poly C D)) = true /\
  ((2 <= C)%nat -> (2 <= D)%nat ->
   peqb (pderivl (poisson_dds_poly C D)) (poisson_ddds_poly C D) = true).
Proof.
  pose proof poisson_chain_check_12 as Hall.
  unfold poisson_chain_check in Hall. rewrite forallb_forall in Hall.
  specialize (Hall C ltac:(apply in_seq; lia)).
  rewrite forallb_forall in Hall.
  specialize (Hall D ltac:(apply in_seq; lia)).
  replace (C + D <=? 12)%nat with true in Hall by (symmetry; apply Nat.leb_le; lia).
  apply andb_true_iff in Hall. destruct Hall as [Hall H3].
  apply andb_true_iff in Hall. destruct Hall as [H1 H2].
  split; [exact H1|]. split; [exact H2|].
  intros HC2 HD2.
  replace ((2 <=? C)%nat && (2 <=? D)%nat) with true in H3; [exact H3|].
  symmetry. apply andb_true_iff. split; apply Nat.leb_le; lia.
Qed.

Lemma PoissonSimple_chain :
  (forall q, derivable_pt_lim (fun y => pevalZ (poisson_s_poly C D) y / rC) q
               (pevalZ (poisson_ds_poly C D) q / rC)) /\
  (forall q, derivable_pt_lim (fun y => pevalZ (poisson_ds_poly C D) y / rC) q
               (pevalZ (poisson_dds_poly C D) q)) /\
  ((2 <= C)%nat -> (2 <= D)%nat ->
   forall q, derivable_pt_lim (pevalZ (poisson_dds_poly C D)) q
               (pevalZ (poisson_ddds_poly C D) q)).
Proof.
  destruct poisson_chain_checked as (H1 & H2 & H3).
  split; [|split].
  - intro q. apply (derivable_pt_lim_value _ _ _ _ (pevalZ_div_derivable _ rC q)).
    rewrite (pevalZ_peqb _ _ q H1). reflexivity.
  - intro q. apply (derivable_pt_lim_value _ _ _ _ (pevalZ_div_derivable _ rC q)).
    rewrite (pevalZ_peqb _ _ q H2), pevalZ_pscale. fold rC. field. exact rC_nonzero.
  - intros HC2 HD2 q. apply (derivable_pt_lim_value _ _ _ _ (pevalZ_derivable _ q)).
    apply pevalZ_peqb. apply H3; assumption.
Qed.

End PoissonSimpleChain.

(** X18.  For [C, D >= 1] with [C + D <= 12] the derivative functions of
    PoissonSimple are the derivatives they are named after: there are
    functions [s], [s'], [s''] that the code returns at every [q], with [s']
    the derivative of [s] and [s''] the derivative of [s'], and for
    [C, D >= 2] the third-derivative function returns the derivative of
    [s'']. *)
Theorem poisson_simple_derivative_chain (t : PoissonSimple.t) :
  (1 <= PoissonSimple.C t)%Z -> (1 <= PoissonSimple.D t)%Z ->
  (PoissonSimple.C t + PoissonSimple.D t <= 12)%Z ->
  exists s ds dds ddds : R -> R,
    (forall q,
       PoissonSimple.short_range_function t q = Ret (s q) /\
       PoissonSimple.short_range_function_derivative t q = Ret (ds q) /\
       PoissonSimple.short_range_function_second_derivative t q = Ret (dds q) /\
       ((2 <= PoissonSimple.C t)%Z -> (2 <= PoissonSimple.D t)%Z ->
        PoissonSimple.short_range_function_third_derivative t q = Ret (ddds q))) /\
    (forall q, derivable_pt_lim s q (ds q)) /\
    (forall q, derivable_pt_lim ds q (dds q)) /\
    ((2 <= PoissonSimple.C t)%Z -> (2 <= PoissonSimple.D t)%Z ->
     forall q, derivable_pt_lim dds q (ddds q)).
Proof.
  intros HC HD Hsum.
  set (Cn := Z.to_nat (PoissonSimple.C t)). set (Dn := Z.to_nat (PoissonSimple.D t)).
  assert (HCn : (1 <= Cn)%nat) by (unfold Cn; lia).
  assert (HDn : (1 <= Dn)%nat) by (unfold Dn; lia).
  assert (Hsn : (Cn + Dn <= 12)%nat) by (unfold Cn, Dn; lia).
  assert (HtC : PoissonSimple.C t = Z.of_nat Cn) by (unfold Cn; lia).
  assert (HtD : PoissonSimple.D t = Z.of_nat Dn) by (unfold Dn; lia).
  destruct (PoissonSimple_chain Cn Dn HCn HDn Hsn) as (H1 & H2 & H3).
  exists (fun y => pevalZ (poisson_s_poly Cn Dn) y / IZR (Z.of_nat Cn)),
         (fun y => pevalZ (poisson_ds_poly Cn Dn) y / IZR (Z.of_nat Cn)),
         (pevalZ (poisson_dds_poly Cn Dn)), (pevalZ (poisson_ddds_poly Cn Dn)).
  split; [|split; [exact H1|split; [exact H2|]]].
  - intro q.
    split; [apply PoissonSimple_s_poly; assumption|].
    split; [apply PoissonSimple_ds_poly; assumption|].
    split; [apply PoissonSimple_dds_poly; assumption|].
    intros HC2 HD2. apply PoissonSimple_ddds_poly; try assumption; unfold Cn, Dn; lia.
  - intros HC2 HD2. apply H3; unfold Cn, Dn; lia.
Qed.

Lemma poisson_simple_derivative_chain_witness :
  exists s ds : R -> R,
    (forall q, derivable_pt_lim s q (ds q)) /\
    forall q,
      PoissonSimple.short_range_function
        (PoissonSimple.mk (EnergyImplementation_ctor poisson (Fin 29) Inf) 4 3) q = Ret (s q).
Proof.
  destruct (poisson_simple_derivative_chain
              (PoissonSimple.mk (EnergyImplementation_ctor poisson (Fin 29) Inf) 4 3))
    as (s & ds & dds & ddds & Hf & H1 & _); [cbn; lia | cbn; lia | cbn; lia |].
  exists s, ds. split; [exact H1|]. intro q. apply (Hf q).
Defined.

(** *** With a Debye length: the substitution [q -> qp(q)] *)

Section YukawaSubstitution.

Variables (k den : R).

Let qp (q : R) : R := (1 - exp (2 * k * q)) * den.
Let qp1 (q : R) : R := -2 * k * exp (2 * k * q) * den.
Let qp2 (q : R) : R := -4 * (k * k) * exp (2 * k * q) * den.
Let qp3 (q : R) : R := -8 * (k * k) * k * exp (2 * k * q) * den.

Lemma exp_2kq_derivable q :
  derivable_pt_lim (fun y => exp (2 * k * y)) q (2 * k * exp (2 * k * q)).
Proof.
  pose proof (derivable_pt_lim_comp (mult_real_fct (2 * k) id) exp q _ _
                (derivable_pt_lim_scal id (2 * k) q 1 (derivable_pt_lim_id q))
                (derivable_pt_lim_exp _)) as Hd.
  unfold comp, mult_real_fct, id in Hd.
  apply (derivable_pt_lim_value _ _ _ _ Hd). ring.
Qed.

Lemma scaled_exp_derivable a q :
  derivable_pt_lim (fun y => a * exp (2 * k * y) * den) q (a * (2 * k * exp (2 * k * q)) * den).
Proof.
  pose proof (derivable_pt_lim_scal _ (a * den) q _ (exp_2kq_derivable q)) as Hd.
  unfold mult_real_fct in Hd.
  apply (derivable_pt_lim_congr _ (fun y => a * den * exp (2 * k * y))).
  - intro y. ring.
  - apply (derivable_pt_lim_value _ _ _ _ Hd). ring.
Qed.

Lemma qp_derivable q : derivable_pt_lim qp q (qp1 q).
Proof.
  apply (derivable_pt_lim_congr _ (fun y => den - (1 * exp (2 * k * y) * den))%R).
  - intro y. unfold qp. ring.
  - pose proof (derivable_pt_lim_minus _ _ q _ _ (derivable_pt_lim_const den q)
                  (scaled_exp_derivable 1 q)) as Hd.
    unfold minus_fct, fct_cte in Hd.
    apply (derivable_pt_lim_value _ _ _ _ Hd). unfold qp1. ring.
Qed.

Lemma qp1_derivable q : derivable_pt_lim qp1 q (qp2 q).
Proof.
  apply (derivable_pt_lim_value _ _ _ _ (scaled_exp_derivable (-2 * k) q)).
  unfold qp2. ring.
Qed.

Lemma qp2_derivable q : derivable_pt_lim qp2 q (qp3 q).
Proof.
  apply (derivable_pt_lim_value _ _ _ _ (scaled_exp_derivable (-4 * (k * k)) q)).
  unfold qp3. ring.
Qed.

Variables (S0 S1 S2 S3 : R -> R).
Hypothesis HS0 : forall y, derivable_pt_lim S0 y (S1 y).
Hypothesis HS1 : forall y, derivable_pt_lim S1 y (S2 y).

Lemma substituted_s_derivable q :
  derivable_pt_lim (fun y => S0 (qp y)) q (S1 (qp q) * qp1 q).
Proof.
  exact (derivable_pt_lim_comp qp S0 q _ _ (qp_derivable q) (HS0 (qp q))).
Qed.

Lemma substituted_ds_derivable q :
  derivable_pt_lim (fun y => S1 (qp y) * qp1 y) q
    (S2 (qp q) * qp1 q * qp1 q + S1 (qp q) * qp2 q).
Proof.
  pose proof (derivable_pt_lim_mult _ _ q _ _
                (derivable_pt_lim_comp qp S1 q _ _ (qp_derivable q) (HS1 (qp q)))
                (qp1_derivable q)) as Hd.
  unfold mult_fct, comp in Hd.
  apply (derivable_pt_lim_value _ _ _ _ Hd). ring.
Qed.

Lemma substituted_dds_derivable q :
  (forall y, derivable_pt_lim S2 y (S3 y)) ->
  derivable_pt_lim (fun y => S2 (qp y) * qp1 y * qp1 y + S1 (qp y) * qp2 y) q
    (S3 (qp q) * qp1 q * qp1 q * qp1 q + 3 * S2 (qp q) * qp1 q * qp2 q + S1 (qp q) * qp3 q).
Proof.
  intro HS2.
  pose proof (derivable_pt_lim_comp qp S2 q _ _ (qp_derivable q) (HS2 (qp q))) as H2.
  pose proof (derivable_pt_lim_comp qp S1 q _ _ (qp_derivable q) (HS1 (qp q))) as H1.
  pose proof (derivable_pt_lim_plus _ _ q _ _
                (derivable_pt_lim_mult _ _ q _ _
                   (derivable_pt_lim_mult _ _ q _ _ H2 (qp1_derivable q))
                   (qp1_derivable q))
                (derivable_pt_lim_mult _ _ q _ _ H1 (qp2_derivable q))) as Hd.
  unfold plus_fct, mult_fct, comp in Hd.
  apply (derivable_pt_lim_value _ _ _ _ Hd). ring.
Qed.

End YukawaSubstitution.

Lemma poisson_dds_value (C D : nat) (x : R) :
  (1 <= C)%nat -> (1 <= D)%nat -> (C + D <= 12)%nat ->
  IZR (pascal (C + D) C * Z.of_nat D)
  * powi (1 - x) (unsigned_of_int (Z.of_nat D - 1))
  * powi x (unsigned_of_int (Z.of_nat C - 1))
  = pevalZ (poisson_dds_poly C D) x.
Proof.
  intros HC HD Hsum. unfold poisson_dds_poly.
  rewrite pevalZ_pscale, pevalZ_pmul, !pevalZ_ppow, pevalZ_one_minus_X, pevalZ_X.
  unfold powi. rewrite !unsigned_of_int_id by (unfold two32; lia).
  replace (Z.to_nat (Z.of_nat D - 1)) with (D - 1)%nat by lia.
  replace (Z.to_nat (Z.of_nat C - 1)) with (C - 1)%nat by lia.
  ring.
Qed.

Lemma poisson_ddds_value (C D : nat) (x : R) :
  (2 <= C)%nat -> (2 <= D)%nat -> (C + D <= 12)%nat ->
  IZR (pascal (C + D) C * Z.of_nat D)
  * powi (1 - x) (unsigned_of_int (Z.of_nat D - 2))
  * powi x (unsigned_of_int (Z.of_nat C - 2))
  * ((2 - IZR (Z.of_nat C + Z.of_nat D)) * x + IZR (Z.of_nat C) - 1)
  = pevalZ (poisson_ddds_poly C D) x.
Proof.
  intros HC HD Hsum. unfold poisson_ddds_poly.
  rewrite pevalZ_pscale, !pevalZ_pmul, !pevalZ_ppow, pevalZ_one_minus_X, pevalZ_X.
  rewrite !pevalZ_cons, pevalZ_nil.
  unfold powi. rewrite !unsigned_of_int_id by (unfold two32; lia).
  replace (Z.to_nat (Z.of_nat D - 2)) with (D - 2)%nat by lia.
  replace (Z.to_nat (Z.of_nat C - 2)) with (C - 2)%nat by lia.
  rewrite !minus_IZR. replace (Z.of_nat (C + D)) with (Z.of_nat C + Z.of_nat D)%Z by lia.
  ring.
Qed.

Section PoissonChain.

Variables (p : Poisson.t) (C D : nat).
Hypothesis HpC : Poisson.C p = Z.of_nat C.
Hypothesis HpD : Poisson.D p = Z.of_nat D.
Hypothesis HC : (1 <= C)%nat.
Hypothesis HD : (1 <= D)%nat.
Hypothesis Hsum : (C + D <= 12)%nat.
Hypothesis Hk2 :
  Poisson.yukawa p = true -> Poisson.kappaRed2 p = Poisson.kappaRed p * Poisson.kappaRed p.
Hypothesis Hbc : Poisson.binomCDC p = IZR (pascal (C + D) C * Z.of_nat D).

Let k : R := Poisson.kappaRed p.
Let den : R := Poisson.yukawa_denom p.
Let rC : R := IZR (Z.of_nat C).
Let ps : PoissonSimple.t := PoissonSimple.mk (Poisson.base p) (Z.of_nat C) (Z.of_nat D).

Let qp (q : R) : R := if Poisson.yukawa p then (1 - exp (2 * k * q)) * den else q.
Let qp1 (q : R) : R := if Poisson.yukawa p then -2 * k * exp (2 * k * q) * den else 1.
Let qp2 (q : R) : R := if Poisson.yukawa p then -4 * (k * k) * exp (2 * k * q) * den else 0.
Let qp3 (q : R) : R :=
  if Poisson.yukawa p then -8 * (k * k) * k * exp (2 * k * q) * den else 0.

Let S0 (y : R) : R := pevalZ (poisson_s_poly C D) y / rC.
Let S1 (y : R) : R := pevalZ (poisson_ds_poly C D) y / rC.
Let S2 (y : R) : R := pevalZ (poisson_dds_poly C D) y.
Let S3 (y : R) : R := pevalZ (poisson_ddds_poly C D) y.

Lemma Poisson_s_form q : Poisson.short_range_function p q = Ret (S0 (qp q)).
Proof.
  transitivity (PoissonSimple.short_range_function ps (qp q)).
  - unfold Poisson.short_range_function, PoissonSimple.short_range_function.
    rewrite HpC, HpD. reflexivity.
  - apply PoissonSimple_s_poly; try assumption; reflexivity.
Qed.

Lemma yukawa_dSdqp_form x : Poisson.yukawa_dSdqp p x = Ret (S1 x).
Proof.
  transitivity (PoissonSimple.short_range_function_derivative ps x).
  - unfold Poisson.yukawa_dSdqp, PoissonSimple.short_range_function_derivative.
    rewrite HpC, HpD. reflexivity.
  - apply PoissonSimple_ds_poly; try assumption; reflexivity.
Qed.

Lemma Poisson_ds_form q :
  Poisson.short_range_function_derivative p q = Ret (S1 (qp q) * qp1 q).
Proof.
  assert (Hsimple : forall x dq,
    (tmp <- for_loopM 1 (Poisson.C p)
              (fun c '(tmp1, tmp2) =>
                 b <- binomial (unsigned_of_int (Poisson.D p - 1 + c)) (unsigned_of_int c) ;;
                 let _fact := IZR b * IZR (Poisson.C p - c) / IZR (Poisson.C p) in
                 Ret (tmp1 + _fact * powi x (unsigned_of_int c),
                      tmp2 + _fact * IZR c * powi x (unsigned_of_int (c - 1))))
              (1, 0) ;;
     let '(tmp1, tmp2) := tmp in
     let dSdqp := - IZR (Poisson.D p + 1) * powi (1 - x) (unsigned_of_int (Poisson.D p)) * tmp1
                  + powi (1 - x) (unsigned_of_int (Poisson.D p + 1)) * tmp2 in
     Ret (dSdqp * dq))
    = Ret (S1 x * dq)).
  { intros x dq. rewrite <- (bind_Ret_l (S1 x) (fun dS => Ret (dS * dq))).
    rewrite <- yukawa_dSdqp_form. unfold Poisson.yukawa_dSdqp.
    match goal with
    | |- bind (for_loopM _ _ ?f _) _ = bind (bind (for_loopM _ _ ?g _) _) _ =>
        rewrite (for_loopM_ext_range 1 (Poisson.C p) f g)
    end.
    - destruct (for_loopM _ _ _ _) as [[tmp1 tmp2]| |]; cbn [bind]; reflexivity.
    - intros c [tmp1 tmp2].
      destruct (binomial (unsigned_of_int (Poisson.D p - 1 + c)) (unsigned_of_int c))
        as [b0| |]; cbn [bind]; reflexivity. }
  unfold Poisson.short_range_function_derivative, qp, qp1.
  destruct (Poisson.yukawa p); cbv iota beta zeta; apply Hsimple.
Qed.

Lemma Poisson_dds_form q :
  Poisson.short_range_function_second_derivative p q
  = Ret (S2 (qp q) * qp1 q * qp1 q + S1 (qp q) * qp2 q).
Proof.
  unfold Poisson.short_range_function_second_derivative, qp, qp1, qp2.
  rewrite Hbc, HpC, HpD.
  destruct (Poisson.yukawa p) eqn:Ey; cbv iota beta zeta.
  - rewrite yukawa_dSdqp_form, !bind_Ret_l. cbv iota beta.
    rewrite poisson_dds_value by assumption. rewrite (Hk2 eq_refl). reflexivity.
  - rewrite bind_Ret_l. cbv iota beta.
    rewrite poisson_dds_value by assumption. f_equal. unfold S2. ring.
Qed.

Lemma Poisson_ddds_form q : (2 <= C)%nat -> (2 <= D)%nat ->
  Poisson.short_range_function_third_derivative p q
  = Ret (S3 (qp q) * qp1 q * qp1 q * qp1 q + 3 * S2 (qp q) * qp1 q * qp2 q
         + S1 (qp q) * qp3 q).
Proof.
  intros HC2 HD2.
  unfold Poisson.short_range_function_third_derivative, qp, qp1, qp2, qp3.
  rewrite Hbc, HpC, HpD.
  destruct (Poisson.yukawa p) eqn:Ey; cbv iota beta zeta.
  - rewrite yukawa_dSdqp_form, !bind_Ret_l. cbv iota beta.
    rewrite poisson_dds_value, poisson_ddds_value by assumption.
    rewrite (Hk2 eq_refl). reflexivity.
  - rewrite bind_Ret_l. cbv iota beta.
    rewrite poisson_ddds_value by assumption. f_equal. unfold S3. ring.
Qed.

Lemma Poisson_qp_derivable q :
  derivable_pt_lim qp q (qp1 q) /\ derivable_pt_lim qp1 q (qp2 q) /\
  derivable_pt_lim qp2 q (qp3 q).
Proof.
  unfold qp, qp1, qp2, qp3. destruct (Poisson.yukawa p).
  - split; [apply qp_derivable|]. split; [apply qp1_derivable | apply qp2_derivable].
  - split; [apply derivable_pt_lim_id|].
    split; [exact (derivable_pt_lim_const 1 q) | exact (derivable_pt_lim_const 0 q)].
Qed.

End PoissonChain.

(** X19.  For every [Poisson] object a constructor returns with
    [C + D <= 12], with or without a (nonzero) Debye length, the four
    functions are the splitting function and its successive derivatives
    with respect to [q], the chain rule through the substituted variable
    [qp = (1 - exp(2 kappa q)) / (1 - exp(2 kappa))] included (the third for
    [C, D >= 2]). *)
Theorem poisson_derivative_chain (rc : R) (C D : Z) (dl : xreal) (p : Poisson.t) :
  nonzero_length dl -> Poisson.ctor rc C D dl = Ret p -> (C + D <= 12)%Z ->
  exists s ds dds ddds : R -> R,
    (forall q,
       Poisson.short_range_function p q = Ret (s q) /\
       Poisson.short_range_function_derivative p q = Ret (ds q) /\
       Poisson.short_range_function_second_derivative p q = Ret (dds q) /\
       ((2 <= C)%Z -> (2 <= D)%Z ->
        Poisson.short_range_function_third_derivative p q = Ret (ddds q))) /\
    (forall q, derivable_pt_lim s q (ds q)) /\
    (forall q, derivable_pt_lim ds q (dds q)) /\
    ((2 <= C)%Z -> (2 <= D)%Z -> forall q, derivable_pt_lim dds q (ddds q)).
Proof.
  intros _ Hp Hsum.
  destruct (Poisson_ctor_inv _ _ _ _ _ Hp) as (Hg & HpC & HpD & _).
  unfold poisson_guard_rejects in Hg. apply orb_false_iff in Hg.
  destruct Hg as [Hg1 Hg2]. apply Z.ltb_ge in Hg1, Hg2.
  assert (HCi : (C < 2147483648)%Z) by lia.
  assert (HDi : (D < 2147483648)%Z) by lia.
  destruct (Poisson_ctor_bounds _ _ _ _ _ HCi HDi Hp) as [HCb HDb].
  destruct (Poisson_ctor_fields _ _ _ _ _ Hp)
    as (_ & _ & _ & Hk2 & (b & Hb & HbCDC) & _).
  set (Cn := Z.to_nat C). set (Dn := Z.to_nat D).
  assert (HCn : (1 <= Cn)%nat) by (unfold Cn; lia).
  assert (HDn : (1 <= Dn)%nat) by (unfold Dn; lia).
  assert (Hsn : (Cn + Dn <= 12)%nat) by (unfold Cn, Dn; lia).
  assert (HpC' : Poisson.C p = Z.of_nat Cn) by (unfold Cn; lia).
  assert (HpD' : Poisson.D p = Z.of_nat Dn) by (unfold Dn; lia).
  assert (Hk2' : Poisson.yukawa p = true ->
                 Poisson.kappaRed2 p = Poisson.kappaRed p * Poisson.kappaRed p).
  { intro Hy. rewrite Hk2, Hy. reflexivity. }
  assert (Hbc : Poisson.binomCDC p = IZR (pascal (Cn + Dn) Cn * Z.of_nat Dn)).
  { destruct (prefactor_binomial_pascal Cn Dn HCn HDn Hsn) as [Hb' Hmod].
    rewrite <- HpC', <- HpD', HpC, HpD in Hb'.
    rewrite Hb in Hb'. injection Hb' as ->.
    rewrite HbCDC. rewrite <- HpD at 1. rewrite HpD'. f_equal. exact Hmod. }
  destruct (PoissonSimple_chain Cn Dn HCn HDn Hsn) as (H1 & H2 & H3).
  eexists _, _, _, _. split; [|split; [|split]].
  - intro q.
    split; [apply (Poisson_s_form p Cn Dn); assumption|].
    split; [apply (Poisson_ds_form p Cn Dn); assumption|].
    split; [apply (Poisson_dds_form p Cn Dn); assumption|].
    intros HC2 HD2.
    apply (Poisson_ddds_form p Cn Dn); try assumption; unfold Cn, Dn; lia.
  - intro q. cbv beta.
    destruct (Poisson_qp_derivable p Hk2' q) as (Q1 & Q2 & Q3).
    exact (derivable_pt_lim_comp _ _ q _ _ Q1 (H1 _)).
  - intro q. cbv beta.
    destruct (Poisson_qp_derivable p Hk2' q) as (Q1 & Q2 & Q3).
    pose proof (derivable_pt_lim_mult _ _ q _ _
                  (derivable_pt_lim_comp _ _ q _ _ Q1 (H2 _)) Q2) as Hd.
    unfold mult_fct, comp in Hd.
    apply (derivable_pt_lim_value _ _ _ _ Hd). ring.
  - intros HC2 HD2 q. cbv beta.
    destruct (Poisson_qp_derivable p Hk2' q) as (Q1 & Q2 & Q3).
    specialize (H3 ltac:(unfold Cn; lia) ltac:(unfold Dn; lia)).
    pose proof (derivable_pt_lim_comp _ _ q _ _ Q1 (H3 _)) as D2.
    pose proof (derivable_pt_lim_comp _ _ q _ _ Q1 (H2 _)) as D1.
    pose proof (derivable_pt_lim_plus _ _ q _ _
                  (derivable_pt_lim_mult _ _ q _ _
                     (derivable_pt_lim_mult _ _ q _ _ D2 Q2) Q2)
                  (derivable_pt_lim_mult _ _ q _ _ D1 Q3)) as Hd.
    unfold plus_fct, mult_fct, comp in Hd.
    apply (derivable_pt_lim_value _ _ _ _ Hd). ring.
Qed.

Lemma poisson_derivative_chain_witness :
  exists (p : Poisson.t) (s ds : R -> R),
    Poisson.ctor 29 4 3 (Fin 23) = Ret p /\
    (forall q, Poisson.short_range_function p q = Ret (s q)) /\
    (forall q, derivable_pt_lim s q (ds q)).
Proof.
  destruct (Poisson_ctor_returns 29 4 3 (Fin 23)) as [p Hp]; [lia | lia |].
  destruct (poisson_derivative_chain 29 4 3 (Fin 23) p)
    as (s & ds & dds & ddds & Hf & H1 & _); [cbn; lra | exact Hp | lia |].
  exists p, s, ds. split; [exact Hp|]. split; [|exact H1].
  intro q. apply (Hf q).
Defined.

(** ** The field is minus the gradient of the potential *)

Lemma derivable_pt_lim_local f g x l (delta : R) :
  0 < delta -> (forall y, Rabs (y - x) < delta -> f y = g y) ->
  derivable_pt_lim g x l -> derivable_pt_lim f x l.
Proof.
  intros Hdelta Hfg Hg eps Heps. destruct (Hg eps Heps) as [d Hd].
  assert (Hmin : 0 < Rmin d delta) by (apply Rmin_pos; [apply cond_pos | exact Hdelta]).
  exists (mkposreal _ Hmin). intros h Hh Hlt. cbn [pos] in Hlt.
  assert (Hh1 : Rabs h < d) by (apply Rlt_le_trans with (1 := Hlt); apply Rmin_l).
  assert (Hh2 : Rabs h < delta) by (apply Rlt_le_trans with (1 := Hlt); apply Rmin_r).
  rewrite (Hfg (x + h)), (Hfg x).
  - apply Hd; assumption.
  - replace (x - x) with 0 by ring. rewrite Rabs_R0. exact Hdelta.
  - replace (x + h - x) with h by ring. exact Hh2.
Qed.

Section Gradient.

Context {T : Type} `{SplittingScheme T}.
Variables (this : T) (s ds : R -> R).
Hypothesis Hs : forall q, srf this q = Ret (s q).
Hypothesis Hds : forall q, dsrf this q = Ret (ds q).
Hypothesis Hder : forall q, derivable_pt_lim s q (ds q).

Let ic : R := invcutoff (impl this).
Let kap : R := kappa (impl this).

(** The potential inside the cutoff and its derivative in [r]. *)
Let phi (z r : R) : R := z / r * s (r * ic) * exp (- kap * r).
Let dphi (z r : R) : R :=
  - (z / (r * r) * (s (r * ic) * (1 + kap * r) - r * ic * ds (r * ic)) * exp (- kap * r)).

Lemma phi_derivable z r : r <> 0 -> derivable_pt_lim (phi z) r (dphi z r).
Proof.
  intro Hr.
  pose proof (derivable_pt_lim_div (fct_cte z) id r _ _
                (derivable_pt_lim_const z r) (derivable_pt_lim_id r) Hr) as D1.
  pose proof (derivable_pt_lim_comp (mult_real_fct ic id) s r _ _
                (derivable_pt_lim_scal id ic r 1 (derivable_pt_lim_id r))
                (Hder _)) as D2.
  pose proof (derivable_pt_lim_comp (mult_real_fct (- kap) id) exp r _ _
                (derivable_pt_lim_scal id (- kap) r 1 (derivable_pt_lim_id r))
                (derivable_pt_lim_exp _)) as D3.
  pose proof (derivable_pt_lim_mult _ _ r _ _
                (derivable_pt_lim_mult _ _ r _ _ D1 D2) D3) as Hd.
  unfold mult_fct, div_fct, comp, mult_real_fct, fct_cte, id in Hd.
  apply (derivable_pt_lim_congr _
           (fun y => z / y * s (ic * y) * exp (- kap * y))).
  - intro y. unfold phi. rewrite (Rmult_comm y ic). reflexivity.
  - apply (derivable_pt_lim_value _ _ _ _ Hd).
    unfold dphi, Rsqr. rewrite (Rmult_comm r ic). field. exact Hr.
Qed.

Hypothesis Hbuilt : engine_built (impl this).

Lemma potential_inside z r :
  xlt r (cutoff (sbase (impl this))) = true -> ion_potential this z r = Ret (phi z r).
Proof.
  intro Hin. unfold ion_potential. cbv zeta. rewrite Hin, Hs, bind_Ret_l. reflexivity.
Qed.

Lemma potential_derivable z r :
  r <> 0 -> xlt r (cutoff (sbase (impl this))) = true ->
  derivable_pt_lim (fun y => returned (ion_potential this z y)) r (dphi z r).
Proof.
  intros Hr Hin.
  assert (Hloc : exists delta, 0 < delta /\
            forall y, Rabs (y - r) < delta -> xlt y (cutoff (sbase (impl this))) = true).
  { destruct (cutoff (sbase (impl this))) as [c|].
    - cbn [xlt] in Hin. destruct (Rlt_dec r c) as [Hlt|]; [|discriminate].
      exists (c - r). split; [lra|]. intros y Hy. cbn [xlt].
      destruct (Rlt_dec y c) as [|Hge]; [reflexivity|]. exfalso.
      apply Rabs_def2 in Hy. lra.
    - exists 1. split; [lra|]. reflexivity. }
  destruct Hloc as (delta & Hdelta & Hnear).
  apply (derivable_pt_lim_local _ (phi z) r _ delta Hdelta).
  - intros y Hy. rewrite potential_inside by (apply Hnear; exact Hy). reflexivity.
  - apply phi_derivable. exact Hr.
Qed.

Lemma field_inside z rv :
  0 < norm rv -> xlt (norm rv) (cutoff (sbase (impl this))) = true ->
  ion_field this z rv = Ret (vscale (- dphi z (norm rv) / norm rv) rv).
Proof.
  intros Hpos Hin.
  assert (Hin2 : xlt (squaredNorm rv) (cutoff2 (impl this)) = true).
  { destruct Hbuilt as [_ Hc2]. rewrite Hc2.
    destruct (cutoff (sbase (impl this))) as [c|]; [|reflexivity].
    cbn [xlt xsqr] in Hin |- *. destruct (Rlt_dec (norm rv) c) as [Hlt|]; [|discriminate].
    destruct (Rlt_dec (squaredNorm rv) (c * c)) as [|Hge]; [reflexivity|]. exfalso.
    apply Hge. rewrite <- norm_sqr. nra. }
  unfold ion_field. cbv zeta. rewrite Hin2, Hs, Hds, !bind_Ret_l.
  change (sqrt (squaredNorm rv)) with (norm rv). fold ic kap.
  rewrite <- (norm_sqr rv). unfold dphi.
  unfold vmul, vdiv, vscale. cbn [vx vy vz].
  f_equal. f_equal; field; lra.
Qed.

End Gradient.

(** X20.  The ion field is minus the gradient of the ion potential.
    Whenever a scheme's derivative function is the derivative of its
    splitting function, the potential [ion_potential(z, r)] the engine
    returns is differentiable in [r] at every separation inside the cutoff,
    and [ion_field(z, r)] is minus that derivative times the unit vector
    along [r]. *)
Theorem ion_field_is_minus_gradient {T : Type} `{SplittingScheme T} (this : T)
  (s ds : R -> R) (z : R) (rv : vec3) :
  (forall q, srf this q = Ret (s q)) ->
  (forall q, dsrf this q = Ret (ds q)) ->
  (forall q, derivable_pt_lim s q (ds q)) ->
  engine_built (impl this) ->
  0 < norm rv -> xlt (norm rv) (cutoff (sbase (impl this))) = true ->
  exists dphi,
    derivable_pt_lim (fun r => returned (ion_potential this z r)) (norm rv) dphi /\
    ion_field this z rv = Ret (vscale (- dphi / norm rv) rv).
Proof.
  intros Hs Hds Hder Hbuilt Hpos Hin.
  eexists. split.
  - apply (potential_derivable this s ds Hs Hder); [lra | exact Hin].
  - apply (field_inside this s ds Hs Hds Hbuilt); assumption.
Qed.

Lemma ion_field_is_minus_gradient_witness :
  exists dphi,
    derivable_pt_lim (fun r => returned (ion_potential (Plain.ctor Inf) 2 r))
      (norm (mkvec3 10 0 0)) dphi /\
    ion_field (Plain.ctor Inf) 2 (mkvec3 10 0 0)
    = Ret (vscale (- dphi / norm (mkvec3 10 0 0)) (mkvec3 10 0 0)).
Proof.
  apply (ion_field_is_minus_gradient (Plain.ctor Inf) (fun _ => 1) (fun _ => 0)).
  - reflexivity.
  - reflexivity.
  - intro q. exact (derivable_pt_lim_const 1 q).
  - split; reflexivity.
  - unfold norm. apply sqrt_lt_R0. unfold squaredNorm, dot. cbn. lra.
  - reflexivity.
Defined.

(** ** Second and third derivative of the q-Pochhammer symbol *)

Lemma scaled_pow_derivable (a : R) (n : nat) x :
  derivable_pt_lim (fun y => a * y ^ n) x (a * (INR n * x ^ pred n)).
Proof.
  exact (derivable_pt_lim_scal _ a x _ (derivable_pt_lim_pow x n)).
Qed.

Lemma geometric_sum_derivative_derivable m x :
  derivable_pt_lim (fun y => geometric_sum_derivative y m) x (geometric_sum_derivative2 x m).
Proof.
  induction m as [|m IH].
  - exact (derivable_pt_lim_const 0 x).
  - exact (derivable_pt_lim_plus _ _ x _ _ IH (scaled_pow_derivable (INR m) (pred m) x)).
Qed.

Lemma geometric_sum_derivative2_derivable m x :
  derivable_pt_lim (fun y => geometric_sum_derivative2 y m) x (geometric_sum_derivative3 x m).
Proof.
  induction m as [|m IH].
  - exact (derivable_pt_lim_const 0 x).
  - pose proof (derivable_pt_lim_scal _ (INR m) x _
                  (scaled_pow_derivable (INR (pred m)) (pred (pred m)) x)) as Hd.
    exact (derivable_pt_lim_plus _ _ x _ _ IH Hd).
Qed.

Section InnerLoops.

Variable q : R.

(** The loop from [k = 3] of the second and third derivative: the second
    derivative of the geometric sum and, started at 1, its first. *)
Lemma second_quotient_loop : forall m : nat, (2 <= m)%nat -> (Z.of_nat m < two32)%Z ->
  for_loop 3 (Z.of_nat m + 1)
    (fun k '(diffNom, diffDenom) =>
       (diffNom + IZR ((k - 1) * (k - 2)) * powi q (unsigned_of_int (k - 3)),
        diffDenom + IZR (k - 1) * powi q (unsigned_of_int (k - 2))))
    (0, 1)
  = (geometric_sum_derivative2 q m, geometric_sum_derivative q m).
Proof.
  induction m as [|m IH]; intros Hm Hlt; [lia|].
  destruct (Nat.eq_dec m 1) as [->|Hne].
  - rewrite for_loop_done by (simpl; lia). simpl. f_equal; ring.
  - rewrite (Nat2Z.inj_succ m). unfold Z.succ.
    rewrite for_loop_last by lia. rewrite IH by lia.
    cbv beta iota.
    rewrite !unsigned_of_int_id by lia. unfold powi.
    replace (Z.to_nat (Z.of_nat m + 1 - 3)) with (pred (pred m)) by lia.
    replace (Z.to_nat (Z.of_nat m + 1 - 2)) with (pred m) by lia.
    replace (Z.of_nat m + 1 - 1)%Z with (Z.of_nat m) by lia.
    replace (Z.of_nat m + 1 - 2)%Z with (Z.of_nat (pred m)) by lia.
    rewrite mult_IZR, <- !INR_IZR_INZ.
    cbn [geometric_sum_derivative2 geometric_sum_derivative]. f_equal. ring.
Qed.

(** The loop from [k = 4] of the third derivative, started at [(0, 2)]. *)
Lemma third_quotient_loop : forall m : nat, (3 <= m)%nat -> (Z.of_nat m < two32)%Z ->
  for_loop 4 (Z.of_nat m + 1)
    (fun k '(ddf, ddg) =>
       (ddf + IZR ((k - 1) * (k - 2) * (k - 3)) * powi q (unsigned_of_int (k - 4)),
        ddg + IZR ((k - 1) * (k - 2)) * powi q (unsigned_of_int (k - 3))))
    (0, 2)
  = (geometric_sum_derivative3 q m, geometric_sum_derivative2 q m).
Proof.
  induction m as [|m IH]; intros Hm Hlt; [lia|].
  destruct (Nat.eq_dec m 2) as [->|Hne].
  - rewrite for_loop_done by (simpl; lia). simpl. f_equal; ring.
  - rewrite (Nat2Z.inj_succ m). unfold Z.succ.
    rewrite for_loop_last by lia. rewrite IH by lia.
    cbv beta iota.
    rewrite !unsigned_of_int_id by lia. unfold powi.
    replace (Z.to_nat (Z.of_nat m + 1 - 4)) with (pred (pred (pred m))) by lia.
    replace (Z.to_nat (Z.of_nat m + 1 - 3)) with (pred (pred m)) by lia.
    replace (Z.of_nat m + 1 - 1)%Z with (Z.of_nat m) by lia.
    replace (Z.of_nat m + 1 - 2)%Z with (Z.of_nat (pred m)) by lia.
    replace (Z.of_nat m + 1 - 3)%Z with (Z.of_nat (pred (pred m))) by lia.
    rewrite !mult_IZR, <- !INR_IZR_INZ.
    cbn [geometric_sum_derivative3 geometric_sum_derivative2]. f_equal; ring.
Qed.

End InnerLoops.

Section Factors.

Variable l : Z.
Hypothesis Hl : (0 <= l)%Z.

Lemma gprod_step x (P : nat) :
  gprod x l (Z.of_nat (S P))
  = gprod x l (Z.of_nat P) * geometric_sum x (Z.to_nat (Z.of_nat P + 1 + l)).
Proof.
  unfold gprod. rewrite Nat2Z.inj_succ. unfold Z.succ.
  rewrite for_loop_last by lia. reflexivity.
Qed.

Lemma gsum1_step x (P : nat) :
  gsum1 x l (Z.of_nat (S P))
  = gsum1 x l (Z.of_nat P)
    + geometric_sum_derivative x (Z.to_nat (Z.of_nat P + 1 + l))
      / geometric_sum x (Z.to_nat (Z.of_nat P + 1 + l)).
Proof.
  unfold gsum1. rewrite Nat2Z.inj_succ. unfold Z.succ.
  rewrite for_loop_last by lia. reflexivity.
Qed.

Lemma gsum2_step x (P : nat) :
  let m := Z.to_nat (Z.of_nat P + 1 + l) in
  gsum2 x l (Z.of_nat (S P))
  = gsum2 x l (Z.of_nat P)
    + (geometric_sum_derivative2 x m * geometric_sum x m
       - geometric_sum_derivative x m * geometric_sum_derivative x m)
      / geometric_sum x m / geometric_sum x m.
Proof.
  unfold gsum2. rewrite Nat2Z.inj_succ. unfold Z.succ.
  rewrite for_loop_last by lia. reflexivity.
Qed.

Lemma gsum3_step x (P : nat) :
  let m := Z.to_nat (Z.of_nat P + 1 + l) in
  let g := geometric_sum x m in
  let g1 := geometric_sum_derivative x m in
  let g2 := geometric_sum_derivative2 x m in
  let g3 := geometric_sum_derivative3 x m in
  gsum3 x l (Z.of_nat (S P))
  = gsum3 x l (Z.of_nat P)
    + (g3 * g * g - 2 * g2 * g1 * g + 2 * g1 * g1 * g1 - g1 * g2 * g) / g / g / g.
Proof.
  unfold gsum3. rewrite Nat2Z.inj_succ. unfold Z.succ.
  rewrite for_loop_last by lia. reflexivity.
Qed.

Lemma gprod_derivable x : 0 <= x -> forall P : nat,
  derivable_pt_lim (fun y => gprod y l (Z.of_nat P)) x
    (gprod x l (Z.of_nat P) * gsum1 x l (Z.of_nat P)).
Proof.
  intros Hx P. exact (prodG_derivable l Hl x Hx P).
Qed.

Lemma gsum1_derivable x : 0 <= x -> forall P : nat,
  derivable_pt_lim (fun y => gsum1 y l (Z.of_nat P)) x (gsum2 x l (Z.of_nat P)).
Proof.
  intros Hx. induction P as [|P IH].
  - apply (derivable_pt_lim_congr _ (fct_cte 0)).
    + intro y. unfold gsum1. rewrite for_loop_done by (simpl; lia). reflexivity.
    + apply (derivable_pt_lim_value _ _ _ _ (derivable_pt_lim_const 0 x)).
      unfold gsum2. rewrite for_loop_done by (simpl; lia). reflexivity.
  - set (m := Z.to_nat (Z.of_nat P + 1 + l)).
    apply (derivable_pt_lim_congr _ _ _ _ (fun y => gsum1_step y P)).
    assert (Hg : geometric_sum x m <> 0).
    { pose proof (geometric_sum_ge_1 x m Hx ltac:(lia)). lra. }
    pose proof (derivable_pt_lim_plus _ _ x _ _ IH
                  (derivable_pt_lim_div _ _ x _ _
                     (geometric_sum_derivative_derivable m x)
                     (geometric_sum_derivable m x) Hg)) as Hd.
    unfold plus_fct, div_fct in Hd. fold m.
    apply (derivable_pt_lim_value _ _ _ _ Hd).
    rewrite gsum2_step. cbv zeta. fold m. unfold Rsqr. field. exact Hg.
Qed.

Lemma gsum2_derivable x : 0 <= x -> forall P : nat,
  derivable_pt_lim (fun y => gsum2 y l (Z.of_nat P)) x (gsum3 x l (Z.of_nat P)).
Proof.
  intros Hx. induction P as [|P IH].
  - apply (derivable_pt_lim_congr _ (fct_cte 0)).
    + intro y. unfold gsum2. rewrite for_loop_done by (simpl; lia). reflexivity.
    + apply (derivable_pt_lim_value _ _ _ _ (derivable_pt_lim_const 0 x)).
      unfold gsum3. rewrite for_loop_done by (simpl; lia). reflexivity.
  - set (m := Z.to_nat (Z.of_nat P + 1 + l)).
    apply (derivable_pt_lim_congr _ _ _ _ (fun y => gsum2_step y P)).
    assert (Hg : geometric_sum x m <> 0).
    { pose proof (geometric_sum_ge_1 x m Hx ltac:(lia)). lra. }
    pose proof (geometric_sum_derivable m x) as G0.
    pose proof (geometric_sum_derivative_derivable m x) as G1.
    pose proof (geometric_sum_derivative2_derivable m x) as G2.
    pose proof (derivable_pt_lim_minus _ _ x _ _
                  (derivable_pt_lim_mult _ _ x _ _ G2 G0)
                  (derivable_pt_lim_mult _ _ x _ _ G1 G1)) as Hnum.
    pose proof (derivable_pt_lim_plus _ _ x _ _ IH
                  (derivable_pt_lim_div _ _ x _ _
                     (derivable_pt_lim_div _ _ x _ _ Hnum G0 Hg) G0 Hg)) as Hd.
    unfold plus_fct, div_fct, minus_fct, mult_fct in Hd. cbv zeta. fold m.
    apply (derivable_pt_lim_value _ _ _ _ Hd).
    rewrite gsum3_step. cbv zeta. fold m. unfold Rsqr. field. exact Hg.
Qed.

End Factors.

Section DerivativeLoops.

Variables (q : R) (l : Z).
Hypothesis Hl : (0 <= l)%Z.

(** One round of the loop over [n] in the second derivative. *)
Lemma second_derivative_round (n : Z) (Ct DS dDS : R) :
  (1 <= n)%Z -> (n + l < two32)%Z ->
  let m := Z.to_nat (n + l) in
  let g := geometric_sum q m in
  let g1 := geometric_sum_derivative q m in
  let g2 := geometric_sum_derivative2 q m in
  (let tmp := for_loop 1 (n + l + 1)
                (fun k tmp => tmp + powi q (unsigned_of_int (k - 1))) 0 in
   let Ct := Ct * tmp in
   let '(nom, denom) :=
     for_loop 2 (n + l + 1)
       (fun k '(nom, denom) =>
          (nom + IZR (k - 1) * powi q (unsigned_of_int (k - 2)),
           denom + powi q (unsigned_of_int (k - 1))))
       (0, 1) in
   let DS := DS + nom / denom in
   let '(diffNom, diffDenom) :=
     for_loop 3 (n + l + 1)
       (fun k '(diffNom, diffDenom) =>
          (diffNom + IZR ((k - 1) * (k - 2)) * powi q (unsigned_of_int (k - 3)),
           diffDenom + IZR (k - 1) * powi q (unsigned_of_int (k - 2))))
       (0, 1) in
   let dDS := dDS + (diffNom * denom - nom * diffDenom) / denom / denom in
   (Ct, DS, dDS))
  = (Ct * g, DS + g1 / g, dDS + (g2 * g - g1 * g1) / g / g).
Proof.
  intros Hn Hlt m g g1 g2. cbv zeta.
  rewrite inner_sum_loop by lia. fold m. fold g.
  replace (n + l)%Z with (Z.of_nat m) by (unfold m; lia).
  rewrite quotient_loop by (unfold m; lia). fold g g1.
  destruct (Nat.eq_dec m 1) as [Hm1|Hm1].
  - rewrite for_loop_done by lia.
    unfold g, g1, g2. rewrite Hm1. simpl. f_equal. f_equal. field.
  - rewrite second_quotient_loop by (unfold m; lia). fold g1 g2. reflexivity.
Qed.

Lemma second_derivative_loop : forall P : nat, (l + Z.of_nat P < two32)%Z ->
  for_loop 1 (Z.of_nat P + 1)
    (fun n '(Ct, DS, dDS) =>
       let tmp := for_loop 1 (n + l + 1)
                    (fun k tmp => tmp + powi q (unsigned_of_int (k - 1))) 0 in
       let Ct := Ct * tmp in
       let '(nom, denom) :=
         for_loop 2 (n + l + 1)
           (fun k '(nom, denom) =>
              (nom + IZR (k - 1) * powi q (unsigned_of_int (k - 2)),
               denom + powi q (unsigned_of_int (k - 1))))
           (0, 1) in
       let DS := DS + nom / denom in
       let '(diffNom, diffDenom) :=
         for_loop 3 (n + l + 1)
           (fun k '(diffNom, diffDenom) =>
              (diffNom + IZR ((k - 1) * (k - 2)) * powi q (unsigned_of_int (k - 3)),
               diffDenom + IZR (k - 1) * powi q (unsigned_of_int (k - 2))))
           (0, 1) in
       let dDS := dDS + (diffNom * denom - nom * diffDenom) / denom / denom in
       (Ct, DS, dDS))
    (1, 0, 0)
  = (gprod q l (Z.of_nat P), gsum1 q l (Z.of_nat P), gsum2 q l (Z.of_nat P)).
Proof.
  intro P.
  match goal with |- _ -> for_loop _ _ ?b _ = _ => set (body := b) end.
  induction P as [|P IH]; intro Hlt.
  - unfold gprod, gsum1, gsum2. rewrite !for_loop_done by (simpl; lia). reflexivity.
  - rewrite gprod_step, gsum1_step, gsum2_step by exact Hl. cbv zeta.
    rewrite Nat2Z.inj_succ. unfold Z.succ.
    rewrite for_loop_last by lia. rewrite IH by lia.
    unfold body. cbv beta iota.
    rewrite second_derivative_round by lia. reflexivity.
Qed.

End DerivativeLoops.

(** The powers of [1 - q] and their derivatives. *)
Lemma one_minus_pow_derivable2 x (n : nat) :
  derivable_pt_lim (fun y => - INR n * (1 - y) ^ pred n) x
    (INR n * (INR (pred n) * (1 - x) ^ pred (pred n))).
Proof.
  pose proof (derivable_pt_lim_scal _ (- INR n) x _ (one_minus_pow_derivable x (pred n)))
    as Hd.
  unfold mult_real_fct in Hd.
  apply (derivable_pt_lim_value _ _ _ _ Hd). ring.
Qed.

Lemma one_minus_pow_derivable3 x (n : nat) :
  derivable_pt_lim (fun y => INR n * (INR (pred n) * (1 - y) ^ pred (pred n))) x
    (- INR n * (INR (pred n) * (INR (pred (pred n)) * (1 - x) ^ pred (pred (pred n))))).
Proof.
  pose proof (derivable_pt_lim_scal _ (INR n * INR (pred n)) x _
                (one_minus_pow_derivable x (pred (pred n)))) as Hd.
  unfold mult_real_fct in Hd.
  apply (derivable_pt_lim_congr _ (fun y => INR n * INR (pred n) * (1 - y) ^ pred (pred n))).
  - intro y. ring.
  - apply (derivable_pt_lim_value _ _ _ _ Hd). ring.
Qed.

(** The guarded expressions of the code for them. *)
Lemma dDt_form q (P : nat) : (Z.of_nat P < two32)%Z ->
  (if (0 <? Z.of_nat P)%Z
   then IZR (- Z.of_nat P) * powi (1 - q) (unsigned_of_int (Z.of_nat P - 1)) else 0)
  = - INR P * (1 - q) ^ pred P.
Proof.
  intro Hlt. destruct (Z.ltb_spec 0 (Z.of_nat P)) as [Hpos|Hzero].
  - unfold powi. rewrite unsigned_of_int_id by lia.
    replace (Z.to_nat (Z.of_nat P - 1)) with (pred P) by lia.
    rewrite opp_IZR, <- INR_IZR_INZ. reflexivity.
  - replace P with 0%nat by lia. simpl. ring.
Qed.

Lemma ddDt_form q (P : nat) : (Z.of_nat P < two32)%Z ->
  (if (1 <? Z.of_nat P)%Z
   then IZR (Z.of_nat P * (Z.of_nat P - 1)) * powi (1 - q) (unsigned_of_int (Z.of_nat P - 2))
   else 0)
  = INR P * (INR (pred P) * (1 - q) ^ pred (pred P)).
Proof.
  intro Hlt. destruct (Z.ltb_spec 1 (Z.of_nat P)) as [Hpos|Hsmall].
  - unfold powi. rewrite unsigned_of_int_id by lia.
    replace (Z.to_nat (Z.of_nat P - 2)) with (pred (pred P)) by lia.
    replace (Z.of_nat P - 1)%Z with (Z.of_nat (pred P)) by lia.
    rewrite mult_IZR, <- !INR_IZR_INZ. ring.
  - destruct P as [|[|P]]; [simpl; ring | simpl; ring | lia].
Qed.

Lemma dddDt_form q (P : nat) : (Z.of_nat P < two32)%Z ->
  (if (2 <? Z.of_nat P)%Z
   then IZR (- Z.of_nat P * (Z.of_nat P - 1) * (Z.of_nat P - 2))
        * powi (1 - q) (unsigned_of_int (Z.of_nat P - 3))
   else 0)
  = - INR P * (INR (pred P) * (INR (pred (pred P)) * (1 - q) ^ pred (pred (pred P)))).
Proof.
  intro Hlt. destruct (Z.ltb_spec 2 (Z.of_nat P)) as [Hpos|Hsmall].
  - unfold powi. rewrite unsigned_of_int_id by lia.
    replace (Z.to_nat (Z.of_nat P - 3)) with (pred (pred (pred P))) by lia.
    replace (Z.of_nat P - 1)%Z with (Z.of_nat (pred P)) by lia.
    replace (Z.of_nat P - 2)%Z with (Z.of_nat (pred (pred P))) by lia.
    rewrite !mult_IZR, opp_IZR, <- !INR_IZR_INZ. ring.
  - destruct P as [|[|[|P]]]; [simpl; ring | simpl; ring | simpl; ring | lia].
Qed.

Section SecondDerivative.

Variables (l : Z) (P : nat).
Hypothesis Hl : (0 <= l)%Z.
Hypothesis Hsum : (l + Z.of_nat P < 2147483647)%Z.

Let Ct (y : R) : R := gprod y l (Z.of_nat P).
Let DS (y : R) : R := gsum1 y l (Z.of_nat P).
Let dDS (y : R) : R := gsum2 y l (Z.of_nat P).
Let Dt (y : R) : R := (1 - y) ^ P.
Let dDt (y : R) : R := - INR P * (1 - y) ^ pred P.
Let ddDt (y : R) : R := INR P * (INR (pred P) * (1 - y) ^ pred (pred P)).

Lemma qPochhammerSymbolDerivative_form y :
  qPochhammerSymbolDerivative y l (Z.of_nat P) = Ct y * dDt y + DS y * Ct y * Dt y.
Proof.
  unfold qPochhammerSymbolDerivative. cbv zeta.
  rewrite (running_product_loop y l Hl (Z.of_nat P)) by (unfold two32; lia).
  rewrite (quotient_sum_loop_Z l Hl y (Z.of_nat P)) by (unfold two32; lia).
  rewrite dDt_form by (unfold two32; lia).
  unfold powi. rewrite unsigned_of_int_id by (unfold two32; lia). rewrite Nat2Z.id.
  reflexivity.
Qed.

Lemma qPochhammerSymbolSecondDerivative_form y :
  qPochhammerSymbolSecondDerivative y l (Z.of_nat P)
  = Ct y * ddDt y + 2 * (Ct y * DS y) * dDt y
    + (Ct y * DS y * DS y + Ct y * dDS y) * Dt y.
Proof.
  pose proof (second_derivative_loop y l Hl P ltac:(unfold two32; lia)) as Hloop.
  unfold qPochhammerSymbolSecondDerivative. cbv zeta in Hloop |- *.
  rewrite Hloop. cbv iota beta.
  rewrite dDt_form, ddDt_form by (unfold two32; lia).
  unfold powi. rewrite unsigned_of_int_id by (unfold two32; lia). rewrite Nat2Z.id.
  reflexivity.
Qed.

Lemma qPochhammerSymbolDerivative_derivable q : 0 <= q ->
  derivable_pt_lim (fun y => qPochhammerSymbolDerivative y l (Z.of_nat P)) q
    (qPochhammerSymbolSecondDerivative q l (Z.of_nat P)).
Proof.
  intro Hq.
  apply (derivable_pt_lim_congr _ _ _ _ qPochhammerSymbolDerivative_form).
  rewrite qPochhammerSymbolSecondDerivative_form.
  pose proof (gprod_derivable l Hl q Hq P) as DC. fold Ct DS in DC.
  pose proof (gsum1_derivable l Hl q Hq P) as DD. fold DS dDS in DD.
  pose proof (one_minus_pow_derivable q P) as D0. fold Dt dDt in D0.
  pose proof (one_minus_pow_derivable2 q P) as D1. fold dDt ddDt in D1.
  pose proof (derivable_pt_lim_plus _ _ q _ _
                (derivable_pt_lim_mult _ _ q _ _ DC D1)
                (derivable_pt_lim_mult _ _ q _ _
                   (derivable_pt_lim_mult _ _ q _ _ DD DC) D0)) as Hd.
  unfold plus_fct, mult_fct in Hd.
  apply (derivable_pt_lim_value _ _ _ _ Hd).
  unfold Ct, DS, dDS, Dt, dDt, ddDt. ring.
Qed.

End SecondDerivative.

Section ThirdDerivativeLoops.

Variables (q : R) (l : Z).
Hypothesis Hl : (0 <= l)%Z.

Lemma second_quotient_loop_guarded (m : nat) : (1 <= m)%nat -> (Z.of_nat m < two32)%Z ->
  for_loop 3 (Z.of_nat m + 1)
    (fun k '(df, dg) =>
       (df + IZR ((k - 1) * (k - 2)) * powi q (unsigned_of_int (k - 3)),
        dg + IZR (k - 1) * powi q (unsigned_of_int (k - 2))))
    (0, if (1 <? Z.of_nat m)%Z then 1 else 0)
  = (geometric_sum_derivative2 q m, geometric_sum_derivative q m).
Proof.
  intros Hm Hlt. destruct (Z.ltb_spec 1 (Z.of_nat m)) as [Hbig|Hsmall].
  - apply second_quotient_loop; lia.
  - replace m with 1%nat by lia. rewrite for_loop_done by (simpl; lia).
    simpl. f_equal; ring.
Qed.

Lemma third_quotient_loop_guarded (m : nat) : (1 <= m)%nat -> (Z.of_nat m < two32)%Z ->
  for_loop 4 (Z.of_nat m + 1)
    (fun k '(ddf, ddg) =>
       (ddf + IZR ((k - 1) * (k - 2) * (k - 3)) * powi q (unsigned_of_int (k - 4)),
        ddg + IZR ((k - 1) * (k - 2)) * powi q (unsigned_of_int (k - 3))))
    (0, if (2 <? Z.of_nat m)%Z then 2 else 0)
  = (geometric_sum_derivative3 q m, geometric_sum_derivative2 q m).
Proof.
  intros Hm Hlt. destruct (Z.ltb_spec 2 (Z.of_nat m)) as [Hbig|Hsmall].
  - apply third_quotient_loop; lia.
  - rewrite for_loop_done by lia.
    destruct m as [|[|[|m]]]; [lia | | | lia]; simpl; f_equal; ring.
Qed.

Lemma third_derivative_round (n : Z) (Ct DS dDS ddDS : R) :
  (1 <= n)%Z -> (n + l < two32)%Z ->
  let m := Z.to_nat (n + l) in
  let g := geometric_sum q m in
  let g1 := geometric_sum_derivative q m in
  let g2 := geometric_sum_derivative2 q m in
  let g3 := geometric_sum_derivative3 q m in
  (let tmp := for_loop 1 (n + l + 1)
                (fun k tmp => tmp + powi q (unsigned_of_int (k - 1))) 0 in
   let Ct := Ct * tmp in
   let '(f, g) :=
     for_loop 2 (n + l + 1)
       (fun k '(f, g) =>
          (f + IZR (k - 1) * powi q (unsigned_of_int (k - 2)),
           g + powi q (unsigned_of_int (k - 1))))
       (0, 1) in
   let DS := DS + f / g in
   let dg0 := if (1 <? n + l)%Z then 1 else 0 in
   let '(df, dg) :=
     for_loop 3 (n + l + 1)
       (fun k '(df, dg) =>
          (df + IZR ((k - 1) * (k - 2)) * powi q (unsigned_of_int (k - 3)),
           dg + IZR (k - 1) * powi q (unsigned_of_int (k - 2))))
       (0, dg0) in
   let dDS := dDS + (df * g - f * dg) / g / g in
   let ddg0 := if (2 <? n + l)%Z then 2 else 0 in
   let '(ddf, ddg) :=
     for_loop 4 (n + l + 1)
       (fun k '(ddf, ddg) =>
          (ddf + IZR ((k - 1) * (k - 2) * (k - 3)) * powi q (unsigned_of_int (k - 4)),
           ddg + IZR ((k - 1) * (k - 2)) * powi q (unsigned_of_int (k - 3))))
       (0, ddg0) in
   let ddDS :=
     ddDS + (ddf * g * g - 2 * df * dg * g + 2 * f * dg * dg - f * ddg * g) / g / g / g in
   (Ct, DS, dDS, ddDS))
  = (Ct * g, DS + g1 / g, dDS + (g2 * g - g1 * g1) / g / g,
     ddDS + (g3 * g * g - 2 * g2 * g1 * g + 2 * g1 * g1 * g1 - g1 * g2 * g) / g / g / g).
Proof.
  intros Hn Hlt m g g1 g2 g3. cbv zeta.
  rewrite inner_sum_loop by lia. fold m. fold g.
  replace (n + l)%Z with (Z.of_nat m) by (unfold m; lia).
  rewrite quotient_loop by (unfold m; lia). fold g g1.
  rewrite second_quotient_loop_guarded by (unfold m; lia). fold g1 g2.
  rewrite third_quotient_loop_guarded by (unfold m; lia). fold g2 g3.
  reflexivity.
Qed.

Lemma third_derivative_loop : forall P : nat, (l + Z.of_nat P < two32)%Z ->
  for_loop 1 (Z.of_nat P + 1)
    (fun n '(Ct, DS, dDS, ddDS) =>
       let tmp := for_loop 1 (n + l + 1)
                    (fun k tmp => tmp + powi q (unsigned_of_int (k - 1))) 0 in
       let Ct := Ct * tmp in
       let '(f, g) :=
         for_loop 2 (n + l + 1)
           (fun k '(f, g) =>
              (f + IZR (k - 1) * powi q (unsigned_of_int (k - 2)),
               g + powi q (unsigned_of_int (k - 1))))
           (0, 1) in
       let DS := DS + f / g in
       let dg0 := if (1 <? n + l)%Z then 1 else 0 in
       let '(df, dg) :=
         for_loop 3 (n + l + 1)
           (fun k '(df, dg) =>
              (df + IZR ((k - 1) * (k - 2)) * powi q (unsigned_of_int (k - 3)),
               dg + IZR (k - 1) * powi q (unsigned_of_int (k - 2))))
           (0, dg0) in
       let dDS := dDS + (df * g - f * dg) / g / g in
       let ddg0 := if (2 <? n + l)%Z then 2 else 0 in
       let '(ddf, ddg) :=
         for_loop 4 (n + l + 1)
           (fun k '(ddf, ddg) =>
              (ddf + IZR ((k - 1) * (k - 2) * (k - 3)) * powi q (unsigned_of_int (k - 4)),
               ddg + IZR ((k - 1) * (k - 2)) * powi q (unsigned_of_int (k - 3))))
           (0, ddg0) in
       let ddDS :=
         ddDS + (ddf * g * g - 2 * df * dg * g + 2 * f * dg * dg - f * ddg * g) / g / g / g in
       (Ct, DS, dDS, ddDS))
    (1, 0, 0, 0)
  = (gprod q l (Z.of_nat P), gsum1 q l (Z.of_nat P), gsum2 q l (Z.of_nat P),
     gsum3 q l (Z.of_nat P)).
Proof.
  intro P.
  match goal with |- _ -> for_loop _ _ ?b _ = _ => set (body := b) end.
  induction P as [|P IH]; intro Hlt.
  - unfold gprod, gsum1, gsum2, gsum3. rewrite !for_loop_done by (simpl; lia). reflexivity.
  - rewrite gprod_step, gsum1_step, gsum2_step, gsum3_step by exact Hl. cbv zeta.
    rewrite Nat2Z.inj_succ. unfold Z.succ.
    rewrite for_loop_last by lia. rewrite IH by lia.
    unfold body. cbv beta iota.
    rewrite third_derivative_round by lia. reflexivity.
Qed.

End ThirdDerivativeLoops.

Section ThirdDerivative.

Variables (l : Z) (P : nat).
Hypothesis Hl : (0 <= l)%Z.
Hypothesis Hsum : (l + Z.of_nat P < 2147483647)%Z.

Let Ct (y : R) : R := gprod y l (Z.of_nat P).
Let DS (y : R) : R := gsum1 y l (Z.of_nat P).
Let dDS (y : R) : R := gsum2 y l (Z.of_nat P).
Let ddDS (y : R) : R := gsum3 y l (Z.of_nat P).
Let Dt (y : R) : R := (1 - y) ^ P.
Let dDt (y : R) : R := - INR P * (1 - y) ^ pred P.
Let ddDt (y : R) : R := INR P * (INR (pred P) * (1 - y) ^ pred (pred P)).
Let dddDt (y : R) : R :=
  - INR P * (INR (pred P) * (INR (pred (pred P)) * (1 - y) ^ pred (pred (pred P)))).

Lemma qPochhammerSymbolThirdDerivative_form y :
  qPochhammerSymbolThirdDerivative y l (Z.of_nat P)
  = (Ct y * DS y * DS y * DS y + 3 * (Ct y * DS y * dDS y) + Ct y * ddDS y) * Dt y
    + 3 * (Ct y * DS y * DS y + Ct y * dDS y) * dDt y
    + 3 * (Ct y * DS y) * ddDt y + Ct y * dddDt y.
Proof.
  pose proof (third_derivative_loop y l Hl P ltac:(unfold two32; lia)) as Hloop.
  unfold qPochhammerSymbolThirdDerivative. cbv zeta in Hloop |- *.
  rewrite Hloop. cbv iota beta.
  rewrite dDt_form, ddDt_form, dddDt_form by (unfold two32; lia).
  unfold powi. rewrite unsigned_of_int_id by (unfold two32; lia). rewrite Nat2Z.id.
  unfold Ct, DS, dDS, ddDS, Dt, dDt, ddDt, dddDt. ring.
Qed.

Lemma qPochhammerSymbolSecondDerivative_derivable q : 0 <= q ->
  derivable_pt_lim (fun y => qPochhammerSymbolSecondDerivative y l (Z.of_nat P)) q
    (qPochhammerSymbolThirdDerivative q l (Z.of_nat P)).
Proof.
  intro Hq.
  apply (derivable_pt_lim_congr _ _ _ _
           (qPochhammerSymbolSecondDerivative_form l P Hl Hsum)).
  rewrite qPochhammerSymbolThirdDerivative_form.
  pose proof (gprod_derivable l Hl q Hq P) as DC.
  pose proof (gsum1_derivable l Hl q Hq P) as DD.
  pose proof (gsum2_derivable l Hl q Hq P) as DE.
  pose proof (one_minus_pow_derivable q P) as D0.
  pose proof (one_minus_pow_derivable2 q P) as D1.
  pose proof (one_minus_pow_derivable3 q P) as D2.
  pose proof (derivable_pt_lim_mult _ _ q _ _ DC DD) as DCD.
  pose proof (derivable_pt_lim_plus _ _ q _ _
                (derivable_pt_lim_plus _ _ q _ _
                   (derivable_pt_lim_mult _ _ q _ _ DC D2)
                   (derivable_pt_lim_mult _ _ q _ _
                      (derivable_pt_lim_scal _ 2 q _ DCD) D1))
                (derivable_pt_lim_mult _ _ q _ _
                   (derivable_pt_lim_plus _ _ q _ _
                      (derivable_pt_lim_mult _ _ q _ _ DCD DD)
                      (derivable_pt_lim_mult _ _ q _ _ DC DE))
                   D0)) as Hd.
  unfold plus_fct, mult_fct, mult_real_fct in Hd.
  apply (derivable_pt_lim_value _ _ _ _ Hd).
  unfold Ct, DS, dDS, ddDS, Dt, dDt, ddDt, dddDt. ring.
Qed.

End ThirdDerivative.

(** X21.  The three derivative functions of the q-Pochhammer symbol are
    its successive derivatives with respect to [q] at every [q] of
    [[0, 1]], for every [l >= 0] and order [P >= 0] with [l + P <= 160],
    where [(1 - q)^P] has not underflowed; hence the four functions of
    [qPotential] are its splitting function and the first, second and third
    derivative of it.  (On that range the geometric sums the code divides
    by are at least 1, the products of [int]s stay below [160^3], and the
    factor [Ct <= 160!] times the sums it is multiplied with stays below
    [DBL_MAX].) *)
Theorem qPochhammer_derivative_chain (q : R) (l P : Z) :
  0 <= q <= 1 -> (0 <= l)%Z -> (0 <= P)%Z -> (l + P <= 160)%Z -> Dt_normal q P ->
  derivable_pt_lim (fun x => qPochhammerSymbol x l P) q
    (qPochhammerSymbolDerivative q l P) /\
  derivable_pt_lim (fun x => qPochhammerSymbolDerivative x l P) q
    (qPochhammerSymbolSecondDerivative q l P) /\
  derivable_pt_lim (fun x => qPochhammerSymbolSecondDerivative x l P) q
    (qPochhammerSymbolThirdDerivative q l P) /\
  (forall t, qPotential.order t = P ->
     derivable_pt_lim (qPotential.short_range_function t) q
       (qPotential.short_range_function_derivative t q) /\
     derivable_pt_lim (qPotential.short_range_function_derivative t) q
       (qPotential.short_range_function_second_derivative t q) /\
     derivable_pt_lim (qPotential.short_range_function_second_derivative t) q
       (qPotential.short_range_function_third_derivative t q)).
Proof.
  intros [Hq _] Hl HP Hrange _.
  assert (Hsum : (l + P < 2147483647)%Z) by lia.
  assert (Hall : forall l', (0 <= l')%Z -> (l' + P < 2147483647)%Z ->
    derivable_pt_lim (fun x => qPochhammerSymbol x l' P) q
      (qPochhammerSymbolDerivative q l' P) /\
    derivable_pt_lim (fun x => qPochhammerSymbolDerivative x l' P) q
      (qPochhammerSymbolSecondDerivative q l' P) /\
    derivable_pt_lim (fun x => qPochhammerSymbolSecondDerivative x l' P) q
      (qPochhammerSymbolThirdDerivative q l' P)).
  { intros l' Hl' Hsum'. split; [|split].
    - apply qPochhammerSymbol_derivable; assumption.
    - pose proof (qPochhammerSymbolDerivative_derivable l' (Z.to_nat P) Hl') as Hd.
      rewrite Z2Nat.id in Hd by lia. apply Hd; assumption.
    - pose proof (qPochhammerSymbolSecondDerivative_derivable l' (Z.to_nat P) Hl') as Hd.
      rewrite Z2Nat.id in Hd by lia. apply Hd; assumption. }
  destruct (Hall l Hl Hsum) as (H1 & H2 & H3).
  split; [exact H1|]. split; [exact H2|]. split; [exact H3|].
  intros t Ht.
  destruct (Hall 0%Z ltac:(lia) ltac:(lia)) as (Q1 & Q2 & Q3).
  destruct t as [e o]. cbn [qPotential.order] in Ht. subst o.
  split; [exact Q1|]. split; [exact Q2 | exact Q3].
Qed.

Lemma qPochhammer_derivative_chain_witness :
  derivable_pt_lim (fun x => qPochhammerSymbol x 0 3) 0.5 (qPochhammerSymbolDerivative 0.5 0 3).
Proof.
  apply (qPochhammer_derivative_chain 0.5 0 3); try lra; try lia.
  right. apply (DBL_MIN_le_pow _ 1); [simpl; lra | simpl; lia].
Defined.

(** ** The derivative of the error function *)

Section ErfDerivative.

Import Cmath.

Lemma exp_series_cv y :
  Un_cv (fun N => sum_f_R0 (fun k => / INR (fact k) * y ^ k) N) (exp y).
Proof.
  pose proof (proj2_sig (exist_exp y)) as He. exact He.
Qed.

Lemma erf_series_cv y :
  Un_cv (fun N => sum_f_R0 (fun k => erf_coef k * y ^ k) N) (erf_series y).
Proof.
  unfold erf_series.
  exact (proj2_sig (Alembert_C3 erf_coef y erf_coef_nonzero erf_coef_Alembert)).
Qed.

(** Terms of [x * erf_series (x * x)] and of their derivatives. *)
Let term (k : nat) (x : R) : R := erf_coef k * x ^ (2 * k + 1).
Let dterm (k : nat) (x : R) : R := / INR (fact k) * (- (x * x)) ^ k.

Lemma pow_double x k : x ^ (2 * k) = (x * x) ^ k.
Proof. rewrite pow_mult. simpl. rewrite Rmult_1_r. reflexivity. Qed.

Lemma term_derivable k x : derivable_pt_lim (term k) x (dterm k x).
Proof.
  pose proof (scaled_pow_derivable (erf_coef k) (2 * k + 1) x) as Hd.
  apply (derivable_pt_lim_value _ _ _ _ Hd).
  assert (E1 : x ^ pred (2 * k + 1) = (x * x) ^ k).
  { replace (pred (2 * k + 1)) with (2 * k)%nat by lia. apply pow_double. }
  assert (E2 : (- (x * x)) ^ k = (-1) ^ k * (x * x) ^ k).
  { replace (- (x * x)) with (-1 * (x * x)) by ring. apply Rpow_mult_distr. }
  unfold dterm. rewrite E1, E2. unfold erf_coef.
  field. split; first [apply INR_fact_neq_0 | apply not_0_INR; lia].
Qed.

Lemma partial_sum_derivable N x :
  derivable_pt_lim (SP term N) x (SP dterm N x).
Proof.
  induction N as [|N IH].
  - exact (term_derivable 0 x).
  - exact (derivable_pt_lim_plus _ _ x _ _ IH (term_derivable (S N) x)).
Qed.

Lemma partial_sum_cv x : Un_cv (fun N => SP term N x) (x * erf_series (x * x)).
Proof.
  pose proof (CV_mult (fun _ => x) _ x _
                (fun eps Heps => ex_intro _ 0%nat
                   (fun n _ => eq_ind_r (fun d => d < eps) Heps (Rdist_eq x)))
                (erf_series_cv (x * x))) as Hcv.
  intros eps Heps. destruct (Hcv eps Heps) as [N HN]. exists N. intros n Hn.
  specialize (HN n Hn). cbv beta in HN.
  replace (SP term n x)
    with (x * sum_f_R0 (fun k => erf_coef k * (x * x) ^ k) n); [exact HN|].
  rewrite scal_sum. unfold SP. apply sum_eq. intros i _. unfold term.
  rewrite pow_add, pow_double. simpl. ring.
Qed.

Lemma dterm_cv x : Un_cv (fun N => SP dterm N x) (exp (- (x * x))).
Proof. exact (exp_series_cv (- (x * x))). Qed.

Lemma dterm_CVN_r (r : posreal) : CVN_r dterm r.
Proof.
  exists (fun k => / INR (fact k) * (r * r) ^ k), (exp (r * r)). split.
  - intros eps Heps. destruct (exp_series_cv (r * r) eps Heps) as [N HN].
    exists N. intros n Hn. specialize (HN n Hn).
    replace (sum_f_R0 (fun k => Rabs (/ INR (fact k) * (r * r) ^ k)) n)
      with (sum_f_R0 (fun k => / INR (fact k) * (r * r) ^ k) n); [exact HN|].
    apply sum_eq. intros i _. symmetry. apply Rabs_pos_eq.
    apply Rmult_le_pos.
    + apply Rlt_le, Rinv_0_lt_compat, INR_fact_lt_0.
    + apply pow_le. apply Rle_0_sqr.
  - intros n y Hy. unfold dterm, Boule in *. rewrite Rminus_0_r in Hy.
    rewrite Rabs_mult, <- RPow_abs, Rabs_Ropp.
    rewrite (Rabs_pos_eq (/ INR (fact n)))
      by (apply Rlt_le, Rinv_0_lt_compat, INR_fact_lt_0).
    apply Rmult_le_compat_l; [apply Rlt_le, Rinv_0_lt_compat, INR_fact_lt_0|].
    apply pow_incr. split; [apply Rabs_pos|].
    rewrite Rabs_mult. pose proof (Rabs_pos y). pose proof (cond_pos r). nra.
Qed.

Lemma erf_body_derivable x :
  derivable_pt_lim (fun y => y * erf_series (y * y)) x (exp (- (x * x))).
Proof.
  assert (Hr : 0 < Rabs x + 1) by (pose proof (Rabs_pos x); lra).
  set (r := mkposreal _ Hr).
  set (cv := fun y => exist (fun l => Un_cv (fun N => SP dterm N y) l) _ (dterm_cv y)).
  pose proof (CVN_CVU dterm cv r (dterm_CVN_r r)) as Hcvu.
  apply (CVU_derivable (SP term) (SP dterm) _ (fun y => exp (- (y * y))) 0 r).
  - exact Hcvu.
  - intros y _. apply partial_sum_cv.
  - intros n y _. apply partial_sum_derivable.
  - unfold Boule. rewrite Rminus_0_r. simpl. lra.
Qed.

Lemma erf_derivable x :
  derivable_pt_lim erf x (2 / sqrt_pi * exp (- (x * x))).
Proof.
  exact (derivable_pt_lim_scal _ (2 / sqrt_pi) x _ (erf_body_derivable x)).
Qed.

Lemma erfc_derivable x :
  derivable_pt_lim erfc x (- (2 / sqrt_pi * exp (- (x * x)))).
Proof.
  pose proof (derivable_pt_lim_minus _ _ x _ _ (derivable_pt_lim_const 1 x)
                (erf_derivable x)) as Hd.
  unfold minus_fct, fct_cte in Hd.
  apply (derivable_pt_lim_value _ _ _ _ Hd). ring.
Qed.

End ErfDerivative.

(** ** Wolf and Ewald: the derivative functions are the derivatives *)

Section GaussianBlocks.

Import Cmath.

Variables (A B : R).

Lemma affine_derivable c d q : derivable_pt_lim (fun y => c * y + d) q c.
Proof.
  pose proof (derivable_pt_lim_plus _ _ q _ _
                (derivable_pt_lim_scal id c q 1 (derivable_pt_lim_id q))
                (derivable_pt_lim_const d q)) as Hd.
  unfold plus_fct, mult_real_fct, id, fct_cte in Hd.
  apply (derivable_pt_lim_value _ _ _ _ Hd). ring.
Qed.

Lemma erfc_affine_derivable d q :
  derivable_pt_lim (fun y => erfc (A * y + d)) q
    (- (2 / sqrt_pi * exp (- ((A * q + d) * (A * q + d)))) * A).
Proof.
  exact (derivable_pt_lim_comp _ erfc q _ _ (affine_derivable A d q) (erfc_derivable _)).
Qed.

Lemma exp_linear_derivable c q :
  derivable_pt_lim (fun y => exp (c * y)) q (c * exp (c * q)).
Proof.
  pose proof (derivable_pt_lim_comp _ exp q _ _ (affine_derivable c 0 q)
                (derivable_pt_lim_exp _)) as Hd.
  unfold comp in Hd.
  apply (derivable_pt_lim_congr _ (fun y => exp (c * y + 0))).
  - intro y. rewrite Rplus_0_r. reflexivity.
  - apply (derivable_pt_lim_value _ _ _ _ Hd). rewrite Rplus_0_r. ring.
Qed.

Lemma gauss_derivable q :
  derivable_pt_lim (fun y => exp (- ((A * y - B) * (A * y - B)))) q
    (exp (- ((A * q - B) * (A * q - B))) * (-2 * (A * q - B) * A)).
Proof.
  pose proof (affine_derivable A (- B) q) as Ha.
  pose proof (derivable_pt_lim_opp _ q _ (derivable_pt_lim_mult _ _ q _ _ Ha Ha)) as Hs.
  pose proof (derivable_pt_lim_comp _ exp q _ _ Hs (derivable_pt_lim_exp _)) as Hd.
  unfold comp, opp_fct, mult_fct in Hd.
  apply (derivable_pt_lim_congr _
           (fun y => exp (- ((A * y + - B) * (A * y + - B))))).
  - intro y. reflexivity.
  - apply (derivable_pt_lim_value _ _ _ _ Hd).
    replace (A * q + - B) with (A * q - B) by ring. ring.
Qed.

(** [exp(-(Aq + B)^2) * exp(4ABq) = exp(-(Aq - B)^2)]. *)
Lemma gauss_shift q :
  exp (- ((A * q + B) * (A * q + B))) * exp (4 * A * B * q)
  = exp (- ((A * q - B) * (A * q - B))).
Proof. rewrite <- exp_plus. f_equal. ring. Qed.

(** The screened term [erfc(Aq + B) exp(4ABq)] and its derivative. *)
Lemma screened_term_derivable q :
  derivable_pt_lim (fun y => erfc (A * y + B) * exp (4 * A * B * y)) q
    (- (2 * A / sqrt_pi) * exp (- ((A * q - B) * (A * q - B)))
     + 4 * A * B * (erfc (A * q + B) * exp (4 * A * B * q))).
Proof.
  pose proof (derivable_pt_lim_mult _ _ q _ _ (erfc_affine_derivable B q)
                (exp_linear_derivable (4 * A * B) q)) as Hd.
  unfold mult_fct in Hd.
  apply (derivable_pt_lim_value _ _ _ _ Hd).
  rewrite <- gauss_shift. unfold Rdiv. ring.
Qed.

End GaussianBlocks.

(** X22.  The three derivative functions of a constructed Wolf object are
    the successive derivatives of its splitting function
    [erfc(alpha Rc q) - q erfc(alpha Rc)] at every [q]. *)
Theorem wolf_derivative_chain (c a q : R) :
  let w := Wolf.ctor c a in
  derivable_pt_lim (Wolf.short_range_function w) q
    (Wolf.short_range_function_derivative w q) /\
  derivable_pt_lim (Wolf.short_range_function_derivative w) q
    (Wolf.short_range_function_second_derivative w q) /\
  derivable_pt_lim (Wolf.short_range_function_second_derivative w) q
    (Wolf.short_range_function_third_derivative w q).
Proof.
  intro w. set (A := a * c).
  assert (Hgauss : forall y, exp (- (A * A) * y * y) = exp (- ((A * y - 0) * (A * y - 0)))).
  { intro y. f_equal. ring. }
  assert (Hhalf : 0.5 = 1 / 2) by lra.
  unfold Wolf.short_range_function, Wolf.short_range_function_derivative,
    Wolf.short_range_function_second_derivative,
    Wolf.short_range_function_third_derivative, Wolf.pi_sqrt.
  subst w. cbn [Wolf.ctor Wolf.alphaRed Wolf.alphaRed2]. fold A.
  split; [|split].
  - pose proof (derivable_pt_lim_minus _ _ q _ _ (erfc_affine_derivable A 0 q)
                  (derivable_pt_lim_scal_right id q 1 (Cmath.erfc A)
                     (derivable_pt_lim_id q))) as Hd.
    unfold minus_fct, id in Hd.
    apply (derivable_pt_lim_congr _ (fun y => Cmath.erfc (A * y + 0) - y * Cmath.erfc A)).
    + intro y. rewrite Rplus_0_r. reflexivity.
    + apply (derivable_pt_lim_value _ _ _ _ Hd).
      rewrite Hgauss. replace (A * q + 0) with (A * q - 0) by ring.
      unfold Rdiv. ring.
  - pose proof (derivable_pt_lim_minus _ _ q _ _
                  (derivable_pt_lim_scal _ (-2 * A / Cmath.sqrt_pi) q _
                     (gauss_derivable A 0 q))
                  (derivable_pt_lim_const (Cmath.erfc A) q)) as Hd.
    unfold minus_fct, mult_real_fct, fct_cte in Hd.
    apply (derivable_pt_lim_congr _
             (fun y => -2 * A / Cmath.sqrt_pi * exp (- ((A * y - 0) * (A * y - 0)))
                       - Cmath.erfc A)).
    + intro y. rewrite Hgauss. unfold Rdiv. ring.
    + apply (derivable_pt_lim_value _ _ _ _ Hd).
      rewrite Hgauss. unfold Rdiv. ring.
  - pose proof (derivable_pt_lim_scal _ (4 * (A * A) * A / Cmath.sqrt_pi) q _
                  (derivable_pt_lim_mult _ _ q _ _ (gauss_derivable A 0 q)
                     (derivable_pt_lim_id q))) as Hd.
    unfold mult_fct, mult_real_fct, id in Hd.
    apply (derivable_pt_lim_congr _
             (fun y => 4 * (A * A) * A / Cmath.sqrt_pi
                       * (exp (- ((A * y - 0) * (A * y - 0))) * y))).
    + intro y. rewrite Hgauss. unfold Rdiv. ring.
    + apply (derivable_pt_lim_value _ _ _ _ Hd).
      rewrite Hgauss, Hhalf. unfold Rdiv.
      set (isp := / Cmath.sqrt_pi). field.
Qed.

Lemma Ewald_ctor_fields c a eps dl :
  let e := Ewald.ctor c a eps dl in
  let A := a * c in
  let B := xinv dl / (2 * a) in
  Ewald.alphaRed e = A /\ Ewald.alphaRed2 e = A * A /\ Ewald.alphaRed3 e = A * A * A /\
  Ewald.beta e = B /\ Ewald.beta2 e = B * B /\ Ewald.beta3 e = B * B * B.
Proof. repeat split; reflexivity. Qed.

(** X23.  The three derivative functions of a constructed Ewald object
    ([alpha <> 0]) are the successive derivatives of its splitting function
    at every [q], with or without a Debye length. *)
Theorem ewald_derivative_chain (c a : R) (eps dl : xreal) (q : R) :
  a <> 0 -> nonzero_length dl ->
  let e := Ewald.ctor c a eps dl in
  derivable_pt_lim (Ewald.short_range_function e) q
    (Ewald.short_range_function_derivative e q) /\
  derivable_pt_lim (Ewald.short_range_function_derivative e) q
    (Ewald.short_range_function_second_derivative e q) /\
  derivable_pt_lim (Ewald.short_range_function_second_derivative e) q
    (Ewald.short_range_function_third_derivative e q).
Proof.
  intros _ _ e.
  destruct (Ewald_ctor_fields c a eps dl) as (HA & HA2 & HA3 & HB & HB2 & HB3).
  fold e in HA, HA2, HA3, HB, HB2, HB3.
  set (A := a * c) in *. set (B := xinv dl / (2 * a)) in *.
  assert (Hpow : forall y, exp (- powi (A * y - B) 2) = exp (- ((A * y - B) * (A * y - B)))).
  { intro y. f_equal. unfold powi. simpl. ring. }
  assert (Hhalf : 0.5 = 1 / 2) by lra.
  unfold Ewald.short_range_function, Ewald.short_range_function_derivative,
    Ewald.short_range_function_second_derivative,
    Ewald.short_range_function_third_derivative.
  cbv zeta. rewrite HA, HA2, HA3, HB, HB2, HB3.
  pose proof (screened_term_derivable A B q) as DG.
  pose proof (gauss_derivable A B q) as DE.
  split; [|split].
  - pose proof (derivable_pt_lim_scal _ (1 / 2) q _
                  (derivable_pt_lim_plus _ _ q _ _ DG (erfc_affine_derivable A (- B) q)))
      as Hd.
    unfold plus_fct, mult_real_fct in Hd.
    apply (derivable_pt_lim_congr _
             (fun y => 1 / 2 * (Cmath.erfc (A * y + B) * exp (4 * A * B * y)
                                + Cmath.erfc (A * y + - B)))).
    + intro y. rewrite Hhalf. reflexivity.
    + apply (derivable_pt_lim_value _ _ _ _ Hd).
      rewrite Hpow. replace (A * q + - B) with (A * q - B) by ring.
      unfold Rdiv. set (isp := / Cmath.sqrt_pi). field.
  - pose proof (derivable_pt_lim_plus _ _ q _ _
                  (derivable_pt_lim_scal _ (-2 * A / Cmath.sqrt_pi) q _ DE)
                  (derivable_pt_lim_scal _ (2 * A * B) q _ DG)) as Hd.
    unfold plus_fct, mult_real_fct in Hd.
    apply (derivable_pt_lim_congr _
             (fun y => -2 * A / Cmath.sqrt_pi * exp (- ((A * y - B) * (A * y - B)))
                       + 2 * A * B * (Cmath.erfc (A * y + B) * exp (4 * A * B * y)))).
    + intro y. rewrite Hpow. ring.
    + apply (derivable_pt_lim_value _ _ _ _ Hd).
      rewrite Hpow. unfold Rdiv. ring.
  - pose proof (derivable_pt_lim_plus _ _ q _ _
                  (derivable_pt_lim_scal _ (4 * (A * A) / Cmath.sqrt_pi) q _
                     (derivable_pt_lim_mult _ _ q _ _ (affine_derivable A (-2 * B) q) DE))
                  (derivable_pt_lim_scal _ (8 * (A * A) * (B * B)) q _ DG)) as Hd.
    unfold plus_fct, mult_fct, mult_real_fct in Hd.
    apply (derivable_pt_lim_congr _
             (fun y => 4 * (A * A) / Cmath.sqrt_pi
                       * ((A * y + -2 * B) * exp (- ((A * y - B) * (A * y - B))))
                       + 8 * (A * A) * (B * B)
                         * (Cmath.erfc (A * y + B) * exp (4 * A * B * y)))).
    + intro y. rewrite Hpow. unfold Rdiv. ring.
    + apply (derivable_pt_lim_value _ _ _ _ Hd).
      rewrite Hpow. unfold Rdiv. ring.
Qed.

Lemma ewald_derivative_chain_witness :
  derivable_pt_lim (Ewald.short_range_function (Ewald.ctor 29 0.1 Inf (Fin 23))) 0.5
    (Ewald.short_range_function_derivative (Ewald.ctor 29 0.1 Inf (Fin 23)) 0.5).
Proof.
  apply (ewald_derivative_chain 29 0.1 Inf (Fin 23) 0.5); [lra | cbn; lra].
Defined.
